(** * Connect Four engine (mcts.py): a shallow embedding and its properties

    The Python module is embedded function by function.  Python values are
    modelled as follows:
    - an [int] is a [Z]; list indexing follows Python (negative indices
      count from the end, anything else out of range raises [IndexError]);
    - a cell or a player is a [string] ("." for an empty cell, "R", "Y");
    - a board is a list of rows, each a list of cells;
    - code that can raise returns a [result];
    - [random] and [time] are explicit oracles threaded through the code;
    - tree nodes live in an arena indexed by creation order, so that the
      [parent] reference and the in-place counter updates are explicit. *)

From Stdlib Require Import ZArith List String Bool Lia QArith Sorted.
From stdpp Require Import base tactics option list strings.

Local Open Scope string_scope.
Local Open Scope list_scope.
Local Open Scope Z_scope.

(** ** Exceptions and the error monad *)

Inductive exn : Type :=
| IndexError
| AttributeError
| ValueError.

(** The outcome of a call: a value, a raised exception, or [OutOfFuel]
    when a loop was cut by the model's fuel before the code decided. *)
Inductive result (A : Type) : Type :=
| Ok (a : A)
| Raise (e : exn)
| OutOfFuel.

Arguments Ok {A} a.
Arguments Raise {A} e.
Arguments OutOfFuel {A}.

#[global] Instance result_ret : MRet result := fun A a => Ok a.

#[global] Instance result_bind : MBind result := fun A B f m =>
  match m with
  | Ok a => f a
  | Raise e => Raise e
  | OutOfFuel => OutOfFuel
  end.

#[global] Instance result_fmap : FMap result := fun A B f m =>
  match m with
  | Ok a => Ok (f a)
  | Raise e => Raise e
  | OutOfFuel => OutOfFuel
  end.

Definition raises {A} (m : result A) : Prop := ∃ e, m = Raise e.

Definition is_ok {A} (m : result A) : bool :=
  match m with Ok _ => true | _ => false end.

(** ** Python sequences *)

(** [l[i]]: a negative index counts from the end. *)
Definition py_norm (len i : Z) : Z := if i <? 0 then i + len else i.

Definition py_index {A} (l : list A) (i : Z) : result A :=
  let j := py_norm (Z.of_nat (length l)) i in
  if (0 <=? j) && (j <? Z.of_nat (length l)) then
    match l !! Z.to_nat j with
    | Some x => Ok x
    | None => Raise IndexError
    end
  else Raise IndexError.

(** [l[i] = x], as the list after the assignment. *)
Definition py_setitem {A} (l : list A) (i : Z) (x : A) : result (list A) :=
  let j := py_norm (Z.of_nat (length l)) i in
  if (0 <=? j) && (j <? Z.of_nat (length l)) then Ok (<[Z.to_nat j := x]> l)
  else Raise IndexError.

(** [range(n)] and [range(a, b)]. *)
Definition range (n : Z) : list Z := seqZ 0 n.
Definition range2 (a b : Z) : list Z := seqZ a (b - a).

(** A [for] loop whose body updates an accumulator and may raise. *)
Fixpoint for_each {S A} (xs : list A) (body : A → S → result S) (s : S)
  : result S :=
  match xs with
  | [] => Ok s
  | x :: xs' => s' ← body x s; for_each xs' body s'
  end.

(** [m] then [k], unless [m] already made the function return [True]. *)
Definition or_return (m k : result bool) : result bool :=
  b ← m; if b : bool then Ok true else k.

(** A [for] loop whose body may [return True]; [Ok false] means that the
    loop ran to its end. *)
Fixpoint for_any {A} (xs : list A) (body : A → result bool) : result bool :=
  match xs with
  | [] => Ok false
  | x :: xs' => or_return (body x) (for_any xs' body)
  end.

(** Python's short-circuit [and]. *)
Definition and_then (m k : result bool) : result bool :=
  b ← m; if b : bool then k else Ok false.

Infix "<&&>" := and_then (at level 41, right associativity).

(** ** Board model *)

Definition ROWS : Z := 6.
Definition COLS : Z := 7.

Abbreviation Board := (list (list string)) (only parsing).

(** [board[row][col]] *)
Definition board_get (board : Board) (row col : Z) : result string :=
  r ← py_index board row; py_index r col.

(** [board[row][col] == player] *)
Definition cell_is (board : Board) (row col : Z) (player : string)
  : result bool :=
  c ← board_get board row col; Ok (String.eqb c player).

Definition get_valid_moves (board : Board) : result (list Z) :=
  for_each (range COLS)
    (fun col valid_moves =>
       e ← cell_is board 0 col ".";
       if e : bool then Ok (valid_moves ++ [col]) else Ok valid_moves)
    [].

(** The loop of [make_move] over the remaining rows; the assignment ends
    it ([break]). *)
Fixpoint make_move_loop (rows : list Z) (new_board : Board) (col : Z)
  (player : string) : result Board :=
  match rows with
  | [] => Ok new_board
  | row :: rows' =>
      e ← cell_is new_board row col ".";
      if e : bool then
        r ← py_index new_board row;
        r' ← py_setitem r col player;
        py_setitem new_board row r'
      else make_move_loop rows' new_board col player
  end.

(** The board is a value here, so [copy.deepcopy] is the identity; the
    object-level behaviour of the copy is the subject of [Module Heap]. *)
Definition make_move (board : Board) (col : Z) (player : string)
  : result Board :=
  let new_board := board in
  make_move_loop (reverse (range ROWS)) new_board col player.

Definition check_winner (board : Board) (player : string) : result bool :=
  (* Horizontal check *)
  or_return
    (for_any (range ROWS) (fun row =>
     for_any (range (COLS - 3)) (fun col =>
       cell_is board row col player <&&>
       cell_is board row (col + 1) player <&&>
       cell_is board row (col + 2) player <&&>
       cell_is board row (col + 3) player)))
  (* Vertical check *)
  (or_return
    (for_any (range COLS) (fun col =>
     for_any (range (ROWS - 3)) (fun row =>
       cell_is board row col player <&&>
       cell_is board (row + 1) col player <&&>
       cell_is board (row + 2) col player <&&>
       cell_is board (row + 3) col player)))
  (* Diagonal (down-right) check *)
  (or_return
    (for_any (range (ROWS - 3)) (fun row =>
     for_any (range (COLS - 3)) (fun col =>
       cell_is board row col player <&&>
       cell_is board (row + 1) (col + 1) player <&&>
       cell_is board (row + 2) (col + 2) player <&&>
       cell_is board (row + 3) (col + 3) player)))
  (* Diagonal (up-right) check *)
  (or_return
    (for_any (range2 3 ROWS) (fun row =>
     for_any (range (COLS - 3)) (fun col =>
       cell_is board row col player <&&>
       cell_is board (row - 1) (col + 1) player <&&>
       cell_is board (row - 2) (col + 2) player <&&>
       cell_is board (row - 3) (col + 3) player)))
  (Ok false)))).

Definition get_next_player (current_player : string) : string :=
  if String.eqb current_player "Y" then "R" else "Y".

(** [all(...)] over a generator: it stops at the first false value. *)
Fixpoint py_all {A} (xs : list A) (body : A → result bool) : result bool :=
  match xs with
  | [] => Ok true
  | x :: xs' => b ← body x; if b : bool then py_all xs' body else Ok false
  end.

Definition is_board_full (board : Board) : result bool :=
  py_all (range COLS) (fun col =>
    c ← board_get board 0 col; Ok (negb (String.eqb c "."))).

Definition empty_board : Board :=
  replicate 6 (replicate 7 ".").


(** A [for] loop whose body may make the function return the loop
    variable; [Ok None] means that the loop ran to its end. *)
Fixpoint for_find {A} (xs : list A) (body : A → result bool)
  : result (option A) :=
  match xs with
  | [] => Ok None
  | x :: xs' => b ← body x; if b : bool then Ok (Some x) else for_find xs' body
  end.

Definition find_immediate_win_or_block (board : Board)
  (current_player : string) : result (option Z) :=
  (* Immediate win *)
  moves ← get_valid_moves board;
  w ← for_find moves (fun col =>
         temp_board ← make_move board col current_player;
         check_winner temp_board current_player);
  match w with
  | Some col => Ok (Some col)
  | None =>
      (* Block opponent *)
      let opponent := get_next_player current_player in
      moves ← get_valid_moves board;
      for_find moves (fun col =>
        temp_board ← make_move board col opponent;
        check_winner temp_board opponent)
  end.

(** ** The outside world: the random generator and the clock

    [random] and [time.time] are oracles: the [n]-th request is answered
    by [draws n] and [ticks n].  A program threads the world and may
    raise. *)

Record world : Type := World {
  draws : nat → Z;
  draw_pos : nat;
  ticks : nat → Q;
  tick_pos : nat
}.

Definition prog (A : Type) : Type := world → result (A * world).

#[global] Instance prog_ret : MRet prog := fun A a w => Ok (a, w).

#[global] Instance prog_bind : MBind prog := fun A B f m w =>
  match m w with
  | Ok (a, w') => f a w'
  | Raise e => Raise e
  | OutOfFuel => OutOfFuel
  end.

Definition lift {A} (m : result A) : prog A := fun w =>
  match m with
  | Ok a => Ok (a, w)
  | Raise e => Raise e
  | OutOfFuel => OutOfFuel
  end.

(** The value of a program run in a world. *)
Definition run {A} (m : prog A) (w : world) : result A :=
  match m w with
  | Ok (a, _) => Ok a
  | Raise e => Raise e
  | OutOfFuel => OutOfFuel
  end.

Definition next_draw : prog Z := fun w =>
  Ok (draws w (draw_pos w),
      World (draws w) (S (draw_pos w)) (ticks w) (tick_pos w)).

(** [time.time()]; the readings are taken as exact rationals. *)
Definition time_time : prog Q := fun w =>
  Ok (ticks w (tick_pos w),
      World (draws w) (draw_pos w) (ticks w) (S (tick_pos w))).

(** [random.choice(seq)]: [IndexError] on an empty sequence, otherwise the
    element at an index below [len(seq)] taken from the generator. *)
Definition random_choice {A} (seq : list A) : prog A :=
  match seq with
  | [] => fun _ => Raise IndexError
  | _ :: _ =>
      k ← next_draw;
      lift (py_index seq (k `mod` Z.of_nat (length seq)))
  end.

(** [random.random()]: a multiple of [2^-53] in the interval [0, 1). *)
Definition random_random : prog Q :=
  k ← next_draw; mret (Qmake (k `mod` 2 ^ 53) (2 ^ 53)).

(** The literals [0.2], [0.15], [0.10], [0.05] denote these doubles. *)
Definition double_0_2 : Q := Qmake 3602879701896397 (2 ^ 54).
Definition double_0_15 : Q := Qmake 5404319552844595 (2 ^ 55).
Definition double_0_10 : Q := Qmake 3602879701896397 (2 ^ 55).
Definition double_0_05 : Q := Qmake 3602879701896397 (2 ^ 56).

(** [x < y] *)
Definition Qltb (x y : Q) : bool :=
  (Qnum x * Z.pos (Qden y) <? Qnum y * Z.pos (Qden x))%Z.

(** ** Rollout *)

(** What a rollout ends with.  Python returns [ro_winner] only; the final
    board and the number of moves played are kept for the statements. *)
Record rollout : Type := Rollout {
  ro_winner : option string;
  ro_board : Board;
  ro_moves : nat
}.

(** The [while True] loop of [simulate_game]; [n] counts the moves
    played so far. *)
Fixpoint simulate_loop (fuel : nat) (sim_board : Board)
  (sim_player : string) (n : nat) : prog rollout :=
  match fuel with
  | O => fun _ => OutOfFuel
  | S fuel' =>
      moves ← lift (get_valid_moves sim_board);
      match moves with
      | [] => mret (Rollout None sim_board n)   (* It's a draw *)
      | _ :: _ =>
          col ← random_choice moves;
          sim_board' ← lift (make_move sim_board col sim_player);
          won ← lift (check_winner sim_board' sim_player);
          if won : bool then mret (Rollout (Some sim_player) sim_board' (S n))
          else simulate_loop fuel' sim_board' (get_next_player sim_player)
                 (S n)
      end
  end.

Definition simulate_trace (fuel : nat) (board : Board)
  (current_player : string) : prog rollout :=
  let sim_board := board in
  simulate_loop fuel sim_board current_player 0.

Definition simulate_game (fuel : nat) (board : Board)
  (current_player : string) : prog (option string) :=
  r ← simulate_trace fuel board current_player; mret (ro_winner r).

(** Fuel that lets every rollout finish: one iteration per cell of the
    grid and one more to see that no move is left. *)
Definition rollout_fuel : nat := Z.to_nat (ROWS * COLS) + 1.

(** ** Search tree

    Nodes are objects with identity: [parent] and [children] hold
    references, and the counters are updated in place.  The arena [tree]
    holds the nodes in creation order; a reference is an index. *)

Record MCTSNode : Type := Node {
  board : Board;
  current_player : string;
  parent : option nat;
  children : list nat;
  wins : Z;
  visits : Z;
  untried_moves : list Z
}.

Abbreviation tree := (list MCTSNode) (only parsing).

Definition set_children (nd : MCTSNode) (cs : list nat) : MCTSNode :=
  Node (board nd) (current_player nd) (parent nd) cs (wins nd) (visits nd)
    (untried_moves nd).

Definition set_wins (nd : MCTSNode) (w : Z) : MCTSNode :=
  Node (board nd) (current_player nd) (parent nd) (children nd) w
    (visits nd) (untried_moves nd).

Definition set_visits (nd : MCTSNode) (v : Z) : MCTSNode :=
  Node (board nd) (current_player nd) (parent nd) (children nd) (wins nd) v
    (untried_moves nd).

Definition set_untried_moves (nd : MCTSNode) (ms : list Z) : MCTSNode :=
  Node (board nd) (current_player nd) (parent nd) (children nd) (wins nd)
    (visits nd) ms.

(** Dereference.  Python has no dangling reference; an index outside the
    arena is reported as [AttributeError], as an access through [None]. *)
Definition get_node (t : tree) (node : nat) : result MCTSNode :=
  match t !! node with
  | Some nd => Ok nd
  | None => Raise AttributeError
  end.

(** [MCTSNode.__init__] *)
Definition new_node (b : Board) (player : string) (par : option nat)
  : result MCTSNode :=
  moves ← get_valid_moves b;
  Ok (Node b player par [] 0 0 moves).

(** Floating point is kept abstract: the type of floats, its [>], the two
    infinities, and the value of
    [(wins / visits) + 1.4142 * math.sqrt(math.log(parent_visits) / visits)],
    which is [None] when [math.log] raises [ValueError]. *)
Class FloatOps : Type := {
  float : Type;
  float_gt : float → float → bool;
  float_inf : float;
  float_neg_inf : float;
  uct_expr : Z → Z → Z → option float
}.

Section Search.

Context `{FloatOps}.

Definition uct_value (t : tree) (node : nat) : result float :=
  nd ← get_node t node;
  if visits nd =? 0 then Ok float_inf
  else
    match parent nd with
    | None => Raise AttributeError
    | Some p =>
        pn ← get_node t p;
        match uct_expr (wins nd) (visits nd) (visits pn) with
        | Some x => Ok x
        | None => Raise ValueError
        end
    end.

Definition best_child (t : tree) (node : nat) : result (option nat) :=
  nd ← get_node t node;
  r ← for_each (children nd)
        (fun child '(best, best_uct) =>
           uct_val ← uct_value t child;
           if float_gt uct_val best_uct then Ok (Some child, uct_val)
           else Ok (best, best_uct))
        (None, float_neg_inf);
  Ok (fst r).

(** [list.pop()]: the last element and the list without it. *)
Definition py_pop {A} (l : list A) : result (A * list A) :=
  match reverse l with
  | [] => Raise IndexError
  | x :: _ => Ok (x, take (length l - 1)%nat l)
  end.

Definition expand_node (t : tree) (node : nat) : result (nat * tree) :=
  nd ← get_node t node;
  '(move, rest) ← py_pop (untried_moves nd);
  let nd := set_untried_moves nd rest in
  let t := <[node := nd]> t in
  new_board ← make_move (board nd) move (current_player nd);
  let next_player := get_next_player (current_player nd) in
  child ← new_node new_board next_player (Some node);
  let child_node := length t in
  let t := t ++ [child] in
  let t := <[node := set_children nd (children nd ++ [child_node])]> t in
  Ok (child_node, t).

(** The [while node is not None] loop. *)
Fixpoint backpropagate (fuel : nat) (t : tree) (node : option nat)
  (winner : option string) : result tree :=
  match node with
  | None => Ok t
  | Some n =>
      match fuel with
      | O => OutOfFuel
      | S fuel' =>
          nd ← get_node t n;
          let nd := set_visits nd (visits nd + 1) in
          let nd :=
            match winner with
            | Some w =>
                if String.eqb w (get_next_player (current_player nd))
                then set_wins nd (wins nd + 1) else nd
            | None => nd
            end in
          backpropagate fuel' (<[n := nd]> t) (parent nd) winner
      end
  end.

(** Selection: [while not node.untried_moves and node.children]. *)
Fixpoint select_node (fuel : nat) (t : tree) (node : option nat)
  : result nat :=
  match node with
  | None => Raise AttributeError
  | Some n =>
      nd ← get_node t n;
      match untried_moves nd, children nd with
      | [], _ :: _ =>
          match fuel with
          | O => OutOfFuel
          | S fuel' => c ← best_child t n; select_node fuel' t c
          end
      | _, _ => Ok n
      end
  end.

(** One pass of the body of the search loop. *)
Definition mcts_iteration (t : tree) : prog tree :=
  (* 1. Selection *)
  node ← lift (select_node (length t) t (Some 0%nat));
  (* 2. Expansion *)
  nd ← lift (get_node t node);
  '(node, t) ← match untried_moves nd with
               | _ :: _ => lift (expand_node t node)
               | [] => mret (node, t)
               end;
  (* 3. Simulation *)
  nd ← lift (get_node t node);
  winner ← simulate_game rollout_fuel (board nd) (current_player nd);
  (* 4. Backpropagation *)
  lift (backpropagate (length t) t (Some node) winner).

(** The loop [while (time.time() - start_time) < time_limit]. *)
Fixpoint mcts_loop (fuel : nat) (start_time time_limit : Q) (t : tree)
  : prog tree :=
  match fuel with
  | O => fun _ => OutOfFuel
  | S fuel' =>
      now ← time_time;
      if Qltb (now - start_time) time_limit then
        t ← mcts_iteration t; mcts_loop fuel' start_time time_limit t
      else mret t
  end.

(** [max(children, key=lambda c: c.visits)]: the first greatest one. *)
Definition max_by_visits (t : tree) (cs : list nat) : result (option nat) :=
  match cs with
  | [] => Ok None
  | c :: cs' =>
      v ← get_node t c;
      r ← for_each cs'
            (fun c '(best, best_key) =>
               nd ← get_node t c;
               if best_key <? visits nd then Ok (c, visits nd)
               else Ok (best, best_key))
            (c, visits v);
      Ok (Some (fst r))
  end.

(** What [mcts] does once the loop has ended. *)
Definition mcts_finish (t : tree) (root_board : Board)
  (current_player : string) : prog Z :=
  root_node ← lift (get_node t 0%nat);
  best_move_node ← lift (max_by_visits t (children root_node));
  match best_move_node with
  | None =>
      moves ← lift (get_valid_moves root_board); random_choice moves
  | Some best =>
      bn ← lift (get_node t best);
      moves ← lift (get_valid_moves root_board);
      found ← lift (for_find moves (fun col =>
                 candidate_board ← make_move root_board col current_player;
                 Ok (bool_decide (candidate_board = board bn))));
      match found with
      | Some col => mret col
      | None =>
          moves ← lift (get_valid_moves root_board); random_choice moves
      end
  end.

(** The tree in which the loop of [mcts] ends. *)
Definition mcts_tree (fuel : nat) (root_board : Board)
  (current_player : string) (time_limit : Q) : prog tree :=
  start_time ← time_time;
  root_node ← lift (new_node root_board current_player None);
  mcts_loop fuel start_time time_limit [root_node].

Definition mcts (fuel : nat) (root_board : Board) (current_player : string)
  (simulations : Z) (time_limit : Q) : prog Z :=
  t ← mcts_tree fuel root_board current_player time_limit;
  mcts_finish t root_board current_player.

(** ** Decision policy

    [ai_move_with] is [ai_move] with its two callees as parameters. *)
Definition ai_move_with
  (tactic : Board → string → result (option Z))
  (search : Board → string → Z → Q → prog Z)
  (board : Board) (current_player : string) (difficulty : Z) : prog Z :=
  random_difficulty ← random_random;
  if ((difficulty =? 1) && Qltb random_difficulty double_0_2)
     || ((difficulty =? 2) && Qltb random_difficulty double_0_15)
     || ((difficulty =? 3) && Qltb random_difficulty double_0_10)
     || ((difficulty =? 4) && Qltb random_difficulty double_0_05)
  then
    moves ← lift (get_valid_moves board); random_choice moves
  else
    col ← (if difficulty =? 5 then lift (tactic board current_player)
           else mret None);
    match col with
    | Some col => mret col
    | None => search board current_player 300 1%Q
    end.

Definition ai_move (fuel : nat) : Board → string → Z → prog Z :=
  ai_move_with find_immediate_win_or_block (mcts fuel).

End Search.

(** ** Boards as objects

    [make_move] copies its argument with [copy.deepcopy] and then assigns
    into a row of the copy.  Here the rows are objects in a heap and a
    board is the list of the references to its rows, so that sharing
    between boards, and between the rows of one board, is visible. *)
Module Heap.

Abbreviation heap := (list (list string)) (only parsing).

Abbreviation boardref := (list nat) (only parsing).

Definition deref (h : heap) (a : nat) : result (list string) :=
  match h !! a with
  | Some r => Ok r
  | None => Raise AttributeError
  end.

(** The board value that a reference denotes. *)
Definition denote (h : heap) (b : boardref) : option Board :=
  mapM (fun a => h !! a) b.

Fixpoint memo_get (memo : list (nat * nat)) (a : nat) : option nat :=
  match memo with
  | [] => None
  | (k, v) :: memo' => if Nat.eqb k a then Some v else memo_get memo' a
  end.

(** The loop of [copy.deepcopy] over the elements of the outer list: a
    row met before is taken from [memo], another one is copied to a new
    object.  The cells are strings, which [deepcopy] returns as they
    are. *)
Fixpoint deepcopy_rows (h : heap) (memo : list (nat * nat))
  (rows : list nat) : result (list nat * heap) :=
  match rows with
  | [] => Ok ([], h)
  | a :: rows' =>
      match memo_get memo a with
      | Some a' =>
          '(y, h') ← deepcopy_rows h memo rows'; Ok (a' :: y, h')
      | None =>
          r ← deref h a;
          let a' := length h in
          '(y, h') ← deepcopy_rows (h ++ [r]) ((a, a') :: memo) rows';
          Ok (a' :: y, h')
      end
  end.

Definition deepcopy (h : heap) (b : boardref) : result (boardref * heap) :=
  deepcopy_rows h [] b.

Fixpoint make_move_loop (rows : list Z) (h : heap) (new_board : boardref)
  (col : Z) (player : string) : result heap :=
  match rows with
  | [] => Ok h
  | row :: rows' =>
      a ← py_index new_board row;
      r ← deref h a;
      c ← py_index r col;
      if String.eqb c "." then
        r' ← py_setitem r col player;
        Ok (<[a := r']> h)
      else make_move_loop rows' h new_board col player
  end.

Definition make_move (h : heap) (b : boardref) (col : Z) (player : string)
  : result (boardref * heap) :=
  '(new_board, h) ← deepcopy h b;
  h ← make_move_loop (reverse (range ROWS)) h new_board col player;
  Ok (new_board, h).

End Heap.

(** ** Notions of the specification *)

(** A board is a grid of 6 rows of 7 cells. *)
Definition wf_board (b : Board) : Prop :=
  length b = 6%nat ∧ Forall (fun r => length r = 7%nat) b.

(** The cell at a position of the grid. *)
Definition cell (b : Board) (r c : Z) : string :=
  nth (Z.to_nat c) (nth (Z.to_nat r) b []) "".

Definition in_grid (r c : Z) : Prop := 0 ≤ r < ROWS ∧ 0 ≤ c < COLS.

(** The board with one cell replaced. *)
Definition set_cell (b : Board) (r c : Z) (p : string) : Board :=
  <[Z.to_nat r := <[Z.to_nat c := p]> (nth (Z.to_nat r) b [])]> b.

(** The four directions of a line, as the step from a cell to the next. *)
Inductive direction : Type := Horizontal | Vertical | DiagDown | DiagUp.

Definition drow (d : direction) : Z :=
  match d with Horizontal => 0 | Vertical => 1 | DiagDown => 1 | DiagUp => -1 end.

Definition dcol (d : direction) : Z :=
  match d with Horizontal => 1 | Vertical => 0 | DiagDown => 1 | DiagUp => 1 end.

(** [player] holds the four cells that start at [(r, c)] and follow [d],
    all of them on the grid. *)
Definition line_at (b : Board) (player : string) (d : direction) (r c : Z)
  : Prop :=
  ∀ i, 0 ≤ i < 4 →
    in_grid (r + i * drow d) (c + i * dcol d)
    ∧ cell b (r + i * drow d) (c + i * dcol d) = player.

Definition four_in_line (b : Board) (player : string) : Prop :=
  ∃ d r c, line_at b player d r c.

(** Left-to-right reflection. *)
Definition mirror (b : Board) : Board := map (@reverse string) b.

(** Gravity: nothing is empty below a piece. *)
Definition gravity (b : Board) : Prop :=
  ∀ r r' c, in_grid r c → in_grid r' c → r < r' →
    cell b r c ≠ "." → cell b r' c ≠ ".".

Definition column_full (b : Board) (c : Z) : Prop :=
  ∀ r, 0 ≤ r < ROWS → cell b r c ≠ ".".

(** The lowest empty cell of column [c] is in row [r]. *)
Definition lowest_empty (b : Board) (c r : Z) : Prop :=
  0 ≤ r < ROWS ∧ cell b r c = "." ∧ ∀ r', r < r' < ROWS → cell b r' c ≠ ".".

Definition is_player (p : string) : Prop := p = "R" ∨ p = "Y".

(** Boards of a game: the empty grid, and any board followed by a legal
    move of a player. *)
Inductive reachable : Board → Prop :=
| reachable_empty : reachable empty_board
| reachable_move b col p b' moves :
    reachable b →
    get_valid_moves b = Ok moves → col ∈ moves → is_player p →
    make_move b col p = Ok b' →
    reachable b'.

(** The number of empty cells of the grid. *)
Definition empties (b : Board) : nat :=
  length (filter (fun rc => cell b rc.1 rc.2 = ".")
            (r ← range ROWS; c ← range COLS; [(r, c)])).

(** A stand-in for doubles, to run the search: rationals and the two
    infinities, with the exploration term bounded from above by
    [parent_visits / visits] under the same constant. *)
Inductive xrat : Type := NegInf | Fin (q : Q) | PosInf.

Definition xrat_gt (x y : xrat) : bool :=
  match x, y with
  | NegInf, _ => false
  | _, PosInf => false
  | _, NegInf => true
  | PosInf, _ => true
  | Fin p, Fin q => Qltb q p
  end.

Definition xrat_ops : FloatOps := {|
  float := xrat;
  float_gt := xrat_gt;
  float_inf := PosInf;
  float_neg_inf := NegInf;
  uct_expr := fun w v pv =>
    if pv <=? 0 then None
    else Some (Fin (Qmake w (Z.to_pos v)
                    + Qmake 14142 10000 * Qmake pv (Z.to_pos v))%Q)
|}.

(** A world for examples: the [n]-th draw is [3 n + 1], and the clock
    advances by a quarter at each reading. *)
Definition sample_world : world :=
  World (fun n => 3 * Z.of_nat n + 1) 0 (fun n => Qmake (Z.of_nat n) 4) 0.

(** [player] is in the four cells from [(r, c)] along [d], as a test. *)
Definition four (b : Board) (player : string) (d : direction) (r c : Z)
  : bool :=
  forallb (fun i => String.eqb (cell b (r + i * drow d) (c + i * dcol d)) player)
    [0; 1; 2; 3].

(** The value of [check_winner] on a grid, loop by loop. *)
Definition wins_b (b : Board) (player : string) : bool :=
  existsb (fun row => existsb (four b player Horizontal row) (range (COLS - 3)))
    (range ROWS)
  || existsb (fun col =>
       existsb (fun row => four b player Vertical row col) (range (ROWS - 3)))
       (range COLS)
  || existsb (fun row => existsb (four b player DiagDown row) (range (COLS - 3)))
       (range (ROWS - 3))
  || existsb (fun row => existsb (four b player DiagUp row) (range (COLS - 3)))
       (range2 3 ROWS).

(** The row where a piece dropped into column [c] lands: the first empty
    cell met from the bottom row up. *)
Definition landing_row (b : Board) (c : Z) : option Z :=
  find (fun r => String.eqb (cell b r c) ".") (reverse (range ROWS)).

(** A board of a game whose first column is full. *)
Definition full_column_board : Board :=
  [ ["Y"; "."; "."; "."; "."; "."; "."];
    ["R"; "."; "."; "."; "."; "."; "."];
    ["Y"; "."; "."; "."; "."; "."; "."];
    ["R"; "."; "."; "."; "."; "."; "."];
    ["Y"; "."; "."; "."; "."; "."; "."];
    ["R"; "."; "."; "."; "."; "."; "."] ].

(** The reflection of a line, read from its other end. *)
Definition mirror_dir (d : direction) : direction :=
  match d with
  | Horizontal => Horizontal
  | Vertical => Vertical
  | DiagDown => DiagUp
  | DiagUp => DiagDown
  end.

Definition mirror_row (d : direction) (r : Z) : Z :=
  match d with
  | Horizontal => r
  | Vertical => r
  | DiagDown => r + 3
  | DiagUp => r - 3
  end.

Definition mirror_col (d : direction) (c : Z) : Z :=
  match d with
  | Vertical => COLS - 1 - c
  | _ => COLS - 4 - c
  end.

(** A board on which Red holds the bottom cells of columns 0 to 2 and
    Yellow those of columns 4 to 6. *)
Definition threat_board : Board :=
  replicate 5 (replicate 7 ".") ++ [["R"; "R"; "R"; "."; "Y"; "Y"; "Y"]].

(** Playing [col] for [player] is legal and wins at once. *)
Definition winning_move (b : Board) (player : string) (col : Z) : Prop :=
  ∃ moves b', get_valid_moves b = Ok moves ∧ col ∈ moves
    ∧ make_move b col player = Ok b' ∧ check_winner b' player = Ok true.

(** [col] is the smallest column with property [P]. *)
Definition least (P : Z → Prop) (col : Z) : Prop :=
  P col ∧ ∀ col', P col' → col ≤ col'.

(** The test of the loops of [find_immediate_win_or_block] on a grid. *)
Definition wins_after (b : Board) (player : string) (col : Z) : bool :=
  match landing_row b col with
  | Some r => wins_b (set_cell b r col player) player
  | None => wins_b b player
  end.

(** Every parent was created before its children. *)
Definition wf_tree (t : tree) : Prop :=
  ∀ n nd p, t !! n = Some nd → parent nd = Some p → (p < n)%nat.

(** [m] is [n] or an ancestor of [n]: it is on the way from [n] to the
    root. *)
Inductive on_path (t : tree) : nat → nat → Prop :=
| on_path_self n : on_path t n n
| on_path_parent n nd p m :
    t !! n = Some nd → parent nd = Some p → on_path t p m → on_path t n m.

(** Two states of a node that differ in the counters only. *)
Definition same_node (nd' nd : MCTSNode) : Prop :=
  board nd' = board nd ∧ current_player nd' = current_player nd
  ∧ parent nd' = parent nd ∧ children nd' = children nd
  ∧ untried_moves nd' = untried_moves nd.

(** What one pass of the loop of [backpropagate] does to a node. *)
Definition bump (winner : option string) (nd : MCTSNode) : MCTSNode :=
  let nd := set_visits nd (visits nd + 1) in
  match winner with
  | Some w =>
      if String.eqb w (get_next_player (current_player nd))
      then set_wins nd (wins nd + 1) else nd
  | None => nd
  end.

(** A tree of three nodes: a root, its child and its grandchild. *)
Definition chain_tree : tree :=
  [ Node empty_board "R" None [1%nat] 0 0 [];
    Node empty_board "Y" (Some 0%nat) [2%nat] 0 0 [];
    Node empty_board "R" (Some 1%nat) [] 0 0 [] ].

(** What [backpropagate] from [n] does to each node of the tree. *)
Definition backpropagated (t t' : tree) (n : nat) (winner : option string)
  : Prop :=
  length t' = length t
  ∧ ∀ m nd, t !! m = Some nd →
      ∃ nd', t' !! m = Some nd' ∧ same_node nd' nd
        ∧ (on_path t n m →
           visits nd' = visits nd + 1
           ∧ (winner = Some (get_next_player (current_player nd)) →
              wins nd' = wins nd + 1)
           ∧ (winner ≠ Some (get_next_player (current_player nd)) →
              wins nd' = wins nd))
        ∧ (¬ on_path t n m → nd' = nd).

(** The probability of a random move at each difficulty, as the
    specification gives it. *)
Definition threshold (difficulty : Z) : option Q :=
  match difficulty with
  | 1 => Some (20 # 100)
  | 2 => Some (15 # 100)
  | 3 => Some (10 # 100)
  | 4 => Some (5 # 100)
  | _ => None
  end.

(** The difficulty has a threshold and [r] is below it. *)
Definition below_threshold (difficulty : Z) (r : Q) : Prop :=
  match threshold difficulty with
  | Some q => (r < q)%Q
  | None => False
  end.

(** The value of [random.random()] in a world, and the world after it. *)
Definition drawn (w : world) : Q :=
  Qmake (draws w (draw_pos w) `mod` 2 ^ 53) (2 ^ 53).

Definition after_draw (w : world) : world :=
  World (draws w) (S (draw_pos w)) (ticks w) (tick_pos w).

(** Holds of every tree that the loop of [mcts] builds: node 0 is the
    root of the search, its untried moves are legal, and each of its
    children holds the board of a legal move of the root player. *)
Definition root_inv (root_board : Board) (player : string) (moves : list Z)
  (t : tree) : Prop :=
  ∃ root,
    t !! 0%nat = Some root
    ∧ board root = root_board ∧ current_player root = player
    ∧ Forall (fun m => m ∈ moves) (untried_moves root)
    ∧ Forall (fun c => ∃ cn m, t !! c = Some cn ∧ m ∈ moves
                ∧ make_move root_board m player = Ok (board cn))
        (children root).

(** [best] is the first of the nodes [cs] with the greatest [visits]. *)
Definition first_most_visited (t : tree) (cs : list nat) (best : nat)
  : Prop :=
  ∃ i bn,
    cs !! i = Some best ∧ t !! best = Some bn
    ∧ ∀ j c cn, cs !! j = Some c → t !! c = Some cn →
        visits cn ≤ visits bn ∧ ((j < i)%nat → visits cn < visits bn).

(** The test of the last loop of [mcts]. *)
Definition leads_to (root_board : Board) (player : string) (target : Board)
  (col : Z) : bool :=
  match make_move root_board col player with
  | Ok candidate_board => bool_decide (candidate_board = target)
  | _ => false
  end.

(** The shape of the trees that [mcts] builds: parents come before their
    children, the children of a node exist and come after it, boards are
    grids, the players are "R" and "Y", and the untried moves are
    legal. *)
Definition tree_ok (t : tree) : Prop :=
  ∀ n nd, t !! n = Some nd →
    (∀ p, parent nd = Some p → (p < n)%nat)
    ∧ Forall (fun c => (n < c < length t)%nat) (children nd)
    ∧ wf_board (board nd) ∧ is_player (current_player nd)
    ∧ Forall (fun m => 0 ≤ m < COLS ∧ cell (board nd) 0 m = ".")
        (untried_moves nd).

(** The call decided: it did not stop for lack of fuel. *)
Definition decides {A} (m : result A) : Prop := m ≠ OutOfFuel.

(** The clock reads [time_limit] or more past [start_time] at one of the
    next [fuel] readings. *)
Definition time_is_up (fuel : nat) (start_time time_limit : Q) (w : world)
  : Prop :=
  ∃ k, (k < fuel)%nat
    ∧ Qltb (ticks w (tick_pos w + k)%nat - start_time) time_limit = false.

(** The program reads no time. *)
Definition keeps_clock {A} (m : prog A) : Prop :=
  ∀ w a w', m w = Ok (a, w') → ticks w' = ticks w ∧ tick_pos w' = tick_pos w.

(** A grid of a game in progress, with an empty cell in every column. *)
Definition midgame_board : Board :=
  [ ["."; "."; "."; "."; "."; "."; "."];
    ["."; "."; "."; "."; "."; "."; "."];
    ["."; "."; "."; "."; "."; "."; "."];
    ["."; "."; "."; "Y"; "."; "."; "."];
    ["."; "."; "R"; "R"; "."; "."; "."];
    ["."; "Y"; "R"; "Y"; "R"; "."; "."] ].

(** The untried moves and the children of a node share out the legal
    columns of its board: the untried moves are the first of them, in
    ascending order, and the [j]-th child holds the board after the
    [j]-th legal column from the right, with the other player to move
    and the node as its parent. *)
Definition node_shape (t : tree) (n : nat) (nd : MCTSNode) : Prop :=
  ∃ moves,
    get_valid_moves (board nd) = Ok moves
    ∧ (length (children nd) ≤ length moves)%nat
    ∧ untried_moves nd = take (length moves - length (children nd)) moves
    ∧ ∀ j c, children nd !! j = Some c →
        ∃ cn m,
          t !! c = Some cn
          ∧ moves !! (length moves - 1 - j)%nat = Some m
          ∧ make_move (board nd) m (current_player nd) = Ok (board cn)
          ∧ parent cn = Some n
          ∧ current_player cn = get_next_player (current_player nd).

Definition tree_shape (t : tree) : Prop :=
  ∀ n nd, t !! n = Some nd → node_shape t n nd.

(** The counters of every node: wins are between 0 and the visits, and a
    node is visited no more often than its parent. *)
Definition counters_ok (t : tree) : Prop :=
  ∀ n nd, t !! n = Some nd →
    0 ≤ wins nd ≤ visits nd
    ∧ ∀ p pn, parent nd = Some p → t !! p = Some pn →
        visits nd ≤ visits pn.

(** What the search relies on from floating point: the UCT expression
    has a value when the node and its parent were visited, and that
    value, like [inf], is greater than [-inf]. *)
Definition float_laws `{FloatOps} : Prop :=
  (∀ w v pv, 1 ≤ v → 1 ≤ pv → is_Some (uct_expr w v pv))
  ∧ float_gt float_inf float_neg_inf = true
  ∧ ∀ w v pv x, uct_expr w v pv = Some x → float_gt x float_neg_inf = true.


(** Node 0 is the only node without a parent. *)
Definition rooted (t : tree) : Prop :=
  ∀ n nd, t !! n = Some nd → n ≠ 0%nat → parent nd ≠ None.

(** What holds of the tree of a search after each pass. *)
Definition search_inv (t : tree) : Prop :=
  tree_ok t ∧ tree_shape t ∧ counters_ok t ∧ rooted t.

(** ** The console game

    [main.py] holds a copy of the functions of [mcts.py].  Two of the
    copies differ in what they compute: [backpropagate] has no test
    [winner is not None], and [mcts] calls [max] on the children of the
    root without a guard.  The loop of [mcts] is the same but for the
    spelling of the test of the selection loop,
    [node.untried_moves == [] and node.children != []], and the other
    functions are the same text. *)
Module Main.

(** [winner == s] where [winner] is [None] or a string. *)
Definition winner_eq (winner : option string) (s : string) : bool :=
  match winner with
  | Some w => String.eqb w s
  | None => false
  end.

Fixpoint backpropagate (fuel : nat) (t : tree) (node : option nat)
  (winner : option string) : result tree :=
  match node with
  | None => Ok t
  | Some n =>
      match fuel with
      | O => OutOfFuel
      | S fuel' =>
          nd ← get_node t n;
          let nd := set_visits nd (visits nd + 1) in
          let nd :=
            if winner_eq winner (get_next_player (current_player nd))
            then set_wins nd (wins nd + 1) else nd in
          backpropagate fuel' (<[n := nd]> t) (parent nd) winner
      end
  end.

(** [max(children, key=lambda c: c.visits)]: [ValueError] on an empty
    list, otherwise the first greatest one. *)
Definition max_by_visits (t : tree) (cs : list nat) : result nat :=
  match cs with
  | [] => Raise ValueError
  | c :: cs' =>
      v ← get_node t c;
      r ← for_each cs'
            (fun c '(best, best_key) =>
               nd ← get_node t c;
               if best_key <? visits nd then Ok (c, visits nd)
               else Ok (best, best_key))
            (c, visits v);
      Ok (fst r)
  end.

Section Search.

Context `{FloatOps}.

Definition mcts_iteration (t : tree) : prog tree :=
  (* 1. Selection *)
  node ← lift (select_node (length t) t (Some 0%nat));
  (* 2. Expansion *)
  nd ← lift (get_node t node);
  '(node, t) ← match untried_moves nd with
               | _ :: _ => lift (expand_node t node)
               | [] => mret (node, t)
               end;
  (* 3. Simulation *)
  nd ← lift (get_node t node);
  winner ← simulate_game rollout_fuel (board nd) (current_player nd);
  (* 4. Backpropagation *)
  lift (backpropagate (length t) t (Some node) winner).

Fixpoint mcts_loop (fuel : nat) (start_time time_limit : Q) (t : tree)
  : prog tree :=
  match fuel with
  | O => fun _ => OutOfFuel
  | S fuel' =>
      now ← time_time;
      if Qltb (now - start_time) time_limit then
        t ← mcts_iteration t; mcts_loop fuel' start_time time_limit t
      else mret t
  end.

Definition mcts_finish (t : tree) (root_board : Board)
  (current_player : string) : prog Z :=
  root_node ← lift (get_node t 0%nat);
  best_move ← lift (max_by_visits t (children root_node));
  bn ← lift (get_node t best_move);
  moves ← lift (get_valid_moves root_board);
  found ← lift (for_find moves (fun col =>
             candidate_board ← make_move root_board col current_player;
             Ok (bool_decide (candidate_board = board bn))));
  match found with
  | Some col => mret col
  | None =>
      moves ← lift (get_valid_moves root_board); random_choice moves
  end.

Definition mcts_tree (fuel : nat) (root_board : Board)
  (current_player : string) (time_limit : Q) : prog tree :=
  start_time ← time_time;
  root_node ← lift (new_node root_board current_player None);
  mcts_loop fuel start_time time_limit [root_node].

Definition mcts (fuel : nat) (root_board : Board) (current_player : string)
  (simulations : Z) (time_limit : Q) : prog Z :=
  t ← mcts_tree fuel root_board current_player time_limit;
  mcts_finish t root_board current_player.

End Search.

End Main.

(** ** The first board

    [init_board] of [main_streamlit.py], which is also the first
    statement of [main] in [main.py]:
    [[["." for _ in range(COLS)] for _ in range(ROWS)]].  It is given
    as a value and on objects, where each turn of the outer
    comprehension evaluates the inner one and so makes a new row. *)
Module Streamlit.

Definition init_board : Board :=
  map (fun _ => map (fun _ => ".") (range COLS)) (range ROWS).

Fixpoint init_rows (rows : list Z) (h : list (list string))
  : list nat * list (list string) :=
  match rows with
  | [] => ([], h)
  | _ :: rows' =>
      let a := length h in
      let '(y, h') := init_rows rows' (h ++ [map (fun _ => ".") (range COLS)]) in
      (a :: y, h')
  end.

Definition init_board_objects (h : list (list string))
  : list nat * list (list string) :=
  init_rows (range ROWS) h.

End Streamlit.

(** The visits of the nodes [cs], added up. *)
Definition sum_visits (t : tree) (cs : list nat) : Z :=
  foldr (fun c acc =>
           match t !! c with
           | Some cn => visits cn + acc
           | None => acc
           end) 0 cs.

(** A node with a parent is among the children of that parent. *)
Definition linked (t : tree) : Prop :=
  ∀ c cn p, t !! c = Some cn → parent cn = Some p →
    ∃ pn, t !! p = Some pn ∧ c ∈ children pn.

(** The visits of node [n] are those of its children, and one more, for
    the pass that made it, unless it is the root. *)
Definition visits_add_up (t : tree) (n : nat) (nd : MCTSNode) : Prop :=
  visits nd
  = (if decide (n = 0%nat) then 0 else 1) + sum_visits t (children nd).

(** The visits add up at every node that has or had an untried move,
    but for the node [s], if any, from which the result of a rollout is
    still to be propagated. *)
Definition conserved_but (s : option nat) (t : tree) : Prop :=
  ∀ n nd, t !! n = Some nd → Some n ≠ s →
    untried_moves nd ≠ [] ∨ children nd ≠ [] → visits_add_up t n nd.

Definition conserved (t : tree) : Prop := conserved_but None t.

(** * Properties *)

(** ** The error monad *)

Lemma bind_Ok {A B} (m : result A) (f : A → result B) (b : B) :
  m ≫= f = Ok b ↔ ∃ a, m = Ok a ∧ f a = Ok b.
Proof.
  destruct m as [a| |]; simpl; split.
  - intros Hf. exists a. split; [reflexivity|exact Hf].
  - intros (a' & [= <-] & Hf). exact Hf.
  - discriminate.
  - intros (a' & Ha & _). discriminate.
  - discriminate.
  - intros (a' & Ha & _). discriminate.
Qed.

(** ** Indexing inside the bounds *)

Lemma py_index_nonneg {A} (l : list A) (i : Z) (d : A) :
  0 ≤ i < Z.of_nat (length l) → py_index l i = Ok (nth (Z.to_nat i) l d).
Proof.
  intros Hi. unfold py_index, py_norm.
  destruct (Z.ltb_spec i 0); [lia|].
  destruct (Z.leb_spec 0 i); [|lia].
  destruct (Z.ltb_spec i (Z.of_nat (length l))); [|lia]. simpl.
  destruct (l !! Z.to_nat i) as [x|] eqn:E.
  - f_equal. symmetry. apply nth_lookup_Some with (d := d) in E. exact E.
  - apply lookup_ge_None in E. lia.
Qed.

Lemma py_index_out {A} (l : list A) (i : Z) :
  i < - Z.of_nat (length l) ∨ Z.of_nat (length l) ≤ i →
  py_index l i = Raise IndexError.
Proof.
  intros Hi. unfold py_index, py_norm.
  destruct (Z.ltb_spec i 0).
  - destruct (Z.leb_spec 0 (i + Z.of_nat (length l))); [lia|reflexivity].
  - destruct (Z.leb_spec 0 i); [|lia].
    destruct (Z.ltb_spec i (Z.of_nat (length l))); [lia|reflexivity].
Qed.

Lemma py_index_neg {A} (l : list A) (i : Z) :
  - Z.of_nat (length l) ≤ i < 0 →
  py_index l i = py_index l (i + Z.of_nat (length l)).
Proof.
  intros Hi. unfold py_index, py_norm.
  destruct (Z.ltb_spec i 0); [|lia].
  destruct (Z.ltb_spec (i + Z.of_nat (length l)) 0); [lia|]. reflexivity.
Qed.

Lemma py_setitem_nonneg {A} (l : list A) (i : Z) (x : A) :
  0 ≤ i < Z.of_nat (length l) → py_setitem l i x = Ok (<[Z.to_nat i := x]> l).
Proof.
  intros Hi. unfold py_setitem, py_norm.
  destruct (Z.ltb_spec i 0); [lia|].
  destruct (Z.leb_spec 0 i); [|lia].
  destruct (Z.ltb_spec i (Z.of_nat (length l))); [|lia]. reflexivity.
Qed.

Lemma wf_board_row (b : Board) (r : Z) :
  wf_board b → 0 ≤ r < ROWS → length (nth (Z.to_nat r) b []) = 7%nat.
Proof.
  intros [Hl Hr] Hb. unfold ROWS in Hb.
  rewrite Forall_forall in Hr. apply Hr.
  apply list_elem_of_In, nth_In. lia.
Qed.

Lemma board_get_wf (b : Board) (r c : Z) :
  wf_board b → in_grid r c → board_get b r c = Ok (cell b r c).
Proof.
  intros Hwf [Hr Hc]. unfold board_get.
  rewrite (py_index_nonneg b r []) by (destruct Hwf; unfold ROWS in Hr; lia).
  simpl. unfold cell. apply py_index_nonneg.
  rewrite wf_board_row by assumption. unfold COLS in Hc. lia.
Qed.

Lemma cell_is_wf (b : Board) (r c : Z) (p : string) :
  wf_board b → in_grid r c → cell_is b r c p = Ok (String.eqb (cell b r c) p).
Proof.
  intros Hwf Hg. unfold cell_is. rewrite board_get_wf by assumption.
  reflexivity.
Qed.

(** ** Loops whose body does not raise *)

Lemma for_any_ok {A} (xs : list A) (body : A → result bool) (g : A → bool) :
  (∀ x, x ∈ xs → body x = Ok (g x)) →
  for_any xs body = Ok (existsb g xs).
Proof.
  induction xs as [|x xs IH]; intros Hb; simpl; [reflexivity|].
  rewrite (Hb x) by left. unfold or_return. simpl.
  destruct (g x); [reflexivity|]. simpl. apply IH.
  intros y Hy. apply Hb. right. exact Hy.
Qed.

Lemma for_find_ok {A} (xs : list A) (body : A → result bool) (g : A → bool) :
  (∀ x, x ∈ xs → body x = Ok (g x)) →
  for_find xs body = Ok (find g xs).
Proof.
  induction xs as [|x xs IH]; intros Hb; simpl; [reflexivity|].
  rewrite (Hb x) by left. simpl.
  destruct (g x); [reflexivity|]. apply IH.
  intros y Hy. apply Hb. right. exact Hy.
Qed.

Lemma existsb_range (g : Z → bool) (a n : Z) :
  existsb g (seqZ a n) = true ↔ ∃ x, a ≤ x < a + n ∧ g x = true.
Proof.
  rewrite existsb_exists. split; intros (x & Hx & Hg); exists x; split;
    try assumption.
  - apply list_elem_of_In, elem_of_seqZ in Hx. lia.
  - apply list_elem_of_In, elem_of_seqZ. lia.
Qed.

(** ** Win detection *)

Ltac in_range :=
  repeat match goal with
  | H : _ ∈ range _ |- _ => unfold range in H; apply elem_of_seqZ in H
  | H : _ ∈ range2 _ _ |- _ => unfold range2 in H; apply elem_of_seqZ in H
  end;
  unfold in_grid, ROWS, COLS in *; cbn [drow dcol] in *; try lia.

Lemma four_body (b : Board) (p : string) (d : direction) (r c : Z)
  (r1 c1 r2 c2 r3 c3 : Z) :
  wf_board b →
  in_grid r c → in_grid (r + 3 * drow d) (c + 3 * dcol d) →
  r1 = r + drow d → c1 = c + dcol d →
  r2 = r + 2 * drow d → c2 = c + 2 * dcol d →
  r3 = r + 3 * drow d → c3 = c + 3 * dcol d →
  cell_is b r c p <&&> cell_is b r1 c1 p <&&> cell_is b r2 c2 p
    <&&> cell_is b r3 c3 p
  = Ok (four b p d r c).
Proof.
  intros Hwf H0 H3 -> -> -> -> -> ->.
  assert (in_grid (r + drow d) (c + dcol d)) by (destruct d; in_range).
  assert (in_grid (r + 2 * drow d) (c + 2 * dcol d)) by (destruct d; in_range).
  rewrite !cell_is_wf by assumption.
  unfold four, and_then. simpl.
  rewrite !Z.add_0_r, !andb_true_r.
  replace (r + 1 * drow d) with (r + drow d) by lia.
  replace (c + 1 * dcol d) with (c + dcol d) by lia.
  destruct (String.eqb (cell b r c) p); [|reflexivity].
  destruct (String.eqb (cell b (r + drow d) (c + dcol d)) p); [|reflexivity].
  destruct (String.eqb (cell b (r + 2 * drow d) (c + 2 * dcol d)) p);
    reflexivity.
Qed.

Lemma check_winner_wf (b : Board) (p : string) :
  wf_board b → check_winner b p = Ok (wins_b b p).
Proof.
  intros Hwf. unfold check_winner, wins_b.
  rewrite (for_any_ok _ _
    (fun row => existsb (four b p Horizontal row) (range (COLS - 3)))).
  2:{ intros row Hrow. apply for_any_ok. intros col Hcol.
      apply four_body; simpl; try assumption; try lia; in_range. }
  rewrite (for_any_ok (range COLS) _
    (fun col => existsb (fun row => four b p Vertical row col)
                  (range (ROWS - 3)))).
  2:{ intros col Hcol. apply for_any_ok. intros row Hrow.
      apply four_body; simpl; try assumption; try lia; in_range. }
  rewrite (for_any_ok (range (ROWS - 3)) _
    (fun row => existsb (four b p DiagDown row) (range (COLS - 3)))).
  2:{ intros row Hrow. apply for_any_ok. intros col Hcol.
      apply four_body; simpl; try assumption; try lia; in_range. }
  rewrite (for_any_ok (range2 3 ROWS) _
    (fun row => existsb (four b p DiagUp row) (range (COLS - 3)))).
  2:{ intros row Hrow. apply for_any_ok. intros col Hcol.
      apply four_body; simpl; try assumption; try lia; in_range. }
  unfold or_return.
  repeat match goal with
  | |- context [existsb ?f ?l] => generalize (existsb f l); intro
  end.
  repeat match goal with e : bool |- _ => destruct e end; reflexivity.
Qed.

Lemma four_true (b : Board) (p : string) (d : direction) (r c : Z) :
  four b p d r c = true ↔
  ∀ i, 0 ≤ i < 4 → cell b (r + i * drow d) (c + i * dcol d) = p.
Proof.
  unfold four. rewrite forallb_forall. split.
  - intros Hf i Hi. apply String.eqb_eq, Hf.
    assert (i = 0 ∨ i = 1 ∨ i = 2 ∨ i = 3) as Hc by lia.
    simpl. intuition.
  - intros Hc i Hi. apply String.eqb_eq, Hc. simpl in Hi. intuition lia.
Qed.

Lemma line_at_four (b : Board) (p : string) (d : direction) (r c : Z) :
  line_at b p d r c ↔
  in_grid r c ∧ in_grid (r + 3 * drow d) (c + 3 * dcol d)
  ∧ four b p d r c = true.
Proof.
  rewrite four_true. unfold line_at. split.
  - intros Hl. split; [|split].
    + destruct (Hl 0) as [Hg _]; [lia|]. rewrite !Z.mul_0_l, !Z.add_0_r in Hg.
      exact Hg.
    + destruct (Hl 3) as [Hg _]; [lia|]. exact Hg.
    + intros i Hi. apply Hl. exact Hi.
  - intros (H0 & H3 & Hc) i Hi. split; [|apply Hc; exact Hi].
    destruct d; in_range.
Qed.

Lemma wins_b_spec (b : Board) (p : string) :
  wins_b b p = true ↔ four_in_line b p.
Proof.
  unfold wins_b, four_in_line. rewrite !orb_true_iff.
  unfold range, range2. rewrite !existsb_range.
  setoid_rewrite existsb_range.
  setoid_rewrite line_at_four. split.
  - intros [[[(r & Hr & c & Hc & Hf)|(c & Hc & r & Hr & Hf)]
            |(r & Hr & c & Hc & Hf)]|(r & Hr & c & Hc & Hf)].
    + exists Horizontal, r, c. split; [in_range|split; [in_range|exact Hf]].
    + exists Vertical, r, c. split; [in_range|split; [in_range|exact Hf]].
    + exists DiagDown, r, c. split; [in_range|split; [in_range|exact Hf]].
    + exists DiagUp, r, c. split; [in_range|split; [in_range|exact Hf]].
  - intros (d & r & c & H0 & H3 & Hf). destruct d.
    + left; left; left. exists r. split; [in_range|].
      exists c. split; [in_range|exact Hf].
    + left; left; right. exists c. split; [in_range|].
      exists r. split; [in_range|exact Hf].
    + left; right. exists r. split; [in_range|].
      exists c. split; [in_range|exact Hf].
    + right. exists r. split; [in_range|].
      exists c. split; [in_range|exact Hf].
Qed.

(** C1: on every board and for every player, [check_winner] returns a
    boolean, and it is [True] exactly when the player holds four cells in
    a line: in a row, in a column, or along one of the two diagonals. *)
Theorem check_winner_iff_four_in_line (b : Board) (p : string) :
  wf_board b →
  ∃ v, check_winner b p = Ok v ∧ (v = true ↔ four_in_line b p).
Proof.
  intros Hwf. exists (wins_b b p). split.
  - apply check_winner_wf. exact Hwf.
  - apply wins_b_spec.
Qed.

(** ** Legal moves *)

Lemma for_each_filter {A} (P : A → Prop) `{∀ x, Decision (P x)}
  (xs : list A) (body : A → list A → result (list A)) (acc : list A) :
  (∀ x acc, x ∈ xs →
     body x acc = Ok (if decide (P x) then acc ++ [x] else acc)) →
  for_each xs body acc = Ok (acc ++ filter P xs).
Proof.
  revert acc. induction xs as [|x xs IH]; intros acc Hb; simpl.
  - rewrite app_nil_r. reflexivity.
  - rewrite (Hb x acc) by left. simpl. rewrite filter_cons.
    rewrite IH by (intros; apply Hb; right; assumption).
    destruct (decide (P x)); [rewrite <- app_assoc|]; reflexivity.
Qed.

Lemma get_valid_moves_wf (b : Board) :
  wf_board b →
  get_valid_moves b = Ok (filter (fun c => cell b 0 c = ".") (range COLS)).
Proof.
  intros Hwf. unfold get_valid_moves.
  rewrite (for_each_filter (fun c => cell b 0 c = ".")); [reflexivity|].
  intros c acc Hc. rewrite cell_is_wf by (try assumption; in_range).
  simpl. destruct (String.eqb_spec (cell b 0 c) ".");
    destruct (decide (cell b 0 c = ".")); congruence.
Qed.

Lemma filter_sorted {A} (R : A → A → Prop) (P : A → Prop)
  `{∀ x, Decision (P x)} (l : list A) :
  StronglySorted R l → StronglySorted R (filter P l).
Proof.
  induction 1 as [|x l Hs IH Hx]; [constructor|].
  rewrite filter_cons. destruct (decide (P x)); [|exact IH].
  constructor; [exact IH|].
  rewrite Forall_forall in *. intros y Hy.
  apply list_elem_of_filter in Hy. apply Hx, Hy.
Qed.

Lemma elem_of_valid_moves (b : Board) (c : Z) :
  c ∈ filter (fun c => cell b 0 c = ".") (range COLS)
  ↔ 0 ≤ c < COLS ∧ cell b 0 c = ".".
Proof.
  rewrite list_elem_of_filter. unfold range. rewrite elem_of_seqZ.
  unfold COLS. intuition lia.
Qed.

(** ** Cells of a grid *)

Lemma wf_board_set_cell (b : Board) (r c : Z) (p : string) :
  wf_board b → wf_board (set_cell b r c p).
Proof.
  intros [Hl Hr]. unfold set_cell.
  destruct (decide (Z.to_nat r < length b)%nat) as [Hlt|Hge].
  - split; [rewrite length_insert; exact Hl|].
    apply Forall_insert; [exact Hr|]. cbv beta. rewrite length_insert.
    rewrite Forall_forall in Hr. apply Hr, list_elem_of_In, nth_In, Hlt.
  - rewrite list_insert_ge by lia. split; assumption.
Qed.

Lemma cell_set_cell (b : Board) (r c r' c' : Z) (p : string) :
  wf_board b → in_grid r c → in_grid r' c' →
  cell (set_cell b r c p) r' c'
  = if decide (r' = r ∧ c' = c) then p else cell b r' c'.
Proof.
  intros Hwf [Hr Hc] [Hr' Hc']. unfold cell, set_cell.
  assert (length b = 6%nat) as Hl by apply Hwf.
  pose proof (wf_board_row b r Hwf Hr) as Hlr.
  unfold ROWS, COLS in *.
  destruct (decide (r' = r)) as [->|Hne].
  - rewrite (nth_lookup _ (Z.to_nat r)), list_lookup_insert_eq by lia. simpl.
    destruct (decide (c' = c)) as [->|Hnc].
    + rewrite decide_True by auto.
      rewrite nth_lookup, list_lookup_insert_eq by lia. reflexivity.
    + rewrite decide_False by tauto.
      rewrite nth_lookup, list_lookup_insert_ne by lia.
      rewrite <- nth_lookup. reflexivity.
  - rewrite decide_False by tauto.
    rewrite (nth_lookup _ (Z.to_nat r')), list_lookup_insert_ne by lia.
    rewrite <- nth_lookup. reflexivity.
Qed.

(** ** Applying a move *)

Lemma make_move_loop_wf (b : Board) (col : Z) (p : string) (rows : list Z) :
  wf_board b → 0 ≤ col < COLS → Forall (fun r => 0 ≤ r < ROWS) rows →
  make_move_loop rows b col p
  = Ok (match find (fun r => String.eqb (cell b r col) ".") rows with
        | Some r => set_cell b r col p
        | None => b
        end).
Proof.
  intros Hwf Hc. induction 1 as [|row rows Hrow Hrows IH]; [reflexivity|].
  simpl. rewrite cell_is_wf by (try assumption; split; assumption). simpl.
  destruct (String.eqb (cell b row col) "."); [|exact IH].
  rewrite (py_index_nonneg b row [])
    by (destruct Hwf; unfold ROWS in Hrow; lia).
  simpl. rewrite py_setitem_nonneg
    by (rewrite wf_board_row by assumption; unfold COLS in Hc; lia).
  simpl. rewrite py_setitem_nonneg
    by (destruct Hwf; unfold ROWS in Hrow; lia).
  reflexivity.
Qed.

Lemma rows_bottom_up : reverse (range ROWS) = [5; 4; 3; 2; 1; 0].
Proof. reflexivity. Qed.

Lemma make_move_wf (b : Board) (col : Z) (p : string) :
  wf_board b → 0 ≤ col < COLS →
  make_move b col p
  = Ok (match landing_row b col with
        | Some r => set_cell b r col p
        | None => b
        end).
Proof.
  intros Hwf Hc. unfold make_move, landing_row.
  apply make_move_loop_wf; try assumption.
  rewrite rows_bottom_up. unfold ROWS. repeat constructor; lia.
Qed.

Lemma landing_row_Some (b : Board) (c r : Z) :
  landing_row b c = Some r ↔ lowest_empty b c r.
Proof.
  unfold landing_row, lowest_empty. rewrite rows_bottom_up. unfold ROWS.
  simpl. split.
  - intros Hf.
    repeat match type of Hf with
    | (if String.eqb ?x ?y then _ else _) = _ =>
        destruct (String.eqb_spec x y)
    end; try discriminate; injection Hf as <-;
    (split; [lia|split; [assumption|]]); intros r' Hr';
    assert (r' = 1 ∨ r' = 2 ∨ r' = 3 ∨ r' = 4 ∨ r' = 5) as Hcase by lia;
    intuition (subst; try lia; auto).
  - intros (Hr & He & Hlow).
    assert (∀ k, r < k < 6 → String.eqb (cell b k c) "." = false) as Hf
      by (intros k Hk; apply String.eqb_neq, Hlow, Hk).
    apply String.eqb_eq in He.
    assert (r = 0 ∨ r = 1 ∨ r = 2 ∨ r = 3 ∨ r = 4 ∨ r = 5) as Hcase by lia.
    destruct Hcase as [->|[->|[->|[->|[->| ->]]]]];
      try rewrite (Hf 5) by lia; try rewrite (Hf 4) by lia;
      try rewrite (Hf 3) by lia; try rewrite (Hf 2) by lia;
      try rewrite (Hf 1) by lia; rewrite He; reflexivity.
Qed.

Lemma landing_row_None (b : Board) (c : Z) :
  landing_row b c = None ↔ column_full b c.
Proof.
  unfold landing_row, column_full. rewrite rows_bottom_up. unfold ROWS.
  simpl. split.
  - intros Hf r Hr.
    repeat match type of Hf with
    | (if String.eqb ?x ?y then _ else _) = _ =>
        destruct (String.eqb_spec x y)
    end; try discriminate.
    assert (r = 0 ∨ r = 1 ∨ r = 2 ∨ r = 3 ∨ r = 4 ∨ r = 5) as Hcase by lia.
    intuition (subst; auto).
  - intros Hfull.
    repeat match goal with
    | |- (if String.eqb ?x ?y then _ else _) = _ =>
        destruct (String.eqb_spec x y)
    end; try reflexivity; exfalso;
    match goal with
    | Heq : cell b ?k c = "." |- _ => apply (Hfull k); [lia|exact Heq]
    end.
Qed.

Lemma py_setitem_neg {A} (l : list A) (i : Z) (x : A) :
  - Z.of_nat (length l) ≤ i < 0 →
  py_setitem l i x = py_setitem l (i + Z.of_nat (length l)) x.
Proof.
  intros Hi. unfold py_setitem, py_norm.
  destruct (Z.ltb_spec i 0); [|lia].
  destruct (Z.ltb_spec (i + Z.of_nat (length l)) 0); [lia|]. reflexivity.
Qed.

Lemma py_setitem_out {A} (l : list A) (i : Z) (x : A) :
  i < - Z.of_nat (length l) ∨ Z.of_nat (length l) ≤ i →
  py_setitem l i x = Raise IndexError.
Proof.
  intros Hi. unfold py_setitem, py_norm.
  destruct (Z.ltb_spec i 0).
  - destruct (Z.leb_spec 0 (i + Z.of_nat (length l))); [lia|reflexivity].
  - destruct (Z.leb_spec 0 i); [|lia].
    destruct (Z.ltb_spec i (Z.of_nat (length l))); [lia|reflexivity].
Qed.

Lemma make_move_out_of_range (b : Board) (col : Z) (p : string) :
  wf_board b → col < - COLS ∨ COLS ≤ col →
  make_move b col p = Raise IndexError.
Proof.
  intros Hwf Hc. unfold make_move. rewrite rows_bottom_up.
  cbn [make_move_loop].
  assert (cell_is b 5 col "." = Raise IndexError) as ->; [|reflexivity].
  unfold cell_is, board_get.
  rewrite (py_index_nonneg b 5 []) by (destruct Hwf; lia).
  cbn [mbind result_bind].
  rewrite py_index_out; [reflexivity|].
  rewrite wf_board_row by (try assumption; unfold ROWS; lia).
  unfold COLS in Hc. lia.
Qed.

Lemma make_move_loop_negative (b : Board) (col : Z) (p : string)
  (rows : list Z) :
  wf_board b → - COLS ≤ col < 0 → Forall (fun r => 0 ≤ r < ROWS) rows →
  make_move_loop rows b col p = make_move_loop rows b (col + COLS) p.
Proof.
  intros Hwf Hc. induction 1 as [|row rows Hrow Hrows IH]; [reflexivity|].
  simpl. unfold cell_is, board_get.
  rewrite (py_index_nonneg b row [])
    by (destruct Hwf; unfold ROWS in Hrow; lia).
  simpl. pose proof (wf_board_row b row Hwf Hrow) as Hlen.
  unfold COLS in *.
  rewrite (py_index_neg _ col) by lia.
  rewrite (py_setitem_neg _ col) by lia.
  rewrite Hlen, IH. reflexivity.
Qed.

Lemma make_move_negative (b : Board) (col : Z) (p : string) :
  wf_board b → - COLS ≤ col < 0 →
  make_move b col p = make_move b (col + COLS) p.
Proof.
  intros Hwf Hc. unfold make_move.
  apply make_move_loop_negative; try assumption.
  rewrite rows_bottom_up. unfold ROWS. repeat constructor; lia.
Qed.

Lemma wf_board_make_move (b b' : Board) (col : Z) (p : string) :
  wf_board b → 0 ≤ col < COLS → make_move b col p = Ok b' → wf_board b'.
Proof.
  intros Hwf Hc. rewrite make_move_wf by assumption.
  intros [= <-]. destruct (landing_row b col); [|exact Hwf].
  apply wf_board_set_cell, Hwf.
Qed.

Lemma wf_full_column_board : wf_board full_column_board.
Proof. split; [reflexivity|repeat constructor]. Qed.

(** C2, refuted: [make_move] on a full column raises nothing and returns
    the board as it was, and column [-1] is taken as the last column. *)
Lemma make_move_full_or_negative_succeeds :
  wf_board full_column_board
  ∧ Forall (fun r => cell full_column_board r 0 ≠ ".") (range ROWS)
  ∧ make_move full_column_board 0 "R" = Ok full_column_board
  ∧ ¬ (0 ≤ -1 < COLS)
  ∧ make_move empty_board (-1) "R" = make_move empty_board 6 "R"
  ∧ is_ok (make_move empty_board (-1) "R") = true.
Proof.
  split; [exact wf_full_column_board|].
  split.
  { repeat constructor; discriminate. }
  split; [reflexivity|]. split; [lia|]. split; reflexivity.
Qed.

(** C2, amended: on a grid [make_move] raises, and then [IndexError],
    exactly when the column is below [-7] or above [6]; for every other
    column, full or not, it returns a grid. *)
Theorem make_move_raises_iff_outside (b : Board) (col : Z) (p : string) :
  wf_board b →
  (col < - COLS ∨ COLS ≤ col → make_move b col p = Raise IndexError)
  ∧ (- COLS ≤ col < COLS → ∃ b', make_move b col p = Ok b' ∧ wf_board b')
  ∧ (raises (make_move b col p) ↔ col < - COLS ∨ COLS ≤ col).
Proof.
  intros Hwf.
  assert (- COLS ≤ col < COLS → ∃ b', make_move b col p = Ok b' ∧ wf_board b')
    as Hin.
  { intros Hc. destruct (decide (col < 0)) as [Hneg|Hpos].
    - rewrite make_move_negative by (try assumption; lia).
      assert (0 ≤ col + COLS < COLS) as Hc' by lia.
      rewrite make_move_wf by assumption. eexists. split; [reflexivity|].
      destruct (landing_row b (col + COLS)); [|exact Hwf].
      apply wf_board_set_cell, Hwf.
    - assert (0 ≤ col < COLS) as Hc' by lia.
      rewrite make_move_wf by assumption. eexists. split; [reflexivity|].
      destruct (landing_row b col); [|exact Hwf].
      apply wf_board_set_cell, Hwf. }
  split; [apply make_move_out_of_range; exact Hwf|].
  split; [exact Hin|]. split.
  - intros [e He]. destruct (decide (- COLS ≤ col < COLS)) as [Hc|Hc]; [|lia].
    destruct (Hin Hc) as (b' & Hb' & _). congruence.
  - intros Hc. exists IndexError. apply make_move_out_of_range; assumption.
Qed.

Lemma make_move_raises_iff_outside_witness :
  make_move empty_board 7 "R" = Raise IndexError
  ∧ (∃ b', make_move empty_board (-7) "R" = Ok b' ∧ wf_board b').
Proof.
  assert (wf_board empty_board) as Hwf
    by (split; [reflexivity|repeat constructor]).
  destruct (make_move_raises_iff_outside empty_board 7 "R" Hwf) as (Hout & _).
  destruct (make_move_raises_iff_outside empty_board (-7) "R" Hwf)
    as (_ & Hin & _).
  split; [apply Hout; unfold COLS; lia|apply Hin; unfold COLS; lia].
Defined.

(** ** Gravity *)

Lemma gravity_top_full (b : Board) (c : Z) :
  gravity b → 0 ≤ c < COLS → cell b 0 c ≠ "." → column_full b c.
Proof.
  intros Hg Hc Htop r Hr. destruct (decide (r = 0)) as [->|Hne]; [exact Htop|].
  apply (Hg 0 r c); unfold in_grid, ROWS in *; try lia. exact Htop.
Qed.

Lemma make_move_column_full (b : Board) (c : Z) (p : string) :
  wf_board b → 0 ≤ c < COLS → column_full b c → make_move b c p = Ok b.
Proof.
  intros Hwf Hc Hfull. rewrite make_move_wf by assumption.
  apply landing_row_None in Hfull. rewrite Hfull. reflexivity.
Qed.

(** C10: on a board whose column [c], between 0 and 6, has a piece in its
    top cell, and so is full, [make_move] raises nothing and returns a
    board equal to its argument. *)
Theorem make_move_full_column_unchanged (b : Board) (c : Z) (p : string) :
  wf_board b → gravity b → 0 ≤ c < COLS → cell b 0 c ≠ "." →
  column_full b c ∧ make_move b c p = Ok b.
Proof.
  intros Hwf Hg Hc Htop.
  assert (column_full b c) as Hfull by (apply gravity_top_full; assumption).
  split; [exact Hfull|]. apply make_move_column_full; assumption.
Qed.

Lemma gravity_set_cell (b : Board) (r c : Z) (p : string) :
  wf_board b → gravity b → 0 ≤ c < COLS → lowest_empty b c r →
  gravity (set_cell b r c p).
Proof.
  intros Hwf Hg Hc (Hr & He & Hlow) r1 r2 c1 H1 H2 Hlt.
  assert (in_grid r c) as Hrc by (split; assumption).
  rewrite !cell_set_cell by assumption.
  destruct (decide (c1 = c)) as [->|Hnc].
  - destruct (decide (r1 = r)) as [->|Hn1];
      destruct (decide (r2 = r)) as [->|Hn2]; try lia.
    + rewrite decide_True, decide_False by tauto.
      intros _. apply Hlow. unfold in_grid in H2. lia.
    + rewrite decide_False, decide_True by tauto.
      intros Hne. exfalso. apply (Hg r1 r c); assumption.
    + rewrite !decide_False by tauto. apply Hg; assumption.
  - rewrite !decide_False by tauto. apply Hg; assumption.
Qed.

Lemma cell_empty_board (r c : Z) : in_grid r c → cell empty_board r c = ".".
Proof.
  intros [Hr Hc]. unfold ROWS, COLS in *. unfold cell, empty_board.
  rewrite (nth_lookup _ (Z.to_nat r)), lookup_replicate_2 by lia.
  cbn [default from_option id].
  rewrite nth_lookup, lookup_replicate_2 by lia. reflexivity.
Qed.

Lemma wf_empty_board : wf_board empty_board.
Proof. split; [reflexivity|repeat constructor]. Qed.

Lemma gravity_empty_board : gravity empty_board.
Proof.
  intros r r' c H1 H2 _ Hne. rewrite cell_empty_board in Hne by assumption.
  congruence.
Qed.

Lemma top_empty_lands (b : Board) (c : Z) :
  cell b 0 c = "." → ∃ r, landing_row b c = Some r.
Proof.
  intros Htop. destruct (landing_row b c) as [r|] eqn:E; [eauto|].
  apply landing_row_None in E. exfalso. apply (E 0); [unfold ROWS; lia|].
  exact Htop.
Qed.

Lemma make_move_valid (b : Board) (c : Z) (p : string) :
  wf_board b → 0 ≤ c < COLS → cell b 0 c = "." →
  ∃ r, lowest_empty b c r ∧ make_move b c p = Ok (set_cell b r c p).
Proof.
  intros Hwf Hc Htop. destruct (top_empty_lands b c Htop) as [r Hr].
  exists r. split; [apply landing_row_Some, Hr|].
  rewrite make_move_wf, Hr by assumption. reflexivity.
Qed.

Lemma reachable_wf_gravity (b : Board) :
  reachable b → wf_board b ∧ gravity b.
Proof.
  induction 1 as [|b col p b' moves Hreach [Hwf Hg] Hmoves Hcol Hp Hmove].
  - split; [exact wf_empty_board|exact gravity_empty_board].
  - rewrite get_valid_moves_wf in Hmoves by assumption.
    injection Hmoves as <-. apply elem_of_valid_moves in Hcol as [Hc Htop].
    destruct (make_move_valid b col p Hwf Hc Htop) as (r & Hlow & Hmv).
    rewrite Hmv in Hmove. injection Hmove as <-. split.
    + apply wf_board_set_cell, Hwf.
    + apply gravity_set_cell; assumption.
Qed.

(** ** The copy made by [make_move] *)

Lemma denote_Forall2 (h : list (list string)) (ref : list nat) (b : Board) :
  Heap.denote h ref = Some b ↔ Forall2 (fun a r => h !! a = Some r) ref b.
Proof. unfold Heap.denote. apply mapM_Some. Qed.

(** A copy only allocates: the objects of the heap stay as they are, and
    the references it returns are those of [memo] or new ones. *)
Lemma deepcopy_rows_frame (n0 : nat) (rows : list nat) :
  ∀ (h : list (list string)) memo y h',
    Heap.deepcopy_rows h memo rows = Ok (y, h') →
    (n0 ≤ length h)%nat →
    (∀ k v, Heap.memo_get memo k = Some v → (n0 ≤ v < length h)%nat) →
    (∃ k, h' = h ++ k) ∧ Forall (fun a => (n0 ≤ a < length h')%nat) y.
Proof.
  induction rows as [|a rows IH]; intros h memo y h' Hcopy Hn Hmemo.
  - injection Hcopy as <- <-. split; [exists []; rewrite app_nil_r|];
      constructor.
  - cbn [Heap.deepcopy_rows] in Hcopy.
    destruct (Heap.memo_get memo a) as [a'|] eqn:Ea.
    + apply bind_Ok in Hcopy. destruct Hcopy as ([y1 h1] & E1 & Hcopy).
      injection Hcopy as <- <-.
      destruct (IH _ _ _ _ E1 Hn Hmemo) as [[k ->] Hy]. split; [eauto|].
      constructor; [|exact Hy].
      apply Hmemo in Ea. rewrite length_app. lia.
    + apply bind_Ok in Hcopy. destruct Hcopy as (r & _ & Hcopy).
      apply bind_Ok in Hcopy. destruct Hcopy as ([y1 h1] & E1 & Hcopy).
      injection Hcopy as <- <-.
      destruct (IH _ _ _ _ E1) as [[k ->] Hy].
      { rewrite length_app. lia. }
      { intros k v. simpl. rewrite length_app. simpl.
        destruct (Nat.eqb a k); [intros [= <-]; lia|].
        intros Hk. apply Hmemo in Hk. lia. }
      split; [exists (r :: k); rewrite <- app_assoc; reflexivity|].
      constructor; [|exact Hy]. rewrite !length_app. simpl. lia.
Qed.

Lemma heap_loop_frame (rows : list Z) (h h' : list (list string))
  (nb : list nat) (col : Z) (p : string) :
  Heap.make_move_loop rows h nb col p = Ok h' →
  ∀ a, a ∉ nb → h' !! a = h !! a.
Proof.
  induction rows as [|row rows IH]; intros Hloop a Ha.
  - injection Hloop as <-. reflexivity.
  - cbn [Heap.make_move_loop] in Hloop.
    apply bind_Ok in Hloop. destruct Hloop as (a0 & E0 & Hloop).
    apply bind_Ok in Hloop. destruct Hloop as (r & _ & Hloop).
    apply bind_Ok in Hloop. destruct Hloop as (c & _ & Hloop).
    destruct (String.eqb c ".").
    + apply bind_Ok in Hloop. destruct Hloop as (r' & _ & Hloop).
      injection Hloop as <-. apply list_lookup_insert_ne. intros ->.
      apply Ha. unfold py_index in E0.
      destruct (_ && _); try discriminate.
      destruct (nb !! _) eqn:El; try discriminate. injection E0 as ->.
      eapply list_elem_of_lookup_2, El.
    + apply IH; assumption.
Qed.

(** [make_move] changes no object that existed before the call. *)
Lemma heap_make_move_frame (h h' : list (list string)) (ref ref' : list nat)
  (col : Z) (p : string) :
  Heap.make_move h ref col p = Ok (ref', h') →
  (∀ a r, h !! a = Some r → h' !! a = Some r)
  ∧ Forall (fun a => (length h ≤ a)%nat) ref'.
Proof.
  unfold Heap.make_move, Heap.deepcopy. intros Hmv.
  apply bind_Ok in Hmv. destruct Hmv as ([nb h1] & Ecopy & Hmv).
  apply bind_Ok in Hmv. destruct Hmv as (h2 & Eloop & Hmv).
  injection Hmv as <- <-.
  destruct (deepcopy_rows_frame (length h) _ _ _ _ _ Ecopy) as [[k ->] Hy];
    [lia|discriminate|].
  split.
  - intros a r Ha. rewrite (heap_loop_frame _ _ _ _ _ _ Eloop).
    + apply lookup_app_l_Some, Ha.
    + intros Hin. rewrite Forall_forall in Hy. apply Hy in Hin.
      apply lookup_lt_Some in Ha. lia.
  - eapply Forall_impl; [exact Hy|]. simpl. intros; lia.
Qed.

(** The copy of a board whose rows are distinct objects: one new object
    per row, in order. *)
Lemma deepcopy_rows_fresh (rows : list nat) (b : Board) :
  ∀ (h : list (list string)) memo,
    NoDup rows →
    (∀ a, a ∈ rows → Heap.memo_get memo a = None) →
    Forall2 (fun a r => h !! a = Some r) rows b →
    Heap.deepcopy_rows h memo rows
    = Ok (seq (length h) (length rows), h ++ b).
Proof.
  intros h memo Hnd Hmemo Hden. revert h memo Hnd Hmemo Hden.
  revert b. induction rows as [|a rows IH]; intros b h memo Hnd Hmemo Hden.
  - apply Forall2_nil_inv_l in Hden as ->. rewrite app_nil_r. reflexivity.
  - apply Forall2_cons_inv_l in Hden as (r & b' & Ha & Hden & ->).
    apply NoDup_cons in Hnd as [Hnotin Hnd].
    cbn [Heap.deepcopy_rows]. rewrite Hmemo by left.
    unfold Heap.deref. rewrite Ha. cbn [mbind result_bind].
    rewrite (IH b').
    + cbn [mbind result_bind]. rewrite length_app, <- app_assoc. simpl.
      rewrite Nat.add_1_r. reflexivity.
    + exact Hnd.
    + intros a' Ha'. simpl.
      destruct (Nat.eqb_spec a a') as [->|Hne]; [exfalso; apply Hnotin, Ha'|].
      apply Hmemo. right. exact Ha'.
    + eapply Forall2_impl; [exact Hden|]. simpl. intros a' r' Hl.
      apply lookup_app_l_Some, Hl.
Qed.

Lemma Forall2_lookup_insert (h : list (list string)) (nb : list nat)
  (b : Board) (i : nat) (a : nat) (r' : list string) :
  NoDup nb → nb !! i = Some a → (a < length h)%nat →
  Forall2 (fun a r => h !! a = Some r) nb b →
  Forall2 (fun x r => <[a := r']> h !! x = Some r) nb (<[i := r']> b).
Proof.
  intros Hnd Hi Ha Hden. apply Forall2_same_length_lookup. split.
  - rewrite length_insert. eapply Forall2_length, Hden.
  - intros j a' r Hj Hr. destruct (decide (j = i)) as [->|Hne].
    + rewrite Hi in Hj. injection Hj as <-.
      rewrite list_lookup_insert_eq in Hr.
      * injection Hr as <-. apply list_lookup_insert_eq, Ha.
      * apply Forall2_length in Hden. apply lookup_lt_Some in Hi. lia.
    + rewrite list_lookup_insert_ne in Hr by auto.
      rewrite list_lookup_insert_ne.
      * exact (Forall2_lookup_lr _ _ _ _ _ _ Hden Hj Hr).
      * intros Heq. apply Hne. rewrite <- Heq in Hj.
        exact (NoDup_lookup _ _ _ _ Hnd Hj Hi).
Qed.

(** The loop on the copy does to the objects what [make_move_loop] does
    to the value. *)
Lemma heap_loop_refines (b : Board) (col : Z) (p : string) (rows : list Z)
  (h : list (list string)) (nb : list nat) :
  wf_board b → 0 ≤ col < COLS → Forall (fun r => 0 ≤ r < ROWS) rows →
  NoDup nb → Forall2 (fun a r => h !! a = Some r) nb b →
  ∃ h' b', Heap.make_move_loop rows h nb col p = Ok h'
    ∧ make_move_loop rows b col p = Ok b'
    ∧ Forall2 (fun a r => h' !! a = Some r) nb b'.
Proof.
  intros Hwf Hc Hrows Hnd Hden.
  induction Hrows as [|row rows Hrow Hrows IH].
  - exists h, b. split; [reflexivity|split; [reflexivity|exact Hden]].
  - assert (length b = 6%nat) as Hlb by apply Hwf.
    pose proof (Forall2_length _ _ _ Hden) as Hlen.
    pose proof (wf_board_row b row Hwf Hrow) as Hlr.
    unfold ROWS, COLS in *.
    destruct (nb !! Z.to_nat row) as [a|] eqn:Ea;
      [|apply lookup_ge_None in Ea; lia].
    assert (h !! a = Some (nth (Z.to_nat row) b [])) as Hha.
    { destruct (b !! Z.to_nat row) as [r|] eqn:Er;
        [|apply lookup_ge_None in Er; lia].
      rewrite (nth_lookup_Some _ _ _ _ Er).
      exact (Forall2_lookup_lr _ _ _ _ _ _ Hden Ea Er). }
    cbn [Heap.make_move_loop make_move_loop]. unfold cell_is, board_get.
    rewrite (py_index_nonneg nb row a) by lia.
    rewrite (nth_lookup_Some _ _ _ _ Ea).
    rewrite (py_index_nonneg b row []) by lia.
    cbn [mbind result_bind]. unfold Heap.deref. rewrite Hha.
    cbn [mbind result_bind].
    rewrite (py_index_nonneg _ col "") by lia. cbn [mbind result_bind].
    destruct (String.eqb _ "."); [|exact IH].
    rewrite py_setitem_nonneg by lia. cbn [mbind result_bind].
    rewrite py_setitem_nonneg by lia.
    eexists _, _. split; [reflexivity|split; [reflexivity|]].
    apply Forall2_lookup_insert; try assumption.
    apply lookup_lt_Some in Hha. exact Hha.
Qed.

(** On a board whose rows are distinct objects, [make_move] on objects
    returns new objects that hold the value computed by [make_move]. *)
Lemma heap_make_move_refines (h : list (list string)) (ref : list nat)
  (b b' : Board) (col : Z) (p : string) :
  wf_board b → 0 ≤ col < COLS → NoDup ref → Heap.denote h ref = Some b →
  make_move b col p = Ok b' →
  ∃ ref' h', Heap.make_move h ref col p = Ok (ref', h')
    ∧ Heap.denote h' ref' = Some b'.
Proof.
  intros Hwf Hc Hnd Hden Hmv. apply denote_Forall2 in Hden.
  unfold Heap.make_move, Heap.deepcopy.
  rewrite (deepcopy_rows_fresh ref b) by (try assumption; reflexivity).
  cbn [mbind result_bind].
  destruct (heap_loop_refines b col p (reverse (range ROWS)) (h ++ b)
              (seq (length h) (length ref))) as (h' & b'' & Hl & Hv & Hd);
    try assumption.
  - rewrite rows_bottom_up. unfold ROWS. repeat constructor; lia.
  - apply NoDup_seq.
  - apply Forall2_same_length_lookup. split.
    + rewrite length_seq. eapply Forall2_length, Hden.
    + intros i a r Ha Hr. apply lookup_seq in Ha as [-> Hi].
      rewrite lookup_app_r by lia.
      replace (length h + i - length h)%nat with i by lia. exact Hr.
  - unfold make_move in Hmv. rewrite Hv in Hmv. injection Hmv as ->.
    rewrite Hl. cbn [mbind result_bind]. eexists _, _.
    split; [reflexivity|]. apply denote_Forall2, Hd.
Qed.

(** C3: on every board of a game, [get_valid_moves] returns, in ascending
    order, exactly the columns 0..6 whose top cell is empty; for each of
    them and every player, [make_move] returns a board that differs from
    its argument only in the lowest empty cell of the column, which now
    holds the player's piece, so that no piece floats; and the call
    builds its result from new objects and changes no object of the
    board it was given. *)
Theorem valid_moves_and_make_move (b : Board) :
  reachable b →
  ∃ moves,
    get_valid_moves b = Ok moves
    ∧ (∀ c, c ∈ moves ↔ 0 ≤ c < COLS ∧ cell b 0 c = ".")
    ∧ StronglySorted Z.lt moves
    ∧ ∀ c p, c ∈ moves →
        ∃ r b',
          make_move b c p = Ok b'
          ∧ lowest_empty b c r
          ∧ (∀ r' c', in_grid r' c' →
               cell b' r' c'
               = if decide (r' = r ∧ c' = c) then p else cell b r' c')
          ∧ wf_board b' ∧ gravity b'
          ∧ ∀ (h : list (list string)) (ref : list nat),
              NoDup ref → Heap.denote h ref = Some b →
              ∃ ref' h',
                Heap.make_move h ref c p = Ok (ref', h')
                ∧ Heap.denote h' ref' = Some b'
                ∧ (∀ a row, h !! a = Some row → h' !! a = Some row)
                ∧ Heap.denote h' ref = Some b
                ∧ Forall (fun a => (length h ≤ a)%nat) ref'.
Proof.
  intros Hreach. destruct (reachable_wf_gravity b Hreach) as [Hwf Hg].
  exists (filter (fun c => cell b 0 c = ".") (range COLS)).
  split; [apply get_valid_moves_wf, Hwf|].
  split; [apply elem_of_valid_moves|].
  split.
  { apply filter_sorted. unfold range, COLS. simpl.
    repeat (constructor; [|repeat constructor; lia]). constructor. }
  intros c p Hc. apply elem_of_valid_moves in Hc as [Hc Htop].
  destruct (make_move_valid b c p Hwf Hc Htop) as (r & Hlow & Hmv).
  exists r, (set_cell b r c p).
  assert (in_grid r c) as Hrc by (split; [apply Hlow|exact Hc]).
  split; [exact Hmv|]. split; [exact Hlow|].
  split; [intros r' c' Hg'; apply cell_set_cell; assumption|].
  split; [apply wf_board_set_cell, Hwf|].
  split; [apply gravity_set_cell; assumption|].
  intros h ref Hnd Hden.
  destruct (heap_make_move_refines h ref b _ c p Hwf Hc Hnd Hden Hmv)
    as (ref' & h' & Hhmv & Hden').
  destruct (heap_make_move_frame _ _ _ _ _ _ Hhmv) as [Hframe Hfresh].
  exists ref', h'. split; [exact Hhmv|]. split; [exact Hden'|].
  split; [exact Hframe|]. split; [|exact Hfresh].
  apply denote_Forall2. apply denote_Forall2 in Hden.
  eapply Forall2_impl; [exact Hden|]. intros a row. apply Hframe.
Qed.

Lemma valid_moves_and_make_move_witness :
  reachable empty_board
  ∧ ∃ moves, get_valid_moves empty_board = Ok moves
      ∧ StronglySorted Z.lt moves.
Proof.
  split; [exact reachable_empty|].
  destruct (valid_moves_and_make_move empty_board reachable_empty)
    as (moves & Hm & _ & Hs & _).
  exists moves. split; assumption.
Defined.

(** ** Reflection *)

Lemma wf_board_mirror (b : Board) : wf_board b → wf_board (mirror b).
Proof.
  intros [Hl Hr]. unfold mirror. split.
  - rewrite length_map. exact Hl.
  - apply Forall_map. eapply Forall_impl; [exact Hr|].
    simpl. intros r Hlen. rewrite length_reverse. exact Hlen.
Qed.

Lemma cell_mirror (b : Board) (r c : Z) :
  wf_board b → in_grid r c → cell (mirror b) r c = cell b r (COLS - 1 - c).
Proof.
  intros Hwf [Hr Hc]. unfold cell, mirror.
  pose proof (wf_board_row b r Hwf Hr) as Hlr.
  assert (length b = 6%nat) as Hl by apply Hwf.
  unfold ROWS, COLS in *.
  rewrite (nth_lookup _ (Z.to_nat r)), list_lookup_fmap.
  destruct (b !! Z.to_nat r) as [row|] eqn:Er;
    [|apply lookup_ge_None in Er; lia].
  rewrite (nth_lookup_Some _ _ _ _ Er) in *. cbn [fmap option_fmap option_map default from_option id].
  rewrite !nth_lookup, reverse_lookup by lia.
  do 2 f_equal. lia.
Qed.

Lemma mirror_mirror (b : Board) : mirror (mirror b) = b.
Proof.
  unfold mirror. rewrite map_map. rewrite <- (map_id b) at 2.
  apply map_ext. intros r. apply reverse_involutive.
Qed.

Lemma line_at_mirror (b : Board) (p : string) (d : direction) (r c : Z) :
  wf_board b →
  line_at (mirror b) p d r c →
  line_at b p (mirror_dir d) (mirror_row d r) (mirror_col d c).
Proof.
  intros Hwf Hline i Hi.
  destruct d; cbn [mirror_dir mirror_row mirror_col drow dcol].
  - destruct (Hline (3 - i)) as [Hg Hcell]; [lia|]. cbn [drow dcol] in *.
    rewrite cell_mirror in Hcell by assumption.
    unfold in_grid, COLS, ROWS in *. split; [lia|]. rewrite <- Hcell.
    f_equal; lia.
  - destruct (Hline i) as [Hg Hcell]; [lia|]. cbn [drow dcol] in *.
    rewrite cell_mirror in Hcell by assumption.
    unfold in_grid, COLS, ROWS in *. split; [lia|]. rewrite <- Hcell.
    f_equal; lia.
  - destruct (Hline (3 - i)) as [Hg Hcell]; [lia|]. cbn [drow dcol] in *.
    rewrite cell_mirror in Hcell by assumption.
    unfold in_grid, COLS, ROWS in *. split; [lia|]. rewrite <- Hcell.
    f_equal; lia.
  - destruct (Hline (3 - i)) as [Hg Hcell]; [lia|]. cbn [drow dcol] in *.
    rewrite cell_mirror in Hcell by assumption.
    unfold in_grid, COLS, ROWS in *. split; [lia|]. rewrite <- Hcell.
    f_equal; lia.
Qed.

Lemma four_in_line_mirror (b : Board) (p : string) :
  wf_board b → four_in_line (mirror b) p ↔ four_in_line b p.
Proof.
  intros Hwf. split.
  - intros (d & r & c & Hline). eexists _, _, _.
    apply line_at_mirror; eassumption.
  - intros (d & r & c & Hline). eexists _, _, _.
    apply line_at_mirror; [apply wf_board_mirror, Hwf|].
    rewrite mirror_mirror. exact Hline.
Qed.

(** C9: [check_winner] gives the same answer on a board and on its
    left-to-right reflection; a horizontal line of the reflection is a
    horizontal line of the board, and a line along one diagonal is a
    line along the other. *)
Theorem check_winner_mirror (b : Board) (p : string) :
  wf_board b →
  check_winner (mirror b) p = check_winner b p
  ∧ (∀ r c, line_at (mirror b) p Horizontal r c
            ↔ line_at b p Horizontal r (COLS - 4 - c))
  ∧ (∀ r c, line_at (mirror b) p DiagDown r c
            ↔ line_at b p DiagUp (r + 3) (COLS - 4 - c))
  ∧ (∀ r c, line_at (mirror b) p DiagUp r c
            ↔ line_at b p DiagDown (r - 3) (COLS - 4 - c)).
Proof.
  intros Hwf. pose proof (wf_board_mirror b Hwf) as Hwfm.
  split.
  { rewrite !check_winner_wf by assumption. f_equal.
    apply eq_true_iff_eq. rewrite !wins_b_spec.
    apply four_in_line_mirror, Hwf. }
  assert (∀ d r c, line_at b p (mirror_dir d) (mirror_row d r) (mirror_col d c)
                   → line_at (mirror b) p d r c) as Hback.
  { intros d r c Hline. rewrite <- (mirror_mirror b) in Hline.
    apply line_at_mirror in Hline; [|exact Hwfm].
    destruct d; cbn [mirror_dir mirror_row mirror_col] in Hline;
      unfold COLS in Hline;
      match type of Hline with
      | line_at _ _ _ ?r' ?c' =>
          replace r' with r in Hline by lia;
          replace c' with c in Hline by lia
      end; exact Hline. }
  split; [|split]; intros r c; split;
    first [ apply (line_at_mirror b p Horizontal r c Hwf)
          | apply (line_at_mirror b p DiagDown r c Hwf)
          | apply (line_at_mirror b p DiagUp r c Hwf)
          | apply (Hback Horizontal r c)
          | apply (Hback DiagDown r c)
          | apply (Hback DiagUp r c) ].
Qed.

Lemma check_winner_mirror_witness :
  check_winner (mirror full_column_board) "R"
  = check_winner full_column_board "R".
Proof.
  apply (check_winner_mirror full_column_board "R" wf_full_column_board).
Defined.

(** ** The tactical check *)

Lemma find_sorted_least (g : Z → bool) (l : list Z) :
  StronglySorted Z.lt l →
  (∀ c, find g l = Some c ↔ least (fun c => c ∈ l ∧ g c = true) c)
  ∧ (find g l = None ↔ ∀ c, c ∈ l → g c = false).
Proof.
  induction 1 as [|x l Hs [IHs IHn] Hx]; simpl.
  - split.
    + intros c. split; [discriminate|]. intros [[Hin _] _].
      apply elem_of_nil in Hin. contradiction.
    + split; [|reflexivity]. intros _ c Hin.
      apply elem_of_nil in Hin. contradiction.
  - rewrite Forall_forall in Hx. destruct (g x) eqn:Egx; split.
    + intros c. split.
      * intros [= <-]. split; [split; [left|exact Egx]|].
        intros c' [Hin _]. apply elem_of_cons in Hin as [->|Hin]; [lia|].
        apply Hx in Hin. lia.
      * intros [[Hin Hg] Hleast].
        assert (c ≤ x) as Hle by (apply Hleast; split; [left|exact Egx]).
        apply elem_of_cons in Hin as [->|Hin]; [reflexivity|].
        apply Hx in Hin. lia.
    + split; [discriminate|]. intros Hall.
      rewrite Hall in Egx by left. discriminate.
    + intros c. rewrite IHs. split.
      * intros [[Hin Hg] Hleast]. split; [split; [right; exact Hin|exact Hg]|].
        intros c' [Hin' Hg']. apply elem_of_cons in Hin' as [->|Hin'];
          [congruence|]. apply Hleast. split; assumption.
      * intros [[Hin Hg] Hleast].
        apply elem_of_cons in Hin as [->|Hin]; [congruence|].
        split; [split; assumption|].
        intros c' [Hin' Hg']. apply Hleast. split; [right|]; assumption.
    + rewrite IHn. split.
      * intros Hall c Hin. apply elem_of_cons in Hin as [->|Hin];
          [exact Egx|apply Hall, Hin].
      * intros Hall c Hin. apply Hall. right. exact Hin.
Qed.

Lemma valid_moves_sorted (b : Board) :
  StronglySorted Z.lt (filter (fun c => cell b 0 c = ".") (range COLS)).
Proof.
  apply filter_sorted. unfold range, COLS. simpl.
  repeat (constructor; [|repeat constructor; lia]). constructor.
Qed.

Lemma move_then_check (b : Board) (p : string) (col : Z) :
  wf_board b → 0 ≤ col < COLS →
  (make_move b col p ≫= fun temp_board => check_winner temp_board p)
  = Ok (wins_after b p col).
Proof.
  intros Hwf Hc. rewrite make_move_wf by assumption.
  cbn [mbind result_bind]. unfold wins_after.
  destruct (landing_row b col).
  - apply check_winner_wf, wf_board_set_cell, Hwf.
  - apply check_winner_wf, Hwf.
Qed.

Lemma winning_move_wins_after (b : Board) (p : string) (col : Z) :
  wf_board b →
  winning_move b p col
  ↔ col ∈ filter (fun c => cell b 0 c = ".") (range COLS)
    ∧ wins_after b p col = true.
Proof.
  intros Hwf. unfold winning_move. split.
  - intros (moves & b' & Hm & Hin & Hmv & Hw).
    rewrite get_valid_moves_wf in Hm by assumption. injection Hm as <-.
    split; [exact Hin|]. apply elem_of_valid_moves in Hin as [Hc _].
    pose proof (move_then_check b p col Hwf Hc) as Hmc.
    rewrite Hmv in Hmc. cbn [mbind result_bind] in Hmc. congruence.
  - intros [Hin Hw]. pose proof Hin as Hin'.
    apply elem_of_valid_moves in Hin' as [Hc _].
    pose proof (move_then_check b p col Hwf Hc) as Hmc.
    rewrite make_move_wf in Hmc |- * by assumption.
    cbn [mbind result_bind] in Hmc.
    eexists _, _. split; [apply get_valid_moves_wf, Hwf|].
    split; [exact Hin|]. split; [reflexivity|]. congruence.
Qed.

Lemma tactic_loop (b : Board) (q : string) :
  wf_board b →
  for_find (filter (fun c => cell b 0 c = ".") (range COLS))
    (fun col => make_move b col q ≫= fun temp_board => check_winner temp_board q)
  = Ok (find (wins_after b q) (filter (fun c => cell b 0 c = ".") (range COLS))).
Proof.
  intros Hwf. apply for_find_ok. intros col Hin.
  apply elem_of_valid_moves in Hin as [Hc _].
  apply move_then_check; assumption.
Qed.

Lemma find_immediate_win_or_block_wf (b : Board) (p : string) :
  wf_board b →
  find_immediate_win_or_block b p
  = Ok (let moves := filter (fun c => cell b 0 c = ".") (range COLS) in
        match find (wins_after b p) moves with
        | Some col => Some col
        | None => find (wins_after b (get_next_player p)) moves
        end).
Proof.
  intros Hwf. unfold find_immediate_win_or_block.
  rewrite get_valid_moves_wf by assumption. cbn [mbind result_bind].
  rewrite (tactic_loop b p Hwf). cbn [mbind result_bind]. cbv zeta.
  destruct (find (wins_after b p) _); [reflexivity|].
  apply (tactic_loop b (get_next_player p) Hwf).
Qed.

(** C5: [find_immediate_win_or_block] returns the smallest legal column
    that wins at once for the player if there is one; otherwise the
    smallest legal column that wins at once for the opponent if there is
    one; otherwise [None]. *)
Theorem find_immediate_win_or_block_spec (b : Board) (p : string) :
  wf_board b →
  ∃ res, find_immediate_win_or_block b p = Ok res
    ∧ (∀ col, res = Some col ↔
         least (winning_move b p) col
         ∨ ((∀ c, ¬ winning_move b p c)
            ∧ least (winning_move b (get_next_player p)) col))
    ∧ (res = None ↔
         (∀ c, ¬ winning_move b p c)
         ∧ (∀ c, ¬ winning_move b (get_next_player p) c)).
Proof.
  intros Hwf. eexists. split; [apply find_immediate_win_or_block_wf, Hwf|].
  cbv zeta. set (moves := filter (fun c => cell b 0 c = ".") (range COLS)).
  pose proof (valid_moves_sorted b) as Hs. fold moves in Hs.
  destruct (find_sorted_least (wins_after b p) moves Hs) as [Hown Hnone].
  destruct (find_sorted_least (wins_after b (get_next_player p)) moves Hs)
    as [Hopp Hnone'].
  assert (∀ q col, least (winning_move b q) col
                   ↔ least (fun c => c ∈ moves ∧ wins_after b q c = true) col)
    as Hleast.
  { intros q col. unfold least.
    rewrite (winning_move_wins_after b q col Hwf). fold moves.
    split; intros [Hp Hl]; (split; [exact Hp|]); intros c' Hc'; apply Hl.
    - apply winning_move_wins_after; assumption.
    - apply winning_move_wins_after in Hc'; assumption. }
  assert (∀ q, (∀ c, ¬ winning_move b q c)
               ↔ (∀ c, c ∈ moves → wins_after b q c = false)) as Hno.
  { intros q. split.
    - intros Hn c Hin. destruct (wins_after b q c) eqn:E; [|reflexivity].
      exfalso. apply (Hn c). apply winning_move_wins_after; [exact Hwf|].
      split; assumption.
    - intros Hn c Hw. apply winning_move_wins_after in Hw as [Hin Hw];
        [|exact Hwf]. rewrite Hn in Hw by exact Hin. discriminate. }
  setoid_rewrite Hleast. setoid_rewrite Hno.
  destruct (find (wins_after b p) moves) as [c0|] eqn:E0.
  - assert (least (fun c => c ∈ moves ∧ wins_after b p c = true) c0) as Hc0
      by (apply Hown; reflexivity).
    split.
    + intros col. split.
      * intros [= <-]. left. exact Hc0.
      * intros [Hl|[Hn _]].
        -- f_equal. destruct Hc0 as [H0 Hl0], Hl as [H1 Hl1].
           apply Hl0 in H1. apply Hl1 in H0. lia.
        -- destruct Hc0 as [[Hin Hw] _]. rewrite Hn in Hw by exact Hin.
           discriminate.
    + split; [discriminate|]. intros [Hn _].
      destruct Hc0 as [[Hin Hw] _]. rewrite Hn in Hw by exact Hin.
      discriminate.
  - assert (∀ c, c ∈ moves → wins_after b p c = false) as Hn0
      by (apply Hnone; reflexivity).
    split.
    + intros col. rewrite Hopp. split.
      * intros Hl. right. split; assumption.
      * intros [[[Hin Hw] _]|[_ Hl]]; [|exact Hl].
        rewrite Hn0 in Hw by exact Hin. discriminate.
    + rewrite Hnone'. split; [intros Hn; split; assumption|intros [_ Hn]].
      exact Hn.
Qed.

Lemma find_immediate_win_or_block_spec_witness :
  wf_board threat_board
  ∧ ∃ res, find_immediate_win_or_block threat_board "Y" = Ok res.
Proof.
  assert (wf_board threat_board) as Hwf
    by (split; [reflexivity|repeat constructor]).
  split; [exact Hwf|].
  destruct (find_immediate_win_or_block_spec threat_board "Y" Hwf)
    as (res & Hres & _).
  exists res. exact Hres.
Defined.

Example find_immediate_win_or_block_own_win :
  find_immediate_win_or_block threat_board "Y" = Ok (Some 3)
  ∧ find_immediate_win_or_block threat_board "R" = Ok (Some 3)
  ∧ find_immediate_win_or_block empty_board "R" = Ok None.
Proof. repeat split. Qed.

(** ** Rollout *)

Lemma random_choice_elem {A} (l : list A) (w : world) :
  l ≠ [] → ∃ x w', random_choice l w = Ok (x, w') ∧ x ∈ l.
Proof.
  intros Hne. destruct l as [|x0 l]; [contradiction|].
  unfold random_choice, next_draw, mbind, prog_bind.
  set (len := Z.of_nat (length (x0 :: l))).
  set (k := draws w (draw_pos w) `mod` len).
  assert (0 ≤ k < len) as Hk.
  { apply Z.mod_pos_bound. unfold len. simpl. lia. }
  rewrite (py_index_nonneg _ k x0) by exact Hk. unfold lift.
  eexists _, _. split; [reflexivity|].
  apply list_elem_of_In, nth_In. unfold len in Hk. lia.
Qed.

Lemma get_next_player_is_player (p : string) : is_player (get_next_player p).
Proof. unfold get_next_player, is_player. destruct (String.eqb p "Y"); auto. Qed.

Lemma filter_length_lt {A} (P Q : A → Prop) `{∀ x, Decision (P x)}
  `{∀ x, Decision (Q x)} (l : list A) (x0 : A) :
  (∀ x, x ∈ l → Q x → P x) → x0 ∈ l → P x0 → ¬ Q x0 →
  (length (filter Q l) < length (filter P l))%nat.
Proof.
  intros Hsub Hin HP HQ.
  assert (∀ l', (∀ x, x ∈ l' → Q x → P x) →
            (length (filter Q l') ≤ length (filter P l'))%nat) as Hle.
  { induction l' as [|x l' IH]; intros Hs; [reflexivity|].
    rewrite !filter_cons.
    assert (length (filter Q l') ≤ length (filter P l'))%nat as IH'
      by (apply IH; intros y Hy; apply Hs; right; exact Hy).
    destruct (decide (Q x)) as [Hq|Hq].
    - rewrite decide_True by (apply Hs; [left|exact Hq]). simpl. lia.
    - destruct (decide (P x)); simpl; lia. }
  induction l as [|x l IH]; [apply elem_of_nil in Hin; contradiction|].
  assert (length (filter Q l) ≤ length (filter P l))%nat as Hl
    by (apply Hle; intros y Hy; apply Hsub; right; exact Hy).
  rewrite !filter_cons. apply elem_of_cons in Hin as [<-|Hin].
  - rewrite decide_False, decide_True by assumption. simpl. lia.
  - assert (length (filter Q l) < length (filter P l))%nat as IH'
      by (apply IH; [intros y Hy; apply Hsub; right; exact Hy|exact Hin]).
    destruct (decide (Q x)) as [Hq|Hq].
    + rewrite decide_True by (apply Hsub; [left|exact Hq]). simpl. lia.
    + destruct (decide (P x)); simpl; lia.
Qed.

Lemma elem_of_grid (r c : Z) :
  (r, c) ∈ (r ← range ROWS; c ← range COLS; [(r, c)]) ↔ in_grid r c.
Proof.
  rewrite list_elem_of_bind. unfold in_grid. split.
  - intros (r' & Hin & Hr). apply list_elem_of_bind in Hin.
    destruct Hin as (c' & Hin & Hc). apply list_elem_of_singleton in Hin.
    injection Hin as -> ->. unfold range in *.
    apply elem_of_seqZ in Hr, Hc. lia.
  - intros [Hr Hc]. exists r. split.
    + apply list_elem_of_bind. exists c. split; [left|].
      unfold range. apply elem_of_seqZ. lia.
    + unfold range. apply elem_of_seqZ. lia.
Qed.

Lemma empties_le (b : Board) : (empties b ≤ 42)%nat.
Proof.
  unfold empties.
  etransitivity; [apply length_filter|]. reflexivity.
Qed.

Lemma empties_set_cell (b : Board) (r c : Z) (p : string) :
  wf_board b → 0 ≤ c < COLS → lowest_empty b c r → p ≠ "." →
  (empties (set_cell b r c p) < empties b)%nat.
Proof.
  intros Hwf Hc (Hr & He & _) Hp. unfold empties.
  assert (in_grid r c) as Hrc by (split; assumption).
  apply (filter_length_lt _ _ _ (r, c)).
  - intros [r' c'] Hin Hq. apply elem_of_grid in Hin. simpl in *.
    rewrite cell_set_cell in Hq by assumption.
    destruct (decide (r' = r ∧ c' = c)); [contradiction|exact Hq].
  - apply elem_of_grid, Hrc.
  - exact He.
  - simpl. rewrite cell_set_cell by assumption.
    rewrite decide_True by auto. exact Hp.
Qed.

Lemma simulate_loop_ends (fuel : nat) :
  ∀ (b : Board) (p : string) (n : nat) (w : world),
    wf_board b → is_player p → (empties b < fuel)%nat →
    ∃ r w', simulate_loop fuel b p n w = Ok (r, w')
      ∧ (n ≤ ro_moves r ≤ n + empties b)%nat
      ∧ wf_board (ro_board r)
      ∧ (ro_winner r = None ∨ ro_winner r = Some "R" ∨ ro_winner r = Some "Y")
      ∧ (∀ q, ro_winner r = Some q → check_winner (ro_board r) q = Ok true)
      ∧ (ro_winner r = None → get_valid_moves (ro_board r) = Ok []).
Proof.
  induction fuel as [|fuel IH]; intros b p n w Hwf Hp Hfuel; [lia|].
  cbn [simulate_loop]. unfold mbind at 1. unfold prog_bind at 1.
  rewrite get_valid_moves_wf by assumption. unfold lift at 1.
  destruct (filter _ (range COLS)) as [|c0 ms] eqn:Emoves.
  - eexists _, _. split; [reflexivity|]. cbn.
    split; [lia|]. split; [exact Hwf|]. split; [left; reflexivity|].
    split; [discriminate|]. intros _.
    rewrite get_valid_moves_wf, Emoves by assumption. reflexivity.
  - destruct (random_choice_elem (c0 :: ms) w) as (col & w1 & Hch & Hin);
      [discriminate|].
    unfold mbind at 1. unfold prog_bind at 1. rewrite Hch.
    rewrite <- Emoves in Hin. apply elem_of_valid_moves in Hin as [Hc Htop].
    destruct (make_move_valid b col p Hwf Hc Htop) as (r & Hlow & Hmv).
    unfold mbind at 1. unfold prog_bind at 1. rewrite Hmv. unfold lift at 1.
    pose proof (wf_board_set_cell b r col p Hwf) as Hwf'.
    assert (p ≠ ".") as Hpne by (destruct Hp as [-> | ->]; discriminate).
    pose proof (empties_set_cell b r col p Hwf Hc Hlow Hpne) as Hdec.
    unfold mbind at 1. unfold prog_bind at 1.
    rewrite check_winner_wf by assumption. unfold lift at 1.
    destruct (wins_b (set_cell b r col p) p) eqn:Ewin.
    + eexists _, _. split; [reflexivity|]. cbn.
      split; [lia|]. split; [exact Hwf'|].
      split; [destruct Hp as [-> | ->]; auto|].
      split; [|discriminate]. intros q [= <-].
      rewrite check_winner_wf, Ewin by assumption. reflexivity.
    + destruct (IH (set_cell b r col p) (get_next_player p) (S n) w1)
        as (res & w' & Hrun & Hmoves & Hrest);
        [exact Hwf'|apply get_next_player_is_player|lia|].
      exists res, w'. split; [exact Hrun|]. split; [lia|exact Hrest].
Qed.

(** C8: from every grid and for either player to move, [simulate_game]
    returns once the fuel exceeds the 42 cells of the grid, after at most
    42 moves; it returns "R", "Y" or [None] (a draw), and a player it
    returns holds four cells in a line on the final board. *)
Theorem simulate_game_terminates (fuel : nat) (b : Board) (p : string)
  (w : world) :
  wf_board b → is_player p → (rollout_fuel ≤ fuel)%nat →
  ∃ r w',
    simulate_trace fuel b p w = Ok (r, w')
    ∧ simulate_game fuel b p w = Ok (ro_winner r, w')
    ∧ (ro_moves r ≤ 42)%nat
    ∧ (ro_winner r = None ∨ ro_winner r = Some "R" ∨ ro_winner r = Some "Y")
    ∧ (∀ q, ro_winner r = Some q →
         check_winner (ro_board r) q = Ok true ∧ four_in_line (ro_board r) q).
Proof.
  intros Hwf Hp Hfuel. pose proof (empties_le b) as Hle.
  destruct (simulate_loop_ends fuel b p 0 w Hwf Hp)
    as (r & w' & Hrun & Hmoves & Hwf' & Hout & Hwin & _).
  { unfold rollout_fuel, ROWS, COLS in Hfuel. simpl in Hfuel. lia. }
  exists r, w'. unfold simulate_game, simulate_trace.
  split; [exact Hrun|]. split.
  { unfold mbind, prog_bind. rewrite Hrun. reflexivity. }
  split; [lia|]. split; [exact Hout|].
  intros q Hq. split; [apply Hwin, Hq|].
  apply wins_b_spec. specialize (Hwin q Hq).
  rewrite check_winner_wf in Hwin by assumption. congruence.
Qed.

Lemma simulate_game_terminates_witness :
  ∃ r w', simulate_trace rollout_fuel empty_board "R" sample_world = Ok (r, w')
    ∧ (ro_moves r ≤ 42)%nat.
Proof.
  destruct (simulate_game_terminates rollout_fuel empty_board "R" sample_world)
    as (r & w' & Hrun & _ & Hm & _).
  - exact wf_empty_board.
  - left. reflexivity.
  - apply Nat.le_refl.
  - exists r, w'. split; assumption.
Defined.

(** ** Backpropagation *)

Lemma on_path_le (t : tree) (n m : nat) :
  wf_tree t → on_path t n m → (m ≤ n)%nat.
Proof.
  intros Hwf. induction 1 as [n|n nd p m Hn Hp Hpath IH]; [lia|].
  specialize (Hwf n nd p Hn Hp). lia.
Qed.

Lemma on_path_ext (t t1 : tree) (n m : nat) :
  (∀ i, parent <$> t1 !! i = parent <$> t !! i) →
  on_path t n m → on_path t1 n m.
Proof.
  intros Hext. induction 1 as [n|n nd p m Hn Hp Hpath IH]; [constructor|].
  specialize (Hext n). rewrite Hn in Hext.
  destruct (t1 !! n) as [nd1|] eqn:E1; [|discriminate].
  injection Hext as Hpar.
  apply (on_path_parent t1 n nd1 p m); [exact E1|congruence|exact IH].
Qed.

Lemma bump_same (winner : option string) (nd : MCTSNode) :
  same_node (bump winner nd) nd.
Proof.
  unfold bump, same_node. destruct winner as [w|]; [|repeat split].
  cbn. destruct (String.eqb w _); repeat split.
Qed.

Lemma bump_counts (winner : option string) (nd : MCTSNode) :
  visits (bump winner nd) = visits nd + 1
  ∧ (winner = Some (get_next_player (current_player nd)) →
     wins (bump winner nd) = wins nd + 1)
  ∧ (winner ≠ Some (get_next_player (current_player nd)) →
     wins (bump winner nd) = wins nd).
Proof.
  unfold bump. destruct winner as [w|]; cbn.
  - destruct (String.eqb_spec w (get_next_player (current_player nd)));
      cbn; repeat split; congruence.
  - repeat split; congruence.
Qed.

Lemma backpropagate_step (fuel : nat) (t : tree) (n : nat) (nd : MCTSNode)
  (winner : option string) :
  t !! n = Some nd →
  backpropagate (S fuel) t (Some n) winner
  = backpropagate fuel (<[n := bump winner nd]> t) (parent nd) winner.
Proof.
  intros Hn. cbn [backpropagate]. unfold get_node. rewrite Hn.
  cbn [mbind result_bind]. unfold bump.
  destruct winner as [w|]; [|reflexivity]. cbn.
  destruct (String.eqb w _); reflexivity.
Qed.

Lemma backpropagate_ok (n : nat) :
  ∀ (t : tree) (fuel : nat) (winner : option string),
    wf_tree t → (n < length t)%nat → (n < fuel)%nat →
    ∃ t', backpropagate fuel t (Some n) winner = Ok t'
      ∧ backpropagated t t' n winner.
Proof.
  induction n as [n IH] using lt_wf_ind. intros t fuel winner Hwf Hn Hfuel.
  destruct fuel as [|fuel]; [lia|].
  destruct (t !! n) as [nd|] eqn:En; [|apply lookup_ge_None in En; lia].
  rewrite (backpropagate_step _ _ _ _ _ En).
  set (t1 := <[n := bump winner nd]> t).
  assert (∀ i, parent <$> t1 !! i = parent <$> t !! i) as Hext.
  { intros i. unfold t1. destruct (decide (i = n)) as [->|Hne].
    - rewrite list_lookup_insert_eq, En by exact Hn. cbn. f_equal.
      apply bump_same.
    - rewrite list_lookup_insert_ne by auto. reflexivity. }
  assert (∀ i, parent <$> t !! i = parent <$> t1 !! i) as Hext'
    by (intros i; symmetry; apply Hext).
  assert (t1 !! n = Some (bump winner nd)) as En1
    by (apply list_lookup_insert_eq, Hn).
  destruct (parent nd) as [p|] eqn:Ep.
  - assert (p < n)%nat as Hp by (apply (Hwf n nd p); assumption).
    assert (wf_tree t1) as Hwf1.
    { intros i ndi q Hi Hq. specialize (Hext i). rewrite Hi in Hext.
      destruct (t !! i) as [ndi'|] eqn:Ei; [|discriminate].
      injection Hext as Hpar. apply (Hwf i ndi' q Ei). congruence. }
    destruct (IH p Hp t1 fuel winner Hwf1) as (t' & Hrun & Hlen & Hspec).
    { unfold t1. rewrite length_insert. lia. }
    { lia. }
    exists t'. split; [exact Hrun|]. split.
    { rewrite Hlen. unfold t1. apply length_insert. }
    intros m ndm Hm. destruct (decide (m = n)) as [->|Hne].
    + rewrite En in Hm. injection Hm as <-.
      destruct (Hspec n _ En1) as (nd' & Hn' & Hsame & _ & Hoff).
      assert (nd' = bump winner nd) as ->.
      { apply Hoff. intros Hpath. apply on_path_le in Hpath; [lia|exact Hwf1]. }
      exists (bump winner nd). split; [exact Hn'|].
      split; [apply bump_same|]. split; [intros _; apply bump_counts|].
      intros Hnot. exfalso. apply Hnot. constructor.
    + assert (t1 !! m = Some ndm) as Hm1
        by (unfold t1; rewrite list_lookup_insert_ne by auto; exact Hm).
      destruct (Hspec m ndm Hm1) as (nd' & Hm' & Hsame & Hon & Hoff).
      exists nd'. split; [exact Hm'|]. split; [exact Hsame|]. split.
      * intros Hpath. apply Hon. apply (on_path_ext t t1); [exact Hext|].
        inversion Hpath as [|? nd0 p0 ? Hn0 Hp0 Hrest]; subst; [lia|].
        rewrite En in Hn0. injection Hn0 as <-. congruence.
      * intros Hnot. apply Hoff. intros Hpath. apply Hnot.
        apply (on_path_parent t n nd p m En Ep).
        apply (on_path_ext t1 t); assumption.
  - destruct fuel; cbn [backpropagate]; (exists t1; split; [reflexivity|]).
    all: split; [unfold t1; apply length_insert|].
    all: intros m ndm Hm; destruct (decide (m = n)) as [->|Hne].
    all: try (rewrite En in Hm; injection Hm as <-;
              exists (bump winner nd); split; [exact En1|];
              split; [apply bump_same|]; split; [intros _; apply bump_counts|];
              intros Hnot; exfalso; apply Hnot; constructor).
    all: exists ndm; (split;
           [unfold t1; rewrite list_lookup_insert_ne by auto; exact Hm|]);
         (split; [repeat split|]); (split; [|reflexivity]);
         intros Hpath;
         inversion Hpath as [|? nd0 p0 ? Hn0 Hp0 Hrest]; subst; [lia|];
         rewrite En in Hn0; injection Hn0 as <-; congruence.
Qed.

Lemma path_reaches_root (t : tree) (n : nat) :
  wf_tree t → (n < length t)%nat →
  ∃ root rnd, on_path t n root ∧ t !! root = Some rnd ∧ parent rnd = None.
Proof.
  intros Hwf. induction n as [n IH] using lt_wf_ind. intros Hn.
  destruct (t !! n) as [nd|] eqn:En; [|apply lookup_ge_None in En; lia].
  destruct (parent nd) as [p|] eqn:Ep.
  - assert (p < n)%nat as Hp by (apply (Hwf n nd p); assumption).
    destruct (IH p Hp) as (root & rnd & Hpath & Hroot & Hnone); [lia|].
    exists root, rnd. split; [|split; assumption].
    apply (on_path_parent t n nd p root); assumption.
  - exists n, nd. split; [constructor|split; assumption].
Qed.

(** C4: [backpropagate] from a node [n] with outcome [winner] returns,
    given fuel beyond the depth of [n]; it adds exactly 1 to [visits] at
    [n] and at every ancestor of [n], the root included, and leaves the
    other nodes as they were; on that path it adds exactly 1 to [wins]
    at the nodes [m] for which [winner] is
    [get_next_player m.current_player] and nothing at the others; a draw
    adds to [wins] nowhere. *)
Theorem backpropagate_counts (t : tree) (n fuel : nat)
  (winner : option string) :
  wf_tree t → (n < length t)%nat → (n < fuel)%nat →
  ∃ t',
    backpropagate fuel t (Some n) winner = Ok t'
    ∧ length t' = length t
    ∧ (∃ root rnd,
         on_path t n root ∧ t !! root = Some rnd ∧ parent rnd = None)
    ∧ ∀ m nd, t !! m = Some nd →
        ∃ nd',
          t' !! m = Some nd' ∧ same_node nd' nd
          ∧ (on_path t n m →
             visits nd' = visits nd + 1
             ∧ (winner = Some (get_next_player (current_player nd)) →
                wins nd' = wins nd + 1)
             ∧ (winner ≠ Some (get_next_player (current_player nd)) →
                wins nd' = wins nd))
          ∧ (¬ on_path t n m → visits nd' = visits nd ∧ wins nd' = wins nd)
          ∧ (winner = None → wins nd' = wins nd).
Proof.
  intros Hwf Hn Hfuel.
  destruct (backpropagate_ok n t fuel winner Hwf Hn Hfuel)
    as (t' & Hrun & Hlen & Hspec).
  exists t'. split; [exact Hrun|]. split; [exact Hlen|].
  split; [apply path_reaches_root; assumption|].
  intros m nd Hm. destruct (Hspec m nd Hm) as (nd' & Hm' & Hsame & Hon & Hoff).
  exists nd'. split; [exact Hm'|]. split; [exact Hsame|].
  split; [exact Hon|]. split.
  - intros Hnot. rewrite (Hoff Hnot). split; reflexivity.
  - intros ->.
    assert (on_path t n m ∨ ¬ on_path t n m) as [Hp|Hp].
    { clear -Hwf Hn. revert Hn. induction n as [n IH] using lt_wf_ind.
      intros Hn. destruct (decide (m = n)) as [->|Hne]; [left; constructor|].
      destruct (t !! n) as [nd|] eqn:En; [|apply lookup_ge_None in En; lia].
      destruct (parent nd) as [p|] eqn:Ep.
      - assert (p < n)%nat as Hp by (apply (Hwf n nd p); assumption).
        destruct (IH p Hp) as [Hon|Hoff]; [lia| |].
        + left. apply (on_path_parent t n nd p m); assumption.
        + right. intros Hpath.
          inversion Hpath as [|? nd0 p0 ? Hn0 Hp0 Hrest]; subst;
            [congruence|].
          rewrite En in Hn0. injection Hn0 as <-.
          rewrite Ep in Hp0. injection Hp0 as <-. contradiction.
      - right. intros Hpath.
        inversion Hpath as [|? nd0 p0 ? Hn0 Hp0 Hrest]; subst; [congruence|].
        rewrite En in Hn0. injection Hn0 as <-. congruence. }
    + apply Hon; [exact Hp|discriminate].
    + rewrite (Hoff Hp). reflexivity.
Qed.

Lemma wf_chain_tree : wf_tree chain_tree.
Proof.
  intros n nd p Hn Hp. unfold chain_tree in Hn.
  destruct n as [|[|[|n]]]; simpl in Hn; try discriminate;
    injection Hn as <-; simpl in Hp; try discriminate;
    injection Hp as <-; lia.
Qed.

Lemma backpropagate_counts_witness :
  ∃ t', backpropagate 3 chain_tree (Some 2%nat) (Some "Y") = Ok t'
    ∧ length t' = length chain_tree.
Proof.
  destruct (backpropagate_counts chain_tree 2 3 (Some "Y") wf_chain_tree)
    as (t' & Hrun & Hlen & _).
  - simpl. lia.
  - lia.
  - exists t'. split; assumption.
Defined.

Example backpropagate_chain :
  (fun t => map (fun nd => (visits nd, wins nd)) t)
    <$> backpropagate 3 chain_tree (Some 2%nat) (Some "Y")
  = Ok [(1, 1); (1, 0); (1, 1)]
  ∧ (fun t => map (fun nd => (visits nd, wins nd)) t)
      <$> backpropagate 3 chain_tree (Some 1%nat) None
    = Ok [(1, 0); (1, 0); (0, 0)].
Proof. split; reflexivity. Qed.

(** ** The decision policy *)

Lemma drawn_unit_interval (w : world) : (0 <= drawn w)%Q ∧ (drawn w < 1)%Q.
Proof.
  unfold drawn, Qle, Qlt. cbn [Qnum Qden].
  change (Z.pos (2 ^ 53)) with 9007199254740992.
  change (2 ^ 53) with 9007199254740992.
  pose proof (Z.mod_pos_bound (draws w (draw_pos w)) 9007199254740992).
  lia.
Qed.

(** On the values of [random.random()], a comparison with one of the
    double literals is the comparison with the decimal fraction. *)
Lemma override_test (d : Z) (w : world) :
  ((d =? 1) && Qltb (drawn w) double_0_2)
  || ((d =? 2) && Qltb (drawn w) double_0_15)
  || ((d =? 3) && Qltb (drawn w) double_0_10)
  || ((d =? 4) && Qltb (drawn w) double_0_05) = true
  ↔ below_threshold d (drawn w).
Proof.
  unfold below_threshold, threshold, drawn, Qltb, Qlt.
  unfold double_0_2, double_0_15, double_0_10, double_0_05.
  cbn [Qnum Qden].
  change (Z.pos (2 ^ 53)) with 9007199254740992.
  change (Z.pos (2 ^ 54)) with 18014398509481984.
  change (Z.pos (2 ^ 55)) with 36028797018963968.
  change (Z.pos (2 ^ 56)) with 72057594037927936.
  change (2 ^ 53) with 9007199254740992.
  pose proof (Z.mod_pos_bound (draws w (draw_pos w)) 9007199254740992) as Hk.
  set (k := draws w (draw_pos w) `mod` 9007199254740992) in *.
  rewrite !orb_true_iff, !andb_true_iff, !Z.eqb_eq, !Z.ltb_lt.
  destruct (decide (d = 1)) as [->|H1]; [cbn; lia|].
  destruct (decide (d = 2)) as [->|H2]; [cbn; lia|].
  destruct (decide (d = 3)) as [->|H3]; [cbn; lia|].
  destruct (decide (d = 4)) as [->|H4]; [cbn; lia|].
  assert (match d with
          | 1 => Some (20 # 100) | 2 => Some (15 # 100)
          | 3 => Some (10 # 100) | 4 => Some (5 # 100) | _ => None
          end = None) as ->.
  { destruct d as [|q|q]; try reflexivity.
    destruct q as [[q|q|]|[q|q|]|]; try reflexivity;
      try destruct q; try reflexivity; lia. }
  lia.
Qed.

Lemma random_random_run (w : world) :
  random_random w = Ok (drawn w, after_draw w).
Proof. reflexivity. Qed.

(** C6: [ai_move] draws one value [r] of [random.random()], which lies in
    the interval from 0 to 1, 1 excluded.  When the difficulty is 1, 2,
    3 or 4 and [r] is below its threshold (0.20, 0.15, 0.10, 0.05) the
    result is [random.choice] of the legal columns; in every other case
    at difficulty 5 the tactical check is run and its column, when it
    has one, is the result, and otherwise the result is that of [mcts].
    Difficulty 5 has no random move, and at any other difficulty the
    result does not depend on the tactical check. *)
Theorem ai_move_policy `{FloatOps} (fuel : nat) (b : Board) (p : string)
  (d : Z) (w : world) :
  ((0 <= drawn w)%Q ∧ (drawn w < 1)%Q)
  ∧ (below_threshold d (drawn w) ↔
     (d = 1 ∧ (drawn w < 20 # 100)%Q) ∨ (d = 2 ∧ (drawn w < 15 # 100)%Q)
     ∨ (d = 3 ∧ (drawn w < 10 # 100)%Q) ∨ (d = 4 ∧ (drawn w < 5 # 100)%Q))
  ∧ (below_threshold d (drawn w) →
     ai_move fuel b p d w
     = (lift (get_valid_moves b) ≫= random_choice) (after_draw w))
  ∧ (¬ below_threshold d (drawn w) → d = 5 →
     ai_move fuel b p d w
     = match find_immediate_win_or_block b p with
       | Ok (Some col) => Ok (col, after_draw w)
       | Ok None => mcts fuel b p 300 1%Q (after_draw w)
       | Raise e => Raise e
       | OutOfFuel => OutOfFuel
       end)
  ∧ (¬ below_threshold d (drawn w) → d ≠ 5 →
     ai_move fuel b p d w = mcts fuel b p 300 1%Q (after_draw w))
  ∧ (d = 5 → ¬ below_threshold d (drawn w))
  ∧ (d ≠ 5 → ∀ tactic,
       ai_move_with tactic (mcts fuel) b p d w = ai_move fuel b p d w).
Proof.
  pose proof (override_test d w) as Htest.
  assert (∀ tactic,
    ai_move_with tactic (mcts fuel) b p d w
    = if ((d =? 1) && Qltb (drawn w) double_0_2)
         || ((d =? 2) && Qltb (drawn w) double_0_15)
         || ((d =? 3) && Qltb (drawn w) double_0_10)
         || ((d =? 4) && Qltb (drawn w) double_0_05)
      then (lift (get_valid_moves b) ≫= random_choice) (after_draw w)
      else if d =? 5 then
        match tactic b p with
        | Ok (Some col) => Ok (col, after_draw w)
        | Ok None => mcts fuel b p 300 1%Q (after_draw w)
        | Raise e => Raise e
        | OutOfFuel => OutOfFuel
        end
      else mcts fuel b p 300 1%Q (after_draw w)) as Hrun.
  { intros tactic. unfold ai_move_with. unfold mbind at 1. unfold prog_bind at 1.
    rewrite random_random_run.
    destruct (_ || _); [reflexivity|].
    unfold mbind at 1. unfold prog_bind at 1.
    destruct (d =? 5); [|reflexivity].
    unfold lift. destruct (tactic b p) as [[col|]| |]; reflexivity. }
  split; [apply drawn_unit_interval|]. split.
  { unfold below_threshold, threshold.
    destruct (decide (d = 1)) as [->|H1]; [cbn; intuition lia|].
    destruct (decide (d = 2)) as [->|H2]; [cbn; intuition lia|].
    destruct (decide (d = 3)) as [->|H3]; [cbn; intuition lia|].
    destruct (decide (d = 4)) as [->|H4]; [cbn; intuition lia|].
    assert (match d with
            | 1 => Some (20 # 100) | 2 => Some (15 # 100)
            | 3 => Some (10 # 100) | 4 => Some (5 # 100) | _ => None
            end = None) as ->.
    { destruct d as [|q|q]; try reflexivity.
      destruct q as [[q|q|]|[q|q|]|]; try reflexivity;
        try destruct q; try reflexivity; lia. }
    intuition lia. }
  unfold ai_move. split.
  { intros Hb. rewrite Hrun. apply Htest in Hb. rewrite Hb. reflexivity. }
  split.
  { intros Hb ->. rewrite Hrun.
    destruct (_ || _) eqn:E; [exfalso; apply Hb, Htest; reflexivity|].
    reflexivity. }
  split.
  { intros Hb Hd. rewrite Hrun.
    destruct (_ || _) eqn:E; [exfalso; apply Hb, Htest; reflexivity|].
    destruct (Z.eqb_spec d 5); [contradiction|reflexivity]. }
  split.
  { intros ->. unfold below_threshold. cbn. auto. }
  intros Hd tactic. rewrite !Hrun.
  destruct (Z.eqb_spec d 5); [contradiction|reflexivity].
Qed.

Example ai_move_runs :
  run (@ai_move xrat_ops 100 empty_board "R" 5) sample_world = Ok 6
  ∧ run (@ai_move xrat_ops 100 empty_board "R" 1) sample_world = Ok 4
  ∧ run (@ai_move xrat_ops 100 threat_board "R" 5) sample_world = Ok 3.
Proof. repeat split; vm_compute; reflexivity. Qed.

(** ** The search driver *)

Lemma backpropagate_same (fuel : nat) :
  ∀ (t t' : tree) (node : option nat) (winner : option string),
    backpropagate fuel t node winner = Ok t' →
    ∀ i nd, t !! i = Some nd → ∃ nd', t' !! i = Some nd' ∧ same_node nd' nd.
Proof.
  induction fuel as [|fuel IH]; intros t t' node winner Hrun i nd Hi.
  - destruct node; [discriminate|]. injection Hrun as <-.
    exists nd. split; [exact Hi|repeat split].
  - destruct node as [n|];
      [|injection Hrun as <-; exists nd; split; [exact Hi|repeat split]].
    destruct (t !! n) as [ndn|] eqn:En.
    + rewrite (backpropagate_step _ _ _ _ _ En) in Hrun.
      destruct (decide (i = n)) as [->|Hne].
      * rewrite En in Hi. injection Hi as <-.
        destruct (IH _ _ _ _ Hrun n (bump winner ndn)) as (nd' & Hn' & Hs).
        { apply list_lookup_insert_eq. eapply lookup_lt_Some, En. }
        exists nd'. split; [exact Hn'|].
        pose proof (bump_same winner ndn) as Hb. unfold same_node in *.
        intuition congruence.
      * apply (IH _ _ _ _ Hrun).
        rewrite list_lookup_insert_ne by auto. exact Hi.
    + cbn [backpropagate] in Hrun. unfold get_node in Hrun.
      rewrite En in Hrun. discriminate.
Qed.

Lemma py_pop_last {A} (l : list A) (x : A) (rest : list A) :
  py_pop l = Ok (x, rest) → x ∈ l ∧ ∀ y, y ∈ rest → y ∈ l.
Proof.
  unfold py_pop. destruct (reverse l) as [|x0 l0] eqn:Er; [discriminate|].
  intros [= <- <-]. split.
  - apply elem_of_reverse. rewrite Er. left.
  - intros y Hy. exact (subseteq_take _ _ y Hy).
Qed.

Lemma new_node_fields (b : Board) (p : string) (par : option nat)
  (nd : MCTSNode) :
  new_node b p par = Ok nd →
  board nd = b ∧ current_player nd = p ∧ children nd = []
  ∧ get_valid_moves b = Ok (untried_moves nd).
Proof.
  unfold new_node. intros Hn. apply bind_Ok in Hn as (moves & Hm & Hn).
  injection Hn as <-. repeat split. exact Hm.
Qed.

(** What [expand_node] does to the tree: the expanded node loses an
    untried move and gains as last child a new node, which holds the
    board after that move; the other nodes stay as they are. *)
Lemma expand_node_spec (t t' : tree) (node child : nat) :
  expand_node t node = Ok (child, t') →
  ∃ nd move cn,
    t !! node = Some nd ∧ move ∈ untried_moves nd
    ∧ child = length t ∧ t' !! child = Some cn
    ∧ make_move (board nd) move (current_player nd) = Ok (board cn)
    ∧ (∃ nd', t' !! node = Some nd' ∧ board nd' = board nd
         ∧ current_player nd' = current_player nd
         ∧ children nd' = children nd ++ [child]
         ∧ ∀ m, m ∈ untried_moves nd' → m ∈ untried_moves nd)
    ∧ ∀ i, i ≠ node → (i < length t)%nat → t' !! i = t !! i.
Proof.
  unfold expand_node. intros Hrun.
  apply bind_Ok in Hrun as (nd & Hnd & Hrun).
  apply bind_Ok in Hrun as ([move rest] & Hpop & Hrun).
  cbv zeta in Hrun. unfold set_untried_moves, set_children in Hrun.
  cbn [board current_player children untried_moves] in Hrun.
  apply bind_Ok in Hrun as (new_board & Hmv & Hrun).
  apply bind_Ok in Hrun as (cn & Hnew & Hrun).
  injection Hrun as <- <-.
  unfold get_node in Hnd. destruct (t !! node) as [nd0|] eqn:En;
    [|discriminate]. injection Hnd as ->.
  apply py_pop_last in Hpop as [Hmove Hrest].
  apply new_node_fields in Hnew as (Hb & _).
  pose proof (lookup_lt_Some _ _ _ En) as Hlt.
  exists nd, move, cn. split; [reflexivity|]. split; [exact Hmove|].
  rewrite length_insert. split; [reflexivity|]. split.
  { rewrite list_lookup_insert_ne by lia.
    rewrite lookup_app_r by (rewrite length_insert; lia).
    rewrite length_insert, Nat.sub_diag. reflexivity. }
  split; [congruence|]. split.
  { eexists. split.
    - apply list_lookup_insert_eq. rewrite length_app, length_insert. lia.
    - cbn. repeat split. exact Hrest. }
  intros i Hi Hil. rewrite list_lookup_insert_ne by auto.
  rewrite lookup_app_l by (rewrite length_insert; exact Hil).
  apply list_lookup_insert_ne. auto.
Qed.

Lemma root_inv_expand (root_board : Board) (player : string)
  (moves : list Z) (t t' : tree) (node child : nat) :
  root_inv root_board player moves t →
  expand_node t node = Ok (child, t') →
  root_inv root_board player moves t'.
Proof.
  intros (root & Hroot & Hb & Hp & Hunt & Hch) Hexp.
  apply expand_node_spec in Hexp
    as (nd & move & cn & Hnd & Hmove & -> & Hcn & Hmv
        & (nd' & Hnd' & Hb' & Hp' & Hch' & Hunt') & Hother).
  assert (∀ c cn0, t !! c = Some cn0 →
            ∃ cn1, t' !! c = Some cn1 ∧ board cn1 = board cn0) as Hkeep.
  { intros c cn0 Hc. destruct (decide (c = node)) as [->|Hne].
    - exists nd'. split; [exact Hnd'|]. congruence.
    - exists cn0. split; [|reflexivity].
      rewrite Hother; [exact Hc|exact Hne|eapply lookup_lt_Some, Hc]. }
  assert (Forall (fun c => ∃ cn1 m, t' !! c = Some cn1 ∧ m ∈ moves
            ∧ make_move root_board m player = Ok (board cn1))
            (children root)) as Hold.
  { eapply Forall_impl; [exact Hch|]. cbn.
    intros c (cn0 & m & Hc & Hm & Hmk).
    destruct (Hkeep c cn0 Hc) as (cn1 & Hc1 & Hb1).
    exists cn1, m. split; [exact Hc1|]. split; [exact Hm|]. congruence. }
  destruct (decide (node = 0%nat)) as [->|Hne].
  - rewrite Hroot in Hnd. injection Hnd as <-.
    exists nd'. split; [exact Hnd'|]. split; [congruence|].
    split; [congruence|]. split.
    + rewrite Forall_forall in Hunt |- *. intros m Hm. apply Hunt, Hunt', Hm.
    + rewrite Hch'. apply Forall_app. split; [exact Hold|].
      constructor; [|constructor].
      exists cn, move. split; [exact Hcn|]. split.
      * rewrite Forall_forall in Hunt. apply Hunt, Hmove.
      * rewrite <- Hb, <- Hp. exact Hmv.
  - exists root. split.
    + rewrite Hother; [exact Hroot|auto|eapply lookup_lt_Some, Hroot].
    + repeat split; assumption.
Qed.

Lemma root_inv_backpropagate (root_board : Board) (player : string)
  (moves : list Z) (t t' : tree) (fuel : nat) (node : option nat)
  (winner : option string) :
  root_inv root_board player moves t →
  backpropagate fuel t node winner = Ok t' →
  root_inv root_board player moves t'.
Proof.
  intros (root & Hroot & Hb & Hp & Hunt & Hch) Hrun.
  pose proof (backpropagate_same _ _ _ _ _ Hrun) as Hsame.
  destruct (Hsame _ _ Hroot) as (root' & Hroot' & Hb' & Hp' & _ & Hc' & Hu').
  exists root'. split; [exact Hroot'|]. split; [congruence|].
  split; [congruence|]. rewrite Hu', Hc'. split; [exact Hunt|].
  eapply Forall_impl; [exact Hch|]. cbn.
  intros c (cn0 & m & Hc & Hm & Hmk).
  destruct (Hsame _ _ Hc) as (cn1 & Hc1 & Hb1 & _).
  exists cn1, m. split; [exact Hc1|]. split; [exact Hm|]. congruence.
Qed.

Lemma prog_bind_Ok {A B} (m : prog A) (f : A → prog B) (w w' : world)
  (b : B) :
  (m ≫= f) w = Ok (b, w') ↔ ∃ a w1, m w = Ok (a, w1) ∧ f a w1 = Ok (b, w').
Proof.
  unfold mbind, prog_bind. destruct (m w) as [[a w1]| |]; split.
  - intros Hf. exists a, w1. split; [reflexivity|exact Hf].
  - intros (a' & w2 & [= <- <-] & Hf). exact Hf.
  - discriminate.
  - intros (a' & w2 & Ha & _). discriminate.
  - discriminate.
  - intros (a' & w2 & Ha & _). discriminate.
Qed.

Lemma lift_Ok {A} (m : result A) (w w' : world) (a : A) :
  lift m w = Ok (a, w') ↔ m = Ok a ∧ w' = w.
Proof.
  unfold lift. destruct m as [a0| |]; split.
  - intros [= <- <-]. split; reflexivity.
  - intros [[= <-] ->]. reflexivity.
  - discriminate.
  - intros [Ha _]. discriminate.
  - discriminate.
  - intros [Ha _]. discriminate.
Qed.

Section SearchProperties.

Context `{FloatOps}.

Lemma root_inv_iteration (root_board : Board) (player : string)
  (moves : list Z) (t t' : tree) (w w' : world) :
  root_inv root_board player moves t →
  mcts_iteration t w = Ok (t', w') →
  root_inv root_board player moves t'.
Proof.
  intros Hinv Hrun. unfold mcts_iteration in Hrun.
  apply prog_bind_Ok in Hrun as (node & w1 & _ & Hrun).
  apply prog_bind_Ok in Hrun as (nd & w2 & _ & Hrun).
  apply prog_bind_Ok in Hrun as ([node' t1] & w3 & Hexp & Hrun).
  apply prog_bind_Ok in Hrun as (nd' & w4 & _ & Hrun).
  apply prog_bind_Ok in Hrun as (winner & w5 & _ & Hrun).
  apply lift_Ok in Hrun as [Hbp _].
  apply (root_inv_backpropagate root_board player moves t1) in Hbp;
    [exact Hbp|].
  destruct (untried_moves nd).
  - injection Hexp as <- <- <-. exact Hinv.
  - apply lift_Ok in Hexp as [Hexp _].
    eapply root_inv_expand; eassumption.
Qed.

Lemma root_inv_loop (root_board : Board) (player : string)
  (moves : list Z) (start limit : Q) (fuel : nat) :
  ∀ (t t' : tree) (w w' : world),
    root_inv root_board player moves t →
    mcts_loop fuel start limit t w = Ok (t', w') →
    root_inv root_board player moves t'.
Proof.
  induction fuel as [|fuel IH]; intros t t' w w' Hinv Hrun; [discriminate|].
  cbn [mcts_loop] in Hrun.
  apply prog_bind_Ok in Hrun as (now & w1 & _ & Hrun).
  destruct (Qltb _ _).
  - apply prog_bind_Ok in Hrun as (t1 & w2 & Hit & Hrun).
    apply (IH t1 t' w2 w'); [|exact Hrun].
    eapply root_inv_iteration; eassumption.
  - injection Hrun as <- <-. exact Hinv.
Qed.

Lemma root_inv_mcts_tree (root_board : Board) (player : string)
  (limit : Q) (fuel : nat) (t : tree) (w w' : world) :
  mcts_tree fuel root_board player limit w = Ok (t, w') →
  ∃ moves, get_valid_moves root_board = Ok moves
    ∧ root_inv root_board player moves t.
Proof.
  unfold mcts_tree. intros Hrun.
  apply prog_bind_Ok in Hrun as (start & w1 & _ & Hrun).
  apply prog_bind_Ok in Hrun as (root & w2 & Hnew & Hrun).
  apply lift_Ok in Hnew as [Hnew _].
  apply new_node_fields in Hnew as (Hb & Hp & Hc & Hm).
  exists (untried_moves root). split; [exact Hm|].
  eapply root_inv_loop; [|exact Hrun].
  exists root. split; [reflexivity|]. split; [exact Hb|]. split; [exact Hp|].
  split; [apply Forall_forall; auto|]. rewrite Hc. constructor.
Qed.

End SearchProperties.

Lemma max_loop (t : tree) (rest : list nat) :
  ∀ (pre : list nat) (best i : nat) (bn : MCTSNode),
    Forall (fun c => ∃ cn, t !! c = Some cn) rest →
    pre !! i = Some best → t !! best = Some bn →
    (∀ j c cn, pre !! j = Some c → t !! c = Some cn →
       visits cn ≤ visits bn ∧ ((j < i)%nat → visits cn < visits bn)) →
    ∃ best',
      for_each rest
        (fun c '(best, best_key) =>
           nd ← get_node t c;
           if best_key <? visits nd then Ok (c, visits nd)
           else Ok (best, best_key))
        (best, visits bn)
      = Ok (best', match t !! best' with Some bn' => visits bn' | None => 0 end)
      ∧ first_most_visited t (pre ++ rest) best'.
Proof.
  induction rest as [|c rest IH]; intros pre best i bn Hall Hi Hbn Hmax.
  - exists best. cbn [for_each]. rewrite Hbn. split; [reflexivity|].
    exists i, bn. rewrite app_nil_r. repeat split; try assumption;
      eapply Hmax; eassumption.
  - apply Forall_cons in Hall as [(cn & Hc) Hall].
    assert (get_node t c = Ok cn) as Hgc
      by (unfold get_node; rewrite Hc; reflexivity).
    cbn [for_each]. rewrite Hgc. cbn [mbind result_bind].
    pose proof (lookup_lt_Some _ _ _ Hi) as Hlt.
    destruct (Z.ltb_spec (visits bn) (visits cn)) as [Hgt|Hle].
    + destruct (IH (pre ++ [c]) c (length pre) cn Hall) as (best' & Hrun & Hf).
      * rewrite lookup_app_r, Nat.sub_diag by lia. reflexivity.
      * exact Hc.
      * intros j c' cn' Hj Hc'.
        destruct (decide (j < length pre)%nat) as [Hjl|Hjl].
        -- rewrite lookup_app_l in Hj by exact Hjl.
           destruct (Hmax j c' cn' Hj Hc') as [Hle _]. split; intros; lia.
        -- rewrite lookup_app_r in Hj by lia.
           destruct (j - length pre)%nat eqn:Ej; [|destruct n; discriminate].
           injection Hj as <-. rewrite Hc in Hc'. injection Hc' as <-.
           split; intros; lia.
      * exists best'. rewrite <- app_assoc in Hf. split; [exact Hrun|exact Hf].
    + destruct (IH (pre ++ [c]) best i bn Hall) as (best' & Hrun & Hf).
      * rewrite lookup_app_l by exact Hlt. exact Hi.
      * exact Hbn.
      * intros j c' cn' Hj Hc'.
        destruct (decide (j < length pre)%nat) as [Hjl|Hjl].
        -- rewrite lookup_app_l in Hj by exact Hjl.
           apply (Hmax j c' cn' Hj Hc').
        -- rewrite lookup_app_r in Hj by lia.
           destruct (j - length pre)%nat eqn:Ej; [|destruct n; discriminate].
           injection Hj as <-. rewrite Hc in Hc'. injection Hc' as <-.
           split; intros; lia.
      * exists best'. rewrite <- app_assoc in Hf. split; [exact Hrun|exact Hf].
Qed.

Lemma max_by_visits_spec (t : tree) (cs : list nat) :
  Forall (fun c => ∃ cn, t !! c = Some cn) cs → cs ≠ [] →
  ∃ best, max_by_visits t cs = Ok (Some best) ∧ first_most_visited t cs best.
Proof.
  intros Hall Hne. destruct cs as [|c cs]; [contradiction|].
  apply Forall_cons in Hall as [(cn & Hc) Hall].
  assert (get_node t c = Ok cn) as Hgc
    by (unfold get_node; rewrite Hc; reflexivity).
  unfold max_by_visits. rewrite Hgc. cbn [mbind result_bind].
  destruct (max_loop t cs [c] c 0%nat cn Hall) as (best & Hrun & Hf).
  - reflexivity.
  - exact Hc.
  - intros j c' cn' Hj Hc'. destruct j; [|discriminate].
    injection Hj as <-. rewrite Hc in Hc'. injection Hc' as <-.
    split; intros; lia.
  - exists best. rewrite Hrun. split; [reflexivity|exact Hf].
Qed.

Lemma find_Some_elem {A} (g : A → bool) (l : list A) (x : A) :
  x ∈ l → g x = true → ∃ y, find g l = Some y ∧ y ∈ l ∧ g y = true.
Proof.
  intros Hin Hg. destruct (find g l) as [y|] eqn:E.
  - exists y. apply find_some in E as [Hy Hgy].
    split; [reflexivity|]. split; [apply list_elem_of_In, Hy|exact Hgy].
  - apply list_elem_of_In in Hin.
    pose proof (find_none g l E x Hin). congruence.
Qed.

Lemma leads_to_unique (b : Board) (p : string) (target : Board)
  (c1 c2 : Z) :
  wf_board b → p ≠ "." →
  0 ≤ c1 < COLS → cell b 0 c1 = "." → 0 ≤ c2 < COLS → cell b 0 c2 = "." →
  make_move b c1 p = Ok target → make_move b c2 p = Ok target → c1 = c2.
Proof.
  intros Hwf Hp Hc1 Ht1 Hc2 Ht2 Hm1 Hm2.
  destruct (make_move_valid b c1 p Hwf Hc1 Ht1) as (r1 & Hl1 & Hv1).
  destruct (make_move_valid b c2 p Hwf Hc2 Ht2) as (r2 & Hl2 & Hv2).
  rewrite Hv1 in Hm1. rewrite Hv2 in Hm2.
  injection Hm1 as Hm1. injection Hm2 as Hm2.
  destruct (decide (c1 = c2)) as [|Hne]; [assumption|exfalso].
  assert (in_grid r1 c1) as Hg1 by (split; [apply Hl1|exact Hc1]).
  assert (in_grid r2 c2) as Hg2 by (split; [apply Hl2|exact Hc2]).
  assert (cell target r1 c1 = p) as Hp1.
  { rewrite <- Hm1, cell_set_cell by assumption.
    rewrite decide_True by auto. reflexivity. }
  rewrite <- Hm2, cell_set_cell in Hp1 by assumption.
  rewrite decide_False in Hp1 by tauto.
  destruct Hl1 as (_ & He & _). congruence.
Qed.

Lemma mcts_finish_no_children (t : tree) (root : MCTSNode)
  (root_board : Board) (player : string) (w : world) :
  t !! 0%nat = Some root → children root = [] →
  mcts_finish t root_board player w
  = (lift (get_valid_moves root_board) ≫= random_choice) w.
Proof.
  intros Hroot Hnil. unfold mcts_finish, get_node. rewrite Hroot.
  unfold mbind at 1. unfold prog_bind at 1. unfold lift at 1.
  rewrite Hnil. reflexivity.
Qed.

Lemma mcts_finish_children (t : tree) (root : MCTSNode) (root_board : Board)
  (player : string) (moves : list Z) (w : world) :
  wf_board root_board → get_valid_moves root_board = Ok moves →
  root_inv root_board player moves t →
  t !! 0%nat = Some root → children root ≠ [] →
  ∃ col best bn,
    mcts_finish t root_board player w = Ok (col, w)
    ∧ first_most_visited t (children root) best ∧ t !! best = Some bn
    ∧ col ∈ moves ∧ make_move root_board col player = Ok (board bn).
Proof.
  intros Hwf Hmoves (root' & Hroot' & Hb & Hp & Hunt & Hch) Hroot Hne.
  rewrite Hroot in Hroot'. injection Hroot' as <-.
  destruct (max_by_visits_spec t (children root)) as (best & Hmax & Hfirst);
    [|exact Hne|].
  { eapply Forall_impl; [exact Hch|]. cbn. intros c (cn & _ & Hc & _). eauto. }
  destruct Hfirst as (i & bn & Hi & Hbn & Hgreatest).
  rewrite Forall_forall in Hch.
  destruct (Hch best) as (bn' & m & Hbn' & Hm & Hmk);
    [eapply list_elem_of_lookup_2, Hi|].
  rewrite Hbn in Hbn'. injection Hbn' as <-.
  destruct (find_Some_elem (leads_to root_board player (board bn)) moves m Hm)
    as (col & Hfind & Hcol & Hleads).
  { unfold leads_to. rewrite Hmk. apply bool_decide_eq_true. reflexivity. }
  exists col, best, bn.
  split; [|split; [exists i, bn; auto|split; [exact Hbn|split; [exact Hcol|]]]].
  - unfold mcts_finish, get_node. rewrite Hroot.
    unfold mbind at 1. unfold prog_bind at 1. unfold lift at 1.
    rewrite Hmax.
    unfold mbind at 1. unfold prog_bind at 1. unfold lift at 1.
    rewrite Hbn.
    unfold mbind at 1. unfold prog_bind at 1. unfold lift at 1.
    rewrite Hmoves.
    unfold mbind at 1. unfold prog_bind at 1. unfold lift at 1.
    rewrite (for_find_ok moves _ (leads_to root_board player (board bn))).
    + unfold mbind at 1. unfold prog_bind at 1. unfold lift at 1.
      rewrite Hfind. reflexivity.
    + intros c Hc. unfold leads_to.
      rewrite get_valid_moves_wf in Hmoves by assumption.
      injection Hmoves as <-. apply elem_of_valid_moves in Hc as [Hc _].
      rewrite make_move_wf by assumption. reflexivity.
  - unfold leads_to in Hleads.
    destruct (make_move root_board col player) as [cand| |];
      try discriminate.
    apply bool_decide_eq_true in Hleads. congruence.
Qed.

Section Driver.

Context `{FloatOps}.

(** C7: once the loop of [mcts] has ended in a tree [t], if the root has
    children the result is the column, the only one for a player's
    piece, that leads from the root board to the board of the first
    child with the greatest [visits]; if the root has no child the
    result is [random.choice] of the legal columns, one of them when
    there is any. *)
Theorem mcts_returns_most_visited (fuel : nat) (root_board : Board)
  (player : string) (simulations : Z) (time_limit : Q) (w w1 : world)
  (t : tree) :
  wf_board root_board →
  mcts_tree fuel root_board player time_limit w = Ok (t, w1) →
  ∃ root moves,
    t !! 0%nat = Some root ∧ get_valid_moves root_board = Ok moves
    ∧ (children root ≠ [] →
       ∃ col best bn,
         mcts fuel root_board player simulations time_limit w = Ok (col, w1)
         ∧ first_most_visited t (children root) best ∧ t !! best = Some bn
         ∧ col ∈ moves ∧ make_move root_board col player = Ok (board bn)
         ∧ (player ≠ "." → ∀ col', col' ∈ moves →
              make_move root_board col' player = Ok (board bn) → col' = col))
    ∧ (children root = [] →
       mcts fuel root_board player simulations time_limit w
       = (lift (get_valid_moves root_board) ≫= random_choice) w1
       ∧ (moves ≠ [] →
          ∃ col w2,
            mcts fuel root_board player simulations time_limit w
            = Ok (col, w2) ∧ col ∈ moves)).
Proof.
  intros Hwf Htree.
  destruct (root_inv_mcts_tree _ _ _ _ _ _ _ Htree) as (moves & Hmoves & Hinv).
  assert (mcts fuel root_board player simulations time_limit w
          = mcts_finish t root_board player w1) as Hmcts.
  { unfold mcts, mbind, prog_bind. rewrite Htree. reflexivity. }
  pose proof Hinv as (root & Hroot & _).
  exists root, moves. split; [exact Hroot|]. split; [exact Hmoves|]. split.
  - intros Hne.
    destruct (mcts_finish_children t root root_board player moves w1
                Hwf Hmoves Hinv Hroot Hne)
      as (col & best & bn & Hrun & Hfirst & Hbn & Hcol & Hmk).
    exists col, best, bn. rewrite Hmcts.
    split; [exact Hrun|]. split; [exact Hfirst|]. split; [exact Hbn|].
    split; [exact Hcol|]. split; [exact Hmk|].
    intros Hp col' Hcol' Hmk'.
    rewrite get_valid_moves_wf in Hmoves by assumption.
    injection Hmoves as <-.
    apply elem_of_valid_moves in Hcol as [Hc Ht].
    apply elem_of_valid_moves in Hcol' as [Hc' Ht'].
    eapply leads_to_unique; eassumption.
  - intros Hnil. rewrite Hmcts.
    rewrite (mcts_finish_no_children t root) by assumption.
    split; [reflexivity|]. intros Hne.
    destruct (random_choice_elem moves w1 Hne) as (col & w2 & Hch & Hin).
    exists col, w2. split; [|exact Hin].
    unfold mbind, prog_bind, lift. rewrite Hmoves. exact Hch.
Qed.

End Driver.

Lemma mcts_returns_most_visited_witness :
  ∃ t w1 root,
    mcts_tree (H := xrat_ops) 100 empty_board "R" 1%Q sample_world
    = Ok (t, w1)
    ∧ t !! 0%nat = Some root.
Proof.
  destruct (mcts_tree (H := xrat_ops) 100 empty_board "R" 1%Q sample_world)
    as [[t w1]| |] eqn:E; [|vm_compute in E; discriminate..].
  destruct (mcts_returns_most_visited (H := xrat_ops) 100 empty_board "R"
              500 1%Q sample_world w1 t wf_empty_board E)
    as (root & moves & Hroot & _).
  exists t, w1, root. split; [reflexivity|exact Hroot].
Defined.

Example mcts_sample_run :
  run (mcts (H := xrat_ops) 100 empty_board "R" 500 1%Q) sample_world = Ok 6
  ∧ (fun t => map (fun nd => (children nd, visits nd)) t)
      <$> run (mcts_tree (H := xrat_ops) 100 empty_board "R" 1%Q) sample_world
    = Ok [([1; 2; 3]%nat, 3); ([], 1); ([], 1); ([], 1)].
Proof. split; vm_compute; reflexivity. Qed.

(** ** Instances on sample boards *)

Lemma check_winner_iff_four_in_line_witness :
  wf_board threat_board
  ∧ ∃ v, check_winner threat_board "R" = Ok v
      ∧ (v = true ↔ four_in_line threat_board "R").
Proof.
  assert (wf_board threat_board) as Hwf
    by (split; [reflexivity|repeat constructor]).
  split; [exact Hwf|].
  apply (check_winner_iff_four_in_line threat_board "R" Hwf).
Defined.

Lemma reachable_full_column_board : reachable full_column_board.
Proof.
  assert (∀ b p, reachable b → is_player p → cell b 0 0 = "." →
            reachable (match make_move b 0 p with Ok b' => b' | _ => b end))
    as Hstep.
  { intros b p Hr Hp Htop.
    destruct (reachable_wf_gravity b Hr) as [Hwf _].
    destruct (make_move b 0 p) as [b'| |] eqn:Hmv; try exact Hr.
    apply (reachable_move b 0 p b' _ Hr (get_valid_moves_wf b Hwf));
      [|exact Hp|exact Hmv].
    apply elem_of_valid_moves. unfold COLS. split; [lia|exact Htop]. }
  pose proof reachable_empty as Hr.
  apply (Hstep _ "R") in Hr; [|left; reflexivity|reflexivity].
  apply (Hstep _ "Y") in Hr; [|right; reflexivity|reflexivity].
  apply (Hstep _ "R") in Hr; [|left; reflexivity|reflexivity].
  apply (Hstep _ "Y") in Hr; [|right; reflexivity|reflexivity].
  apply (Hstep _ "R") in Hr; [|left; reflexivity|reflexivity].
  apply (Hstep _ "Y") in Hr; [|right; reflexivity|reflexivity].
  exact Hr.
Qed.

Lemma make_move_full_column_unchanged_witness :
  make_move full_column_board 0 "Y" = Ok full_column_board.
Proof.
  apply (make_move_full_column_unchanged full_column_board 0 "Y").
  - exact wf_full_column_board.
  - apply reachable_wf_gravity, reachable_full_column_board.
  - unfold COLS. lia.
  - discriminate.
Defined.

Lemma ai_move_policy_witness :
  run (ai_move (H := xrat_ops) 100 empty_board "R" 3) sample_world
  = run (lift (get_valid_moves empty_board) ≫= random_choice)
      (after_draw sample_world).
Proof.
  destruct (ai_move_policy (H := xrat_ops) 100 empty_board "R" 3 sample_world)
    as (_ & _ & Hrand & _).
  unfold run. rewrite Hrand; [reflexivity|].
  vm_compute. reflexivity.
Defined.

(** ** Fuel

    The fuel that the model gives to the loops inside one pass of the
    search is enough: a pass ends, with a tree or with an exception. *)

Lemma decides_bind {A B} (m : result A) (f : A → result B) :
  decides m → (∀ a, m = Ok a → decides (f a)) → decides (m ≫= f).
Proof.
  unfold decides. destruct m as [a| |]; cbn [mbind result_bind]; intros Hm Hf.
  - apply Hf. reflexivity.
  - discriminate.
  - contradiction.
Qed.

Lemma decides_get_node (t : tree) (n : nat) : decides (get_node t n).
Proof. unfold decides, get_node. destruct (t !! n); discriminate. Qed.

Lemma decides_for_each {S A} (xs : list A) (body : A → S → result S) :
  (∀ x s, decides (body x s)) → ∀ s, decides (for_each xs body s).
Proof.
  intros Hb. induction xs as [|x xs IH]; intros s; [discriminate|].
  cbn [for_each]. apply decides_bind; [apply Hb|]. intros s' _. apply IH.
Qed.

Lemma tree_ok_wf_tree (t : tree) : tree_ok t → wf_tree t.
Proof. intros Hok n nd p Hn Hp. apply (Hok n nd Hn). exact Hp. Qed.

Lemma backpropagate_length (fuel : nat) :
  ∀ (t t' : tree) (node : option nat) (winner : option string),
    backpropagate fuel t node winner = Ok t' → length t' = length t.
Proof.
  induction fuel as [|fuel IH]; intros t t' node winner Hrun.
  - destruct node; [discriminate|]. injection Hrun as <-. reflexivity.
  - destruct node as [n|]; [|injection Hrun as <-; reflexivity].
    destruct (t !! n) as [ndn|] eqn:En.
    + rewrite (backpropagate_step _ _ _ _ _ En) in Hrun.
      apply IH in Hrun. rewrite Hrun. apply length_insert.
    + cbn [backpropagate] in Hrun. unfold get_node in Hrun.
      rewrite En in Hrun. discriminate.
Qed.

Lemma tree_ok_backpropagate (fuel : nat) (t t' : tree) (node : option nat)
  (winner : option string) :
  tree_ok t → backpropagate fuel t node winner = Ok t' → tree_ok t'.
Proof.
  intros Hok Hrun n nd' Hn'.
  pose proof (backpropagate_length _ _ _ _ _ Hrun) as Hlen.
  pose proof (backpropagate_same _ _ _ _ _ Hrun) as Hsame.
  destruct (t !! n) as [nd|] eqn:En.
  - destruct (Hsame n nd En) as (nd1 & Hn1 & Hb & Hp & Hpar & Hc & Hu).
    rewrite Hn' in Hn1. injection Hn1 as <-.
    rewrite Hb, Hp, Hpar, Hc, Hu, Hlen. apply (Hok n nd En).
  - apply lookup_ge_None in En. apply lookup_lt_Some in Hn'. lia.
Qed.

Section FuelOfSearch.

Context `{FloatOps}.

Lemma decides_uct_value (t : tree) (n : nat) : decides (uct_value t n).
Proof.
  unfold uct_value. apply decides_bind; [apply decides_get_node|].
  intros nd _. destruct (visits nd =? 0); [discriminate|].
  destruct (parent nd); [|discriminate].
  apply decides_bind; [apply decides_get_node|].
  intros pn _. destruct (uct_expr _ _ _); discriminate.
Qed.

Lemma best_child_elem (t : tree) (n c : nat) :
  best_child t n = Ok (Some c) →
  ∃ nd, t !! n = Some nd ∧ c ∈ children nd.
Proof.
  unfold best_child. intros Hrun.
  apply bind_Ok in Hrun as (nd & Hnd & Hrun).
  apply bind_Ok in Hrun as ([best u] & Hloop & Hrun).
  injection Hrun as ->. unfold get_node in Hnd.
  destruct (t !! n) as [nd0|]; [|discriminate]. injection Hnd as ->.
  exists nd. split; [reflexivity|].
  assert (∀ cs b0 u0 b1 u1,
    for_each cs
      (fun child '(best, best_uct) =>
         uct_val ← uct_value t child;
         if float_gt uct_val best_uct then Ok (Some child, uct_val)
         else Ok (best, best_uct)) (b0, u0) = Ok (b1, u1) →
    b1 = b0 ∨ ∃ c', b1 = Some c' ∧ c' ∈ cs) as Hgen.
  { induction cs as [|x cs IH]; intros b0 u0 b1 u1 Hfe.
    - injection Hfe as <- <-. left. reflexivity.
    - cbn [for_each] in Hfe. apply bind_Ok in Hfe as ([b2 u2] & Hbody & Hfe).
      apply bind_Ok in Hbody as (uv & _ & Hbody).
      apply IH in Hfe as [->|(c' & -> & Hin)].
      + destruct (float_gt uv u0); injection Hbody as <- <-.
        * right. exists x. split; [reflexivity|left].
        * left. reflexivity.
      + right. exists c'. split; [reflexivity|right; exact Hin]. }
  apply Hgen in Hloop as [Hnone|(c' & [= <-] & Hin)];
    [discriminate|exact Hin].
Qed.

Lemma decides_best_child (t : tree) (n : nat) : decides (best_child t n).
Proof.
  unfold best_child. apply decides_bind; [apply decides_get_node|].
  intros nd _. apply decides_bind; [|discriminate].
  apply decides_for_each. intros x [b u].
  apply decides_bind; [apply decides_uct_value|].
  intros uv _. destruct (float_gt uv u); discriminate.
Qed.

Lemma select_node_decides (t : tree) (fuel : nat) :
  tree_ok t →
  ∀ n, (n < length t)%nat → (length t - n ≤ fuel)%nat →
    decides (select_node fuel t (Some n))
    ∧ ∀ m, select_node fuel t (Some n) = Ok m → (m < length t)%nat.
Proof.
  intros Hok. induction fuel as [|fuel IH]; intros n Hn Hfuel; [lia|].
  destruct (t !! n) as [nd|] eqn:En; [|apply lookup_ge_None in En; lia].
  cbn [select_node]. unfold get_node. rewrite En. cbn [mbind result_bind].
  destruct (untried_moves nd) as [|m0 ms];
    [|split; [discriminate|intros m [= <-]; exact Hn]].
  destruct (children nd) as [|c0 cs] eqn:Ec;
    [split; [discriminate|intros m [= <-]; exact Hn]|].
  destruct (best_child t n) as [[c|]| |] eqn:Eb; cbn [mbind result_bind].
  - apply best_child_elem in Eb as (nd' & En' & Hc).
    rewrite En in En'. injection En' as <-.
    destruct (Hok n nd En) as (_ & Hch & _).
    rewrite Forall_forall in Hch. specialize (Hch c Hc).
    apply IH; lia.
  - destruct fuel; split; discriminate.
  - split; discriminate.
  - exfalso. exact (decides_best_child t n Eb).
Qed.

End FuelOfSearch.

Lemma tree_ok_expand (t t' : tree) (node child : nat) :
  tree_ok t → expand_node t node = Ok (child, t') →
  tree_ok t' ∧ (child < length t')%nat.
Proof.
  intros Hok Hrun. unfold expand_node in Hrun.
  apply bind_Ok in Hrun as (nd & Hnd & Hrun).
  apply bind_Ok in Hrun as ([move rest] & Hpop & Hrun).
  cbv zeta in Hrun. unfold set_untried_moves, set_children in Hrun.
  cbn [board current_player children untried_moves parent wins visits]
    in Hrun.
  apply bind_Ok in Hrun as (new_board & Hmv & Hrun).
  apply bind_Ok in Hrun as (cn & Hnew & Hrun).
  injection Hrun as <- <-.
  unfold get_node in Hnd. destruct (t !! node) as [nd0|] eqn:En;
    [|discriminate]. injection Hnd as ->.
  apply py_pop_last in Hpop as [Hmove Hrest].
  pose proof (lookup_lt_Some _ _ _ En) as Hlt.
  destruct (Hok node nd En) as (Hpar & Hch & Hwf & Hpl & Hunt).
  rewrite Forall_forall in Hunt. destruct (Hunt move Hmove) as [Hmc Hmt].
  pose proof (wf_board_make_move _ _ _ _ Hwf Hmc Hmv) as Hwfn.
  unfold new_node in Hnew. rewrite get_valid_moves_wf in Hnew by exact Hwfn.
  cbn [mbind result_bind] in Hnew. injection Hnew as <-.
  match goal with
  | |- tree_ok ?x ∧ _ =>
      assert (length x = S (length t)) as Hlen
        by (rewrite !length_insert, length_app, length_insert; cbn; lia)
  end.
  split; [|rewrite Hlen, length_insert; lia].
  intros n ndn Hn. rewrite Hlen.
  destruct (decide (n = node)) as [->|Hne].
  - rewrite list_lookup_insert_eq in Hn
      by (rewrite length_app, length_insert; lia).
    injection Hn as <-. cbn.
    split; [exact Hpar|]. split.
    + apply Forall_app. split.
      * eapply Forall_impl; [exact Hch|]. cbn. intros; lia.
      * rewrite length_insert. constructor; [lia|constructor].
    + split; [exact Hwf|]. split; [exact Hpl|].
      apply Forall_forall. intros m Hm. apply Hunt, Hrest, Hm.
  - rewrite list_lookup_insert_ne in Hn by auto.
    destruct (decide (n < length t)%nat) as [Hnl|Hnl].
    + rewrite lookup_app_l in Hn by (rewrite length_insert; exact Hnl).
      rewrite list_lookup_insert_ne in Hn by auto.
      destruct (Hok n ndn Hn) as (Hp1 & Hc1 & Hrest1).
      split; [exact Hp1|]. split; [|exact Hrest1].
      eapply Forall_impl; [exact Hc1|]. cbn. intros; lia.
    + rewrite lookup_app_r in Hn by (rewrite length_insert; lia).
      rewrite length_insert in Hn.
      destruct (n - length t)%nat eqn:Ed; [|destruct n0; discriminate].
      injection Hn as <-. cbn.
      split; [intros p [= <-]; lia|]. split; [constructor|].
      split; [exact Hwfn|]. split; [apply get_next_player_is_player|].
      apply Forall_forall. intros m Hm. apply elem_of_valid_moves, Hm.
Qed.

(** Programs that read no time. *)

Lemma keeps_clock_bind {A B} (m : prog A) (f : A → prog B) :
  keeps_clock m → (∀ a, keeps_clock (f a)) → keeps_clock (m ≫= f).
Proof.
  intros Hm Hf w b w' Hrun.
  apply prog_bind_Ok in Hrun as (a & w1 & Hm1 & Hf1).
  apply Hm in Hm1 as [Ht1 Hp1]. apply Hf in Hf1 as [Ht2 Hp2].
  split; congruence.
Qed.

Lemma keeps_clock_lift {A} (m : result A) : keeps_clock (lift m).
Proof. intros w a w' Hrun. apply lift_Ok in Hrun as [_ ->]. auto. Qed.

Lemma keeps_clock_ret {A} (a : A) : keeps_clock (mret a).
Proof. intros w a' w' [= <- <-]. auto. Qed.

Lemma keeps_clock_random_choice {A} (l : list A) :
  keeps_clock (random_choice l).
Proof.
  destruct l as [|x l]; [intros w a w'; discriminate|].
  unfold random_choice. apply keeps_clock_bind.
  - intros w a w' [= <- <-]. auto.
  - intros k. apply keeps_clock_lift.
Qed.

Lemma keeps_clock_simulate_loop (fuel : nat) :
  ∀ b p n, keeps_clock (simulate_loop fuel b p n).
Proof.
  induction fuel as [|fuel IH]; intros b p n;
    [intros w a w'; discriminate|].
  cbn [simulate_loop]. apply keeps_clock_bind; [apply keeps_clock_lift|].
  intros [|m ms]; [apply keeps_clock_ret|].
  apply keeps_clock_bind; [apply keeps_clock_random_choice|]. intros col.
  apply keeps_clock_bind; [apply keeps_clock_lift|]. intros b'.
  apply keeps_clock_bind; [apply keeps_clock_lift|].
  intros [|]; [apply keeps_clock_ret|apply IH].
Qed.

Lemma keeps_clock_simulate_game (fuel : nat) (b : Board) (p : string) :
  keeps_clock (simulate_game fuel b p).
Proof.
  unfold simulate_game, simulate_trace.
  apply keeps_clock_bind; [apply keeps_clock_simulate_loop|].
  intros r. apply keeps_clock_ret.
Qed.

Lemma expand_node_ok (t : tree) (node : nat) (nd : MCTSNode) :
  tree_ok t → t !! node = Some nd → untried_moves nd ≠ [] →
  ∃ child t', expand_node t node = Ok (child, t').
Proof.
  intros Hok En Hne. destruct (Hok node nd En) as (_ & _ & Hwf & _ & Hunt).
  unfold expand_node, get_node. rewrite En. cbn [mbind result_bind].
  unfold py_pop. destruct (reverse (untried_moves nd)) as [|move l] eqn:Er.
  { apply (f_equal reverse) in Er. rewrite reverse_involutive in Er.
    contradiction. }
  cbn [mbind result_bind]. cbv zeta.
  unfold set_untried_moves, set_children.
  cbn [board current_player children untried_moves parent wins visits].
  assert (move ∈ untried_moves nd) as Hmove
    by (apply elem_of_reverse; rewrite Er; left).
  rewrite Forall_forall in Hunt. destruct (Hunt move Hmove) as [Hmc Hmt].
  rewrite make_move_wf by assumption. cbn [mbind result_bind].
  unfold new_node. rewrite get_valid_moves_wf.
  - cbn [mbind result_bind]. eexists _, _. reflexivity.
  - destruct (landing_row (board nd) move); [|exact Hwf].
    apply wf_board_set_cell, Hwf.
Qed.

Section FuelOfDriver.

Context `{FloatOps}.

(** One pass of the loop ends, with an exception or in a tree of the
    same shape, and reads no time. *)
Lemma mcts_iteration_decides (t : tree) (w : world) :
  tree_ok t → t ≠ [] →
  (∃ e, mcts_iteration t w = Raise e)
  ∨ ∃ t' w', mcts_iteration t w = Ok (t', w')
      ∧ tree_ok t' ∧ t' ≠ [] ∧ ticks w' = ticks w ∧ tick_pos w' = tick_pos w.
Proof.
  intros Hok Hne.
  assert (0 < length t)%nat as Hlen by (destruct t; [contradiction|cbn; lia]).
  destruct (select_node_decides t (length t) Hok 0%nat Hlen) as [Hdec Hsel];
    [lia|].
  destruct (select_node (length t) t (Some 0%nat)) as [node| |] eqn:Esel;
    [|left; exists e; unfold mcts_iteration, mbind, prog_bind, lift;
      rewrite Esel; reflexivity|contradiction].
  specialize (Hsel node eq_refl).
  destruct (t !! node) as [nd|] eqn:En; [|apply lookup_ge_None in En; lia].
  assert (∃ node' t1 nd1, (match untried_moves nd with
            | _ :: _ => lift (expand_node t node)
            | [] => mret (node, t)
            end) w = Ok (node', t1, w)
            ∧ tree_ok t1 ∧ t1 !! node' = Some nd1)
    as (node' & t1 & nd1 & Hexp & Hok1 & En1).
  { destruct (untried_moves nd) as [|m0 ms] eqn:Eu.
    - exists node, t, nd. split; [reflexivity|]. split; assumption.
    - destruct (expand_node_ok t node nd Hok En) as (child & t1 & Hexp);
        [rewrite Eu; discriminate|].
      destruct (tree_ok_expand _ _ _ _ Hok Hexp) as [Hok1 Hcl].
      destruct (t1 !! child) as [nd1|] eqn:Ec;
        [|apply lookup_ge_None in Ec; lia].
      exists child, t1, nd1. unfold lift. rewrite Hexp.
      split; [reflexivity|]. split; assumption. }
  destruct (Hok1 node' nd1 En1) as (_ & _ & Hwf1 & Hpl1 & _).
  destruct (simulate_loop_ends rollout_fuel (board nd1) (current_player nd1)
              0 w Hwf1 Hpl1) as (r & w2 & Hsim & _).
  { pose proof (empties_le (board nd1)). unfold rollout_fuel, ROWS, COLS.
    simpl. lia. }
  pose proof (keeps_clock_simulate_game rollout_fuel (board nd1)
                (current_player nd1)) as Hclock.
  assert (simulate_game rollout_fuel (board nd1) (current_player nd1) w
          = Ok (ro_winner r, w2)) as Hgame.
  { unfold simulate_game, simulate_trace, mbind, prog_bind. rewrite Hsim.
    reflexivity. }
  pose proof (lookup_lt_Some _ _ _ En1) as Hlt1.
  destruct (backpropagate_ok node' t1 (length t1) (ro_winner r)
              (tree_ok_wf_tree t1 Hok1) Hlt1 Hlt1) as (t2 & Hbp & Hlen2 & _).
  right. exists t2, w2. split.
  { unfold mcts_iteration.
    unfold mbind at 1. unfold prog_bind at 1. unfold lift at 1.
    rewrite Esel.
    unfold mbind at 1. unfold prog_bind at 1. unfold lift at 1.
    unfold get_node at 1. rewrite En.
    unfold mbind at 1. unfold prog_bind at 1. rewrite Hexp.
    unfold mbind at 1. unfold prog_bind at 1. unfold lift at 1.
    unfold get_node at 1. rewrite En1.
    unfold mbind at 1. unfold prog_bind at 1. rewrite Hgame.
    unfold lift. rewrite Hbp. reflexivity. }
  apply Hclock in Hgame as [Ht Hp].
  split; [eapply tree_ok_backpropagate; eassumption|].
  split; [|split; assumption].
  intros ->. cbn in Hlen2. lia.
Qed.

(** With enough fuel for the clock to reach the limit, the loop of
    [mcts] ends, in a tree or with an exception. *)
Lemma mcts_loop_decides (start limit : Q) (fuel : nat) :
  ∀ (t : tree) (w : world),
    tree_ok t → t ≠ [] → time_is_up fuel start limit w →
    mcts_loop fuel start limit t w ≠ OutOfFuel.
Proof.
  induction fuel as [|fuel IH]; intros t w Hok Hne (k & Hk & Hup); [lia|].
  cbn [mcts_loop]. unfold mbind at 1. unfold prog_bind at 1.
  unfold time_time at 1.
  destruct (Qltb (ticks w (tick_pos w) - start) limit) eqn:Enow;
    [|discriminate].
  assert (k ≠ 0)%nat as Hk0.
  { intros ->. rewrite Nat.add_0_r in Hup. congruence. }
  set (w1 := World (draws w) (draw_pos w) (ticks w) (S (tick_pos w))).
  unfold mbind at 1. unfold prog_bind at 1.
  destruct (mcts_iteration_decides t w1 Hok Hne)
    as [[e ->]|(t1 & w2 & -> & Hok1 & Hne1 & Ht & Hp)]; [discriminate|].
  apply IH; [exact Hok1|exact Hne1|].
  exists (k - 1)%nat. split; [lia|]. rewrite Ht, Hp. cbn.
  replace (S (tick_pos w + (k - 1)))%nat with (tick_pos w + k)%nat by lia.
  exact Hup.
Qed.

(** [mcts] answers, by a column or by an exception, as soon as the fuel
    covers the readings of the clock up to the time limit. *)
Lemma mcts_decides (fuel : nat) (root_board : Board) (player : string)
  (simulations : Z) (time_limit : Q) (w : world) :
  wf_board root_board → is_player player →
  time_is_up fuel (ticks w (tick_pos w)) time_limit
    (World (draws w) (draw_pos w) (ticks w) (S (tick_pos w))) →
  mcts fuel root_board player simulations time_limit w ≠ OutOfFuel.
Proof.
  intros Hwf Hp Hup. unfold mcts, mcts_tree.
  unfold mbind at 1. unfold prog_bind at 1.
  unfold mbind at 1. unfold prog_bind at 1. unfold time_time at 1.
  unfold mbind at 1. unfold prog_bind at 1. unfold lift at 1.
  unfold new_node. rewrite get_valid_moves_wf by exact Hwf.
  cbn [mbind result_bind].
  match goal with
  | |- context [mcts_loop fuel ?s ?l ?t ?w1] =>
      pose proof (mcts_loop_decides s l fuel t w1) as Hloop;
      destruct (mcts_loop fuel s l t w1) as [[t1 w2]| |] eqn:Eloop
  end.
  - unfold mcts_finish.
    unfold mbind at 1. unfold prog_bind at 1. unfold lift at 1.
    destruct (get_node t1 0) as [root| |] eqn:Eroot; try discriminate.
    + unfold mbind at 1. unfold prog_bind at 1. unfold lift at 1.
      destruct (max_by_visits t1 (children root)) as [[best|]| |] eqn:Emax;
        try discriminate.
      * unfold mbind at 1. unfold prog_bind at 1. unfold lift at 1.
        destruct (get_node t1 best) as [bn| |] eqn:Ebn; try discriminate.
        -- rewrite get_valid_moves_wf by exact Hwf.
           unfold mbind at 1. unfold prog_bind at 1. unfold lift at 1.
           rewrite (for_find_ok _ _ (leads_to root_board player (board bn))).
           ++ unfold mbind at 1. unfold prog_bind at 1. unfold lift at 1.
              destruct (find _ _); [discriminate|].
              unfold mbind at 1. unfold prog_bind at 1. unfold lift at 1.
              destruct (filter _ _) as [|m ms] eqn:Em; [discriminate|].
              destruct (random_choice_elem (m :: ms) w2) as (c & w3 & -> & _);
                discriminate.
           ++ intros c Hc. unfold leads_to.
              apply elem_of_valid_moves in Hc as [Hc _].
              rewrite make_move_wf by assumption. reflexivity.
        -- exfalso. eapply decides_get_node. eassumption.
      * rewrite get_valid_moves_wf by exact Hwf.
        unfold mbind at 1. unfold prog_bind at 1. unfold lift at 1.
        destruct (filter _ _) as [|m ms] eqn:Em; [discriminate|].
        destruct (random_choice_elem (m :: ms) w2) as (c & w3 & -> & _);
          discriminate.
      * exfalso. unfold max_by_visits in Emax.
        destruct (children root) as [|c cs]; [discriminate|].
        revert Emax. apply decides_bind; [apply decides_get_node|].
        intros v _. apply decides_bind; [|discriminate].
        apply decides_for_each. intros x [b k].
        apply decides_bind; [apply decides_get_node|].
        intros ndx _. destruct (k <? visits ndx); discriminate.
    + exfalso. eapply decides_get_node. eassumption.
  - discriminate.
  - exfalso. apply Hloop; [|discriminate|exact Hup|reflexivity].
    intros n nd Hn. destruct n; [|discriminate]. injection Hn as <-. cbn.
    split; [discriminate|]. split; [constructor|]. split; [exact Hwf|].
    split; [exact Hp|]. apply Forall_forall. intros m Hm.
    apply elem_of_valid_moves, Hm.
Qed.

End FuelOfDriver.

(** * Further properties of the board functions *)

Lemma py_all_ok {A} (xs : list A) (body : A → result bool) (g : A → bool) :
  (∀ x, x ∈ xs → body x = Ok (g x)) →
  py_all xs body = Ok (forallb g xs).
Proof.
  induction xs as [|x xs IH]; intros Hb; simpl; [reflexivity|].
  rewrite (Hb x) by left. simpl.
  destruct (g x); [|reflexivity]. apply IH.
  intros y Hy. apply Hb. right. exact Hy.
Qed.

Lemma is_board_full_wf (b : Board) :
  wf_board b →
  is_board_full b
  = Ok (forallb (fun c => negb (String.eqb (cell b 0 c) ".")) (range COLS)).
Proof.
  intros Hwf. unfold is_board_full. apply py_all_ok. intros c Hc.
  rewrite board_get_wf by (try assumption; in_range). reflexivity.
Qed.

Lemma wf_midgame_board : wf_board midgame_board.
Proof. split; [reflexivity|repeat constructor]. Qed.

(** X1: on a grid [is_board_full] answers [True] exactly when
    [get_valid_moves] returns no column, that is when no top cell is
    empty; on a board that obeys gravity this is when no cell of the
    grid is empty. *)
Theorem is_board_full_iff_no_valid_move (b : Board) :
  wf_board b →
  ∃ full moves,
    is_board_full b = Ok full ∧ get_valid_moves b = Ok moves
    ∧ (full = true ↔ moves = [])
    ∧ (full = true ↔ ∀ c, 0 ≤ c < COLS → cell b 0 c ≠ ".")
    ∧ (gravity b →
       (full = true ↔ ∀ r c, in_grid r c → cell b r c ≠ ".")).
Proof.
  intros Hwf. eexists _, _.
  split; [apply is_board_full_wf, Hwf|].
  split; [apply get_valid_moves_wf, Hwf|].
  assert (forallb (fun c => negb (String.eqb (cell b 0 c) ".")) (range COLS)
          = true ↔ ∀ c, 0 ≤ c < COLS → cell b 0 c ≠ ".") as Htop.
  { rewrite forallb_forall. split.
    - intros Hall c Hc. specialize (Hall c).
      rewrite negb_true_iff, String.eqb_neq in Hall. apply Hall.
      apply list_elem_of_In. unfold range. apply elem_of_seqZ. lia.
    - intros Hall c Hc. apply list_elem_of_In in Hc.
      rewrite negb_true_iff, String.eqb_neq. apply Hall. in_range. }
  split; [|split; [exact Htop|]].
  - rewrite Htop. split.
    + intros Hall.
      destruct (filter _ (range COLS)) as [|c l] eqn:E; [reflexivity|].
      assert (c ∈ c :: l) as Hin by left. rewrite <- E in Hin.
      apply elem_of_valid_moves in Hin as [Hc Hempty].
      exfalso. exact (Hall c Hc Hempty).
    + intros Hnil c Hc Hempty.
      assert (c ∈ filter (fun c => cell b 0 c = ".") (range COLS)) as Hin
        by (apply elem_of_valid_moves; split; assumption).
      rewrite Hnil in Hin. apply elem_of_nil in Hin. exact Hin.
  - intros Hg. rewrite Htop. split.
    + intros Hall r c [Hr Hc].
      exact (gravity_top_full b c Hg Hc (Hall c Hc) r Hr).
    + intros Hall c Hc. apply Hall. split; [unfold ROWS; lia|exact Hc].
Qed.

Lemma is_board_full_iff_no_valid_move_witness :
  ∃ full moves,
    is_board_full midgame_board = Ok full
    ∧ get_valid_moves midgame_board = Ok moves
    ∧ (full = true ↔ moves = []).
Proof.
  destruct (is_board_full_iff_no_valid_move midgame_board wf_midgame_board)
    as (full & moves & Hf & Hm & Hiff & _).
  exists full, moves. split; [exact Hf|]. split; [exact Hm|exact Hiff].
Defined.

(** ** Grids are determined by their cells *)

Lemma board_ext (b1 b2 : Board) :
  wf_board b1 → wf_board b2 →
  (∀ r c, in_grid r c → cell b1 r c = cell b2 r c) → b1 = b2.
Proof.
  intros [Hl1 Hr1] [Hl2 Hr2] Hcells.
  apply (nth_ext b1 b2 [] []); [congruence|]. intros i Hi.
  rewrite Forall_forall in Hr1, Hr2.
  assert (length (nth i b1 []) = 7%nat) as Hn1
    by (apply Hr1, list_elem_of_In, nth_In; lia).
  assert (length (nth i b2 []) = 7%nat) as Hn2
    by (apply Hr2, list_elem_of_In, nth_In; lia).
  apply (nth_ext _ _ "" ""); [congruence|]. intros j Hj.
  specialize (Hcells (Z.of_nat i) (Z.of_nat j)). unfold cell in Hcells.
  rewrite !Nat2Z.id in Hcells. apply Hcells.
  unfold in_grid, ROWS, COLS. lia.
Qed.

Lemma landing_row_ext (b1 b2 : Board) (c : Z) :
  (∀ r, 0 ≤ r < ROWS → cell b1 r c = cell b2 r c) →
  landing_row b1 c = landing_row b2 c.
Proof.
  intros Hcol. unfold landing_row. rewrite rows_bottom_up. simpl.
  rewrite !Hcol by (unfold ROWS; lia). reflexivity.
Qed.

Lemma landing_row_in_grid (b : Board) (c r : Z) :
  landing_row b c = Some r → 0 ≤ r < ROWS ∧ cell b r c = ".".
Proof. intros Hl. apply landing_row_Some in Hl as (Hr & He & _). auto. Qed.

(** ** How moves compose *)

Lemma filter_ext_in {A} (P Q : A → Prop) `{∀ x, Decision (P x)}
  `{∀ x, Decision (Q x)} (l : list A) :
  (∀ x, x ∈ l → P x ↔ Q x) → filter P l = filter Q l.
Proof.
  induction l as [|x l IH]; intros Hext; [reflexivity|].
  rewrite !filter_cons.
  rewrite IH by (intros y Hy; apply Hext; right; exact Hy).
  destruct (decide (P x)) as [Hp|Hp].
  - rewrite decide_True by (apply Hext; [left|exact Hp]). reflexivity.
  - rewrite decide_False; [reflexivity|].
    intros Hq. apply Hp, Hext; [left|exact Hq].
Qed.

Lemma filter_all {A} (P : A → Prop) `{∀ x, Decision (P x)} (l : list A) :
  (∀ x, x ∈ l → P x) → filter P l = l.
Proof.
  induction l as [|x l IH]; intros Hall; [reflexivity|].
  rewrite filter_cons, decide_True by (apply Hall; left).
  rewrite IH by (intros y Hy; apply Hall; right; exact Hy). reflexivity.
Qed.

Lemma make_move_cells (b : Board) (c : Z) (p : string) :
  wf_board b → 0 ≤ c < COLS →
  ∃ b', make_move b c p = Ok b' ∧ wf_board b'
    ∧ ∀ r' c', in_grid r' c' →
        cell b' r' c'
        = if decide (landing_row b c = Some r' ∧ c' = c) then p
          else cell b r' c'.
Proof.
  intros Hwf Hc. rewrite make_move_wf by assumption.
  destruct (landing_row b c) as [r|] eqn:El.
  - exists (set_cell b r c p). split; [reflexivity|].
    split; [apply wf_board_set_cell, Hwf|]. intros r' c' Hg.
    apply landing_row_in_grid in El as [Hr _].
    rewrite cell_set_cell by (try assumption; split; assumption).
    destruct (decide (r' = r ∧ c' = c)) as [[-> ->]|Hn].
    + rewrite decide_True by auto. reflexivity.
    + rewrite decide_False; [reflexivity|]. intros [[= ->] ->]. tauto.
  - exists b. split; [reflexivity|]. split; [exact Hwf|]. intros r' c' _.
    rewrite decide_False; [reflexivity|]. intros [Hd _]. discriminate.
Qed.

(** X2: moves in two different columns commute: played in either order
    they give the same board, whoever the players are and whether or not
    a column is full. *)
Theorem make_move_commute (b : Board) (c1 c2 : Z) (p q : string) :
  wf_board b → 0 ≤ c1 < COLS → 0 ≤ c2 < COLS → c1 ≠ c2 →
  (make_move b c1 p ≫= fun b1 => make_move b1 c2 q)
  = (make_move b c2 q ≫= fun b2 => make_move b2 c1 p)
  ∧ ∃ b', (make_move b c1 p ≫= fun b1 => make_move b1 c2 q) = Ok b'.
Proof.
  intros Hwf Hc1 Hc2 Hne.
  destruct (make_move_cells b c1 p Hwf Hc1) as (b1 & Hm1 & Hwf1 & Hcell1).
  destruct (make_move_cells b c2 q Hwf Hc2) as (b2 & Hm2 & Hwf2 & Hcell2).
  destruct (make_move_cells b1 c2 q Hwf1 Hc2) as (b12 & Hm12 & Hwf12 & Hcell12).
  destruct (make_move_cells b2 c1 p Hwf2 Hc1) as (b21 & Hm21 & Hwf21 & Hcell21).
  rewrite Hm1, Hm2. cbn [mbind result_bind]. rewrite Hm12, Hm21.
  split; [|exists b12; reflexivity]. f_equal.
  assert (landing_row b1 c2 = landing_row b c2) as Hl12.
  { apply landing_row_ext. intros r Hr.
    rewrite Hcell1 by (split; assumption).
    rewrite decide_False; [reflexivity|]. intros [_ Heq]. congruence. }
  assert (landing_row b2 c1 = landing_row b c1) as Hl21.
  { apply landing_row_ext. intros r Hr.
    rewrite Hcell2 by (split; assumption).
    rewrite decide_False; [reflexivity|]. intros [_ Heq]. congruence. }
  apply board_ext; try assumption. intros r c Hg.
  rewrite Hcell12, Hcell21, Hcell1, Hcell2, Hl12, Hl21 by assumption.
  destruct (decide (landing_row b c2 = Some r ∧ c = c2)) as [[_ He2]|Hn2];
    destruct (decide (landing_row b c1 = Some r ∧ c = c1)) as [[_ He1]|Hn1];
    congruence.
Qed.

Lemma make_move_commute_witness :
  (make_move midgame_board 2 "Y" ≫= fun b1 => make_move b1 3 "R")
  = (make_move midgame_board 3 "R" ≫= fun b2 => make_move b2 2 "Y").
Proof.
  apply (make_move_commute midgame_board 2 3 "Y" "R" wf_midgame_board);
    unfold COLS; lia.
Defined.

(** X3: after a legal move of a player in column [c],
    [get_valid_moves] returns the columns it returned before, without
    [c] when the piece landed in the top row and with [c] otherwise. *)
Theorem valid_moves_after_move (b : Board) (c : Z) (p : string)
  (moves : list Z) :
  wf_board b → is_player p →
  get_valid_moves b = Ok moves → c ∈ moves →
  ∃ r b' moves',
    lowest_empty b c r ∧ make_move b c p = Ok b'
    ∧ get_valid_moves b' = Ok moves'
    ∧ moves' = filter (fun x => x ≠ c ∨ r ≠ 0) moves
    ∧ (r ≠ 0 → moves' = moves)
    ∧ (r = 0 → c ∉ moves').
Proof.
  intros Hwf Hp Hmoves Hc.
  rewrite get_valid_moves_wf in Hmoves by assumption. injection Hmoves as <-.
  apply elem_of_valid_moves in Hc as [Hc Htop].
  destruct (make_move_valid b c p Hwf Hc Htop) as (r & Hlow & Hmv).
  pose proof (wf_board_set_cell b r c p Hwf) as Hwf'.
  assert (p ≠ ".") as Hpne by (destruct Hp as [-> | ->]; discriminate).
  assert (in_grid r c) as Hrc by (split; [apply Hlow|exact Hc]).
  assert (∀ x, x ∈ range COLS →
            (cell (set_cell b r c p) 0 x = "."
             ↔ cell b 0 x = "." ∧ (x ≠ c ∨ r ≠ 0))) as Hcell.
  { intros x Hx.
    rewrite cell_set_cell by (try assumption; in_range).
    destruct (decide (0 = r ∧ x = c)) as [[<- ->]|Hn].
    - split; [intros; contradiction|intros [_ [Hx'|Hr']]; contradiction].
    - split; [intros He; split; [exact He|]|tauto].
      destruct (decide (x = c)); [right; intros ->; tauto|left; assumption]. }
  assert (filter (fun x => cell (set_cell b r c p) 0 x = ".") (range COLS)
          = filter (fun x => x ≠ c ∨ r ≠ 0)
              (filter (fun x => cell b 0 x = ".") (range COLS))) as Hfilter.
  { rewrite list_filter_filter. apply filter_ext_in.
    intros x Hx. rewrite Hcell by exact Hx. tauto. }
  exists r, (set_cell b r c p). eexists.
  split; [exact Hlow|]. split; [exact Hmv|].
  split; [apply get_valid_moves_wf, Hwf'|].
  split; [exact Hfilter|]. rewrite Hfilter. split.
  - intros Hr. apply filter_all. auto.
  - intros -> Hin. apply list_elem_of_filter in Hin as [[Hx|Hr] _]; congruence.
Qed.

Lemma valid_moves_after_move_witness :
  ∃ r b' moves',
    lowest_empty midgame_board 3 r ∧ make_move midgame_board 3 "R" = Ok b'
    ∧ get_valid_moves b' = Ok moves'.
Proof.
  destruct (valid_moves_after_move midgame_board 3 "R" [0; 1; 2; 3; 4; 5; 6]
              wf_midgame_board)
    as (r & b' & moves' & Hlow & Hmv & Hm & _).
  - left. reflexivity.
  - reflexivity.
  - do 3 right. left.
  - exists r, b', moves'. split; [exact Hlow|]. split; assumption.
Defined.

(** X4: a move in a column 0..6 never takes a win away, and it can give
    a win to the mover only: a player (a mark other than ".") who had
    four in a line before the move has four in a line after it, and a
    mark other than the mover's that has four in a line after the move
    had them before. *)
Theorem check_winner_after_move (b : Board) (c : Z) (p q : string) :
  wf_board b → 0 ≤ c < COLS →
  ∃ b' before after,
    make_move b c p = Ok b'
    ∧ check_winner b q = Ok before ∧ check_winner b' q = Ok after
    ∧ (q ≠ "." → before = true → after = true)
    ∧ (q ≠ p → after = true → before = true).
Proof.
  intros Hwf Hc.
  destruct (make_move_cells b c p Hwf Hc) as (b' & Hmv & Hwf' & Hcell).
  exists b', (wins_b b q), (wins_b b' q).
  split; [exact Hmv|]. split; [apply check_winner_wf, Hwf|].
  split; [apply check_winner_wf, Hwf'|].
  rewrite !wins_b_spec. split.
  - intros Hq (d & r0 & c0 & Hline). exists d, r0, c0. intros i Hi.
    destruct (Hline i Hi) as [Hg Hcq]. split; [exact Hg|].
    rewrite Hcell by exact Hg.
    destruct (decide (landing_row b c = Some (r0 + i * drow d)
                      ∧ c0 + i * dcol d = c)) as [[Hl Hcc]|Hn];
      [|exact Hcq].
    apply landing_row_in_grid in Hl as [_ Hempty].
    rewrite Hcc in Hcq. congruence.
  - intros Hq (d & r0 & c0 & Hline). exists d, r0, c0. intros i Hi.
    destruct (Hline i Hi) as [Hg Hcq]. split; [exact Hg|].
    rewrite Hcell in Hcq by exact Hg.
    destruct (decide (landing_row b c = Some (r0 + i * drow d)
                      ∧ c0 + i * dcol d = c)) as [[Hl Hcc]|Hn];
      [congruence|exact Hcq].
Qed.

Lemma check_winner_after_move_witness :
  ∃ b' before after,
    make_move threat_board 3 "R" = Ok b'
    ∧ check_winner threat_board "Y" = Ok before
    ∧ check_winner b' "Y" = Ok after
    ∧ ("Y" ≠ "R" → after = true → before = true).
Proof.
  assert (wf_board threat_board) as Hwf
    by (split; [reflexivity|repeat constructor]).
  destruct (check_winner_after_move threat_board 3 "R" "Y" Hwf)
    as (b' & before & after & Hmv & Hb & Ha & _ & Hnew).
  - unfold COLS. lia.
  - exists b', before, after. repeat (split; [assumption|]). exact Hnew.
Defined.

(** * Further properties of the rollout *)

Lemma filter_none {A} (P : A → Prop) `{∀ x, Decision (P x)} (l : list A) :
  (∀ x, x ∈ l → ¬ P x) → filter P l = [].
Proof.
  induction l as [|x l IH]; intros Hall; [reflexivity|].
  rewrite filter_cons, decide_False by (apply Hall; left).
  apply IH. intros y Hy. apply Hall. right. exact Hy.
Qed.

Lemma filter_length_remove {A} (P Q : A → Prop) `{∀ x, Decision (P x)}
  `{∀ x, Decision (Q x)} (l : list A) (x0 : A) :
  NoDup l → x0 ∈ l → P x0 → ¬ Q x0 →
  (∀ x, x ∈ l → x ≠ x0 → Q x ↔ P x) →
  length (filter P l) = S (length (filter Q l)).
Proof.
  induction l as [|x l IH]; intros Hnd Hin HP HQ Hext;
    [apply elem_of_nil in Hin; contradiction|].
  apply NoDup_cons in Hnd as [Hx Hnd]. rewrite !filter_cons.
  apply elem_of_cons in Hin as [<-|Hin].
  - rewrite decide_True, decide_False by assumption. cbn [length]. f_equal.
    f_equal. apply filter_ext_in. intros y Hy. symmetry. apply Hext.
    + right. exact Hy.
    + intros ->. contradiction.
  - assert (x ≠ x0) as Hne by (intros ->; contradiction).
    assert (length (filter P l) = S (length (filter Q l))) as IH'.
    { apply IH; try assumption. intros y Hy. apply Hext. right. exact Hy. }
    assert (Q x ↔ P x) as Hx' by (apply Hext; [left|exact Hne]).
    destruct (decide (P x)) as [Hp|Hp].
    + rewrite decide_True by tauto. cbn [length]. lia.
    + rewrite decide_False by tauto. exact IH'.
Qed.

Lemma NoDup_grid : NoDup (r ← range ROWS; c ← range COLS; [(r, c)]).
Proof.
  apply (bool_decide_unpack (NoDup (r ← range ROWS; c ← range COLS; [(r, c)]))).
  vm_compute. exact I.
Qed.

Lemma empties_set_cell_pred (b : Board) (r c : Z) (p : string) :
  wf_board b → 0 ≤ c < COLS → lowest_empty b c r → p ≠ "." →
  empties b = S (empties (set_cell b r c p)).
Proof.
  intros Hwf Hc (Hr & He & _) Hp. unfold empties.
  assert (in_grid r c) as Hrc by (split; assumption).
  apply (filter_length_remove _ _ _ (r, c)).
  - exact NoDup_grid.
  - apply elem_of_grid, Hrc.
  - exact He.
  - cbn. rewrite cell_set_cell by assumption.
    rewrite decide_True by auto. exact Hp.
  - intros [r' c'] Hin Hne. apply elem_of_grid in Hin. cbn.
    rewrite cell_set_cell by assumption.
    rewrite decide_False; [reflexivity|]. intros [-> ->]. contradiction.
Qed.

Lemma empties_zero (b : Board) :
  (∀ r c, in_grid r c → cell b r c ≠ ".") → empties b = 0%nat.
Proof.
  intros Hall. unfold empties. rewrite filter_none; [reflexivity|].
  intros [r c] Hin. apply elem_of_grid in Hin. cbn. apply Hall, Hin.
Qed.

Lemma random_choice_run {A} (l : list A) (w : world) :
  l ≠ [] →
  ∃ x, random_choice l w = Ok (x, after_draw w) ∧ x ∈ l
    ∧ l !! Z.to_nat (draws w (draw_pos w) `mod` Z.of_nat (length l))
      = Some x.
Proof.
  intros Hne. destruct l as [|x0 l]; [contradiction|].
  unfold random_choice, next_draw, mbind, prog_bind.
  set (len := Z.of_nat (length (x0 :: l))).
  set (k := draws w (draw_pos w) `mod` len).
  assert (0 ≤ k < len) as Hk.
  { apply Z.mod_pos_bound. unfold len. simpl. lia. }
  rewrite (py_index_nonneg _ k x0) by exact Hk. unfold lift.
  exists (nth (Z.to_nat k) (x0 :: l) x0). split; [reflexivity|].
  assert (Z.to_nat k < length (x0 :: l))%nat as Hlt by (unfold len in Hk; lia).
  split; [apply list_elem_of_In, nth_In, Hlt|].
  apply lookup_lt_is_Some in Hlt as [y Hy].
  rewrite Hy. f_equal. symmetry. apply nth_lookup_Some. exact Hy.
Qed.

Lemma get_next_player_twice (p : string) :
  is_player p → get_next_player (get_next_player p) = p.
Proof. intros [-> | ->]; reflexivity. Qed.

Lemma simulate_loop_accounting (fuel : nat) :
  ∀ (b : Board) (p : string) (n : nat) (w : world),
    wf_board b → is_player p → (empties b < fuel)%nat →
    ∃ r w' k,
      simulate_loop fuel b p n w = Ok (r, w')
      ∧ ro_moves r = (n + k)%nat
      ∧ empties b = (empties (ro_board r) + k)%nat
      ∧ w' = World (draws w) (draw_pos w + k) (ticks w) (tick_pos w)
      ∧ (∀ q, ro_winner r = Some q →
           (0 < k)%nat ∧ q = if Nat.odd k then p else get_next_player p)
      ∧ wf_board (ro_board r)
      ∧ (ro_winner r = None → get_valid_moves (ro_board r) = Ok [])
      ∧ (∀ r0 c0, in_grid r0 c0 → cell b r0 c0 ≠ "." →
           cell (ro_board r) r0 c0 = cell b r0 c0)
      ∧ (gravity b → gravity (ro_board r)).
Proof.
  induction fuel as [|fuel IH]; intros b p n w Hwf Hp Hfuel; [lia|].
  cbn [simulate_loop]. unfold mbind at 1. unfold prog_bind at 1.
  rewrite get_valid_moves_wf by assumption. unfold lift at 1.
  destruct (filter _ (range COLS)) as [|c0 ms] eqn:Emoves.
  - exists (Rollout None b n), w, 0%nat. cbn.
    split; [reflexivity|]. split; [lia|]. split; [lia|].
    split; [destruct w; cbn; f_equal; lia|]. split; [discriminate|].
    split; [exact Hwf|]. split; [|split; auto].
    intros _. rewrite get_valid_moves_wf, Emoves by assumption. reflexivity.
  - destruct (random_choice_run (c0 :: ms) w) as (col & Hch & Hin & _);
      [discriminate|].
    unfold mbind at 1. unfold prog_bind at 1. rewrite Hch.
    rewrite <- Emoves in Hin. apply elem_of_valid_moves in Hin as [Hc Htop].
    destruct (make_move_valid b col p Hwf Hc Htop) as (r & Hlow & Hmv).
    unfold mbind at 1. unfold prog_bind at 1. rewrite Hmv. unfold lift at 1.
    pose proof (wf_board_set_cell b r col p Hwf) as Hwf'.
    assert (p ≠ ".") as Hpne by (destruct Hp as [-> | ->]; discriminate).
    pose proof (empties_set_cell_pred b r col p Hwf Hc Hlow Hpne) as Hdec.
    assert (in_grid r col) as Hrc by (split; [apply Hlow|exact Hc]).
    assert (∀ r0 c1, in_grid r0 c1 → cell b r0 c1 ≠ "." →
              cell (set_cell b r col p) r0 c1 = cell b r0 c1) as Hkeep.
    { intros r0 c1 Hg Hne. rewrite cell_set_cell by assumption.
      rewrite decide_False; [reflexivity|]. intros [-> ->].
      destruct Hlow as (_ & He & _). contradiction. }
    unfold mbind at 1. unfold prog_bind at 1.
    rewrite check_winner_wf by assumption. unfold lift at 1.
    destruct (wins_b (set_cell b r col p) p) eqn:Ewin.
    + exists (Rollout (Some p) (set_cell b r col p) (S n)), (after_draw w),
        1%nat. cbn.
      split; [reflexivity|]. split; [lia|]. split; [lia|].
      split; [unfold after_draw; f_equal; lia|].
      split; [intros q [= <-]; split; [lia|reflexivity]|].
      split; [exact Hwf'|]. split; [discriminate|].
      split; [exact Hkeep|]. intros Hg. apply gravity_set_cell; assumption.
    + destruct (IH (set_cell b r col p) (get_next_player p) (S n)
                  (after_draw w))
        as (res & w' & k & Hrun & Hmoves & Hemp & Hw & Hwin & Hwfr & Hdraw
            & Hkeep' & Hgrav);
        [exact Hwf'|apply get_next_player_is_player|lia|].
      exists res, w', (S k). split; [exact Hrun|]. split; [lia|].
      split; [lia|]. split.
      { rewrite Hw. unfold after_draw. cbn. f_equal. lia. }
      split.
      { intros q Hq. destruct (Hwin q Hq) as [Hk ->]. split; [lia|].
        rewrite Nat.odd_succ, <- Nat.negb_odd.
        destruct (Nat.odd k); cbn; [reflexivity|].
        apply get_next_player_twice, Hp. }
      split; [exact Hwfr|]. split; [exact Hdraw|]. split.
      { intros r0 c1 Hg Hne. rewrite Hkeep' by
          (try assumption; rewrite Hkeep by assumption; exact Hne).
        apply Hkeep; assumption. }
      intros Hg. apply Hgrav, gravity_set_cell; assumption.
Qed.

(** X5: a rollout from a grid, with either player to move, plays one
    piece per move and takes one value of the random generator per move,
    reading no time; it never changes a piece that was on the board; a
    player it returns is the one who made the last move; it returns
    [None] only on a board without a legal column, which, when the
    rollout started from a board that obeys gravity, is a grid without
    an empty cell. *)
Theorem simulate_game_accounting (fuel : nat) (b : Board) (p : string)
  (w : world) :
  wf_board b → is_player p → (rollout_fuel ≤ fuel)%nat →
  ∃ r k,
    simulate_trace fuel b p w
    = Ok (r, World (draws w) (draw_pos w + k) (ticks w) (tick_pos w))
    ∧ ro_moves r = k
    ∧ empties b = (empties (ro_board r) + k)%nat
    ∧ (∀ r0 c0, in_grid r0 c0 → cell b r0 c0 ≠ "." →
         cell (ro_board r) r0 c0 = cell b r0 c0)
    ∧ (∀ q, ro_winner r = Some q →
         (0 < k)%nat ∧ q = if Nat.odd k then p else get_next_player p)
    ∧ (ro_winner r = None →
       get_valid_moves (ro_board r) = Ok []
       ∧ is_board_full (ro_board r) = Ok true
       ∧ (gravity b → empties (ro_board r) = 0%nat ∧ k = empties b)).
Proof.
  intros Hwf Hp Hfuel. pose proof (empties_le b) as Hle.
  destruct (simulate_loop_accounting fuel b p 0 w Hwf Hp)
    as (r & w' & k & Hrun & Hmoves & Hemp & -> & Hwin & Hwfr & Hdraw & Hkeep
        & Hgrav).
  { unfold rollout_fuel, ROWS, COLS in Hfuel. simpl in Hfuel. lia. }
  exists r, k. unfold simulate_trace.
  split; [exact Hrun|]. split; [exact Hmoves|]. split; [exact Hemp|].
  split; [exact Hkeep|]. split; [exact Hwin|].
  intros Hnone. specialize (Hdraw Hnone). split; [exact Hdraw|].
  rewrite get_valid_moves_wf in Hdraw by assumption. injection Hdraw as Hnil.
  assert (∀ c, 0 ≤ c < COLS → cell (ro_board r) 0 c ≠ ".") as Htop.
  { intros c Hc Hempty.
    assert (c ∈ filter (fun c => cell (ro_board r) 0 c = ".") (range COLS))
      as Hin by (apply elem_of_valid_moves; split; assumption).
    rewrite Hnil in Hin. apply elem_of_nil in Hin. exact Hin. }
  split.
  { rewrite is_board_full_wf by assumption. f_equal.
    apply forallb_forall. intros c Hc. apply list_elem_of_In in Hc.
    rewrite negb_true_iff, String.eqb_neq. apply Htop. in_range. }
  intros Hg. specialize (Hgrav Hg).
  assert (empties (ro_board r) = 0%nat) as Hzero.
  { apply empties_zero. intros r0 c0 [Hr0 Hc0].
    exact (gravity_top_full _ c0 Hgrav Hc0 (Htop c0 Hc0) r0 Hr0). }
  split; [exact Hzero|lia].
Qed.

Lemma simulate_game_accounting_witness :
  ∃ r k,
    simulate_trace rollout_fuel midgame_board "Y" sample_world
    = Ok (r, World (draws sample_world) (draw_pos sample_world + k)
               (ticks sample_world) (tick_pos sample_world))
    ∧ ro_moves r = k.
Proof.
  destruct (simulate_game_accounting rollout_fuel midgame_board "Y"
              sample_world wf_midgame_board)
    as (r & k & Hrun & Hk & _).
  - right. reflexivity.
  - apply Nat.le_refl.
  - exists r, k. split; assumption.
Defined.

(** * Further properties of the search tree *)

Lemma py_pop_snoc {A} (l : list A) (x : A) (rest : list A) :
  py_pop l = Ok (x, rest) ↔ l = rest ++ [x].
Proof.
  unfold py_pop. split.
  - destruct (reverse l) as [|x0 l0] eqn:Er; [discriminate|].
    intros [= <- <-]. apply (f_equal reverse) in Er.
    rewrite reverse_involutive, reverse_cons in Er. subst l.
    rewrite length_app. cbn [length].
    replace (length (reverse l0) + 1 - 1)%nat with (length (reverse l0)) by lia.
    rewrite take_app_length. reflexivity.
  - intros ->. rewrite reverse_app. cbn. rewrite length_app. cbn [length].
    replace (length rest + 1 - 1)%nat with (length rest) by lia.
    rewrite take_app_length. reflexivity.
Qed.

Lemma py_pop_nil {A} : py_pop (@nil A) = Raise IndexError.
Proof. reflexivity. Qed.

Lemma expand_node_run (t : tree) (node : nat) (nd : MCTSNode)
  (rest : list Z) (move : Z) :
  t !! node = Some nd →
  untried_moves nd = rest ++ [move] →
  wf_board (board nd) → 0 ≤ move < COLS →
  ∃ new_board moves,
    make_move (board nd) move (current_player nd) = Ok new_board
    ∧ wf_board new_board
    ∧ get_valid_moves new_board = Ok moves
    ∧ expand_node t node
      = Ok (length t,
            <[node := Node (board nd) (current_player nd) (parent nd)
                        (children nd ++ [length t]) (wins nd) (visits nd)
                        rest]> t
            ++ [Node new_board (get_next_player (current_player nd))
                  (Some node) [] 0 0 moves]).
Proof.
  intros En Hunt Hwf Hmove.
  pose proof (lookup_lt_Some _ _ _ En) as Hlt.
  destruct (make_move_cells (board nd) move (current_player nd) Hwf Hmove)
    as (new_board & Hmv & Hwf' & _).
  exists new_board, (filter (fun c => cell new_board 0 c = ".") (range COLS)).
  split; [exact Hmv|]. split; [exact Hwf'|].
  split; [apply get_valid_moves_wf, Hwf'|].
  unfold expand_node, get_node. rewrite En. cbn [mbind result_bind].
  assert (py_pop (untried_moves nd) = Ok (move, rest)) as ->
    by (apply py_pop_snoc, Hunt).
  cbn [mbind result_bind]. cbv zeta.
  unfold set_untried_moves, set_children.
  cbn [board current_player children untried_moves parent wins visits].
  rewrite Hmv. cbn [mbind result_bind].
  unfold new_node. rewrite get_valid_moves_wf by exact Hwf'.
  cbn [mbind result_bind]. rewrite length_insert. f_equal. f_equal.
  apply list_eq. intros i.
  destruct (decide (i = node)) as [->|Hne].
  + rewrite list_lookup_insert_eq by (rewrite length_app, length_insert; lia).
    rewrite lookup_app_l by (rewrite length_insert; lia).
    rewrite list_lookup_insert_eq by lia. reflexivity.
  + rewrite list_lookup_insert_ne by auto.
    destruct (decide (i < length t)%nat).
    * rewrite !lookup_app_l by (rewrite length_insert; lia).
      rewrite !list_lookup_insert_ne by auto. reflexivity.
    * rewrite !lookup_app_r by (rewrite length_insert; lia).
      rewrite !length_insert. reflexivity.
Qed.

(** X6: [expand_node] on a node without untried move raises
    [IndexError].  Otherwise it takes the last untried move, so the
    greatest column when they are in ascending order, and, that move
    being a column 0..6 of a grid, returns as child a new node at the end
    of the tree: it holds the board after the move, the other player,
    the expanded node as parent, no child, zero counters and the legal
    columns of its board as untried moves; the expanded node gets the
    child as its last child and keeps the other untried moves; every
    other node stays as it is. *)
Theorem expand_node_effect (t : tree) (node : nat) (nd : MCTSNode) :
  t !! node = Some nd →
  (untried_moves nd = [] → expand_node t node = Raise IndexError)
  ∧ ∀ rest move,
      untried_moves nd = rest ++ [move] →
      wf_board (board nd) → 0 ≤ move < COLS →
      ∃ new_board moves,
        make_move (board nd) move (current_player nd) = Ok new_board
        ∧ get_valid_moves new_board = Ok moves
        ∧ expand_node t node
          = Ok (length t,
                <[node := Node (board nd) (current_player nd) (parent nd)
                            (children nd ++ [length t]) (wins nd) (visits nd)
                            rest]> t
                ++ [Node new_board (get_next_player (current_player nd))
                      (Some node) [] 0 0 moves]).
Proof.
  intros En. split.
  - intros Hnil. unfold expand_node, get_node. rewrite En.
    cbn [mbind result_bind]. rewrite Hnil. reflexivity.
  - intros rest move Hunt Hwf Hmove.
    destruct (expand_node_run t node nd rest move En Hunt Hwf Hmove)
      as (new_board & moves & Hmv & _ & Hm & Hrun).
    exists new_board, moves. split; [exact Hmv|]. split; [exact Hm|exact Hrun].
Qed.

Lemma expand_node_effect_witness :
  ∃ new_board moves,
    make_move empty_board 6 "R" = Ok new_board
    ∧ get_valid_moves new_board = Ok moves
    ∧ fst <$> expand_node [Node empty_board "R" None [] 0 0 [0; 1; 2; 3; 4; 5; 6]] 0
      = Ok 1%nat.
Proof.
  destruct (expand_node_effect
              [Node empty_board "R" None [] 0 0 [0; 1; 2; 3; 4; 5; 6]] 0%nat
              (Node empty_board "R" None [] 0 0 [0; 1; 2; 3; 4; 5; 6])
              eq_refl) as [_ Hexp].
  destruct (Hexp [0; 1; 2; 3; 4; 5] 6 eq_refl wf_empty_board)
    as (new_board & moves & Hmv & Hm & Hrun); [unfold COLS; lia|].
  exists new_board, moves. split; [exact Hmv|]. split; [exact Hm|].
  rewrite Hrun. reflexivity.
Defined.

Section BestChild.

Context `{FloatOps}.

Hypothesis gt_irrefl : ∀ x, float_gt x x = false.
Hypothesis gt_trans :
  ∀ x y z, float_gt x y = true → float_gt y z = true → float_gt x z = true.



End BestChild.




(** ** The trees of a search *)

Lemma take_snoc_inv {A} (k : nat) (l rest : list A) (x : A) :
  (k ≤ length l)%nat → take k l = rest ++ [x] →
  (1 ≤ k)%nat ∧ rest = take (k - 1) l ∧ l !! (k - 1)%nat = Some x.
Proof.
  intros Hk Ht.
  assert (length (take k l) = S (length rest)) as Hlen
    by (rewrite Ht, length_app; cbn; lia).
  rewrite length_take in Hlen.
  assert (length rest = k - 1)%nat as Hr by lia.
  split; [lia|]. rewrite <- Hr. split.
  - apply (f_equal (take (length rest))) in Ht.
    rewrite take_take, Nat.min_l, take_app_length in Ht by lia. congruence.
  - apply (f_equal (fun l' => l' !! length rest)) in Ht.
    rewrite lookup_take_lt in Ht by lia.
    rewrite lookup_app_r, Nat.sub_diag in Ht by lia. exact Ht.
Qed.

Lemma tree_shape_expand (t t' : tree) (node child : nat) :
  tree_ok t → tree_shape t → expand_node t node = Ok (child, t') →
  tree_shape t'.
Proof.
  intros Hok Hshape Hrun.
  assert (∃ nd, t !! node = Some nd) as [nd En].
  { unfold expand_node, get_node in Hrun.
    destruct (t !! node) as [nd|]; [eauto|discriminate]. }
  pose proof (lookup_lt_Some _ _ _ En) as Hlt.
  destruct (Hok node nd En) as (_ & _ & Hwf & _ & Hunt).
  destruct (Hshape node nd En) as (moves & Hmoves & Hlen & Htake & Hch).
  destruct (untried_moves nd) as [|m0 ms] eqn:Eu using rev_ind.
  { unfold expand_node, get_node in Hrun. rewrite En in Hrun.
    cbn [mbind result_bind] in Hrun. rewrite Eu in Hrun. discriminate. }
  clear IHms. rename m0 into move. rename ms into rest.
  rewrite Forall_forall in Hunt.
  destruct (Hunt move) as [Hmove _]; [apply elem_of_app; right; left|].
  destruct (expand_node_run t node nd rest move En Eu Hwf Hmove)
    as (new_board & moves' & Hmv & Hwf' & Hm' & Hrun').
  rewrite Hrun' in Hrun. injection Hrun as <- <-.
  symmetry in Htake.
  apply take_snoc_inv in Htake as (Hk & Hrest & Hmovek); [|lia].
  set (nd' := Node (board nd) (current_player nd) (parent nd)
                (children nd ++ [length t]) (wins nd) (visits nd) rest).
  set (cn := Node new_board (get_next_player (current_player nd))
               (Some node) [] 0 0 moves').
  assert (∀ c cn0, t !! c = Some cn0 →
            ∃ cn1, (<[node := nd']> t ++ [cn]) !! c = Some cn1
              ∧ board cn1 = board cn0 ∧ parent cn1 = parent cn0
              ∧ current_player cn1 = current_player cn0) as Hkeep.
  { intros c cn0 Hc. pose proof (lookup_lt_Some _ _ _ Hc) as Hcl.
    rewrite lookup_app_l by (rewrite length_insert; exact Hcl).
    destruct (decide (c = node)) as [->|Hne].
    - rewrite list_lookup_insert_eq by exact Hlt. exists nd'.
      rewrite En in Hc. injection Hc as <-. repeat split.
    - rewrite list_lookup_insert_ne by auto. exists cn0. repeat split.
      exact Hc. }
  intros i ndi Hi.
  destruct (decide (i < length t)%nat) as [Hil|Hil].
  - rewrite lookup_app_l in Hi by (rewrite length_insert; exact Hil).
    destruct (decide (i = node)) as [->|Hne].
    + rewrite list_lookup_insert_eq in Hi by exact Hlt. injection Hi as <-.
      exists moves. cbn [board children untried_moves current_player nd'].
      rewrite length_app. cbn [length].
      split; [exact Hmoves|]. split; [lia|]. split.
      { rewrite Hrest. f_equal. lia. }
      intros j c Hj.
      destruct (decide (j < length (children nd))%nat) as [Hjl|Hjl].
      * rewrite lookup_app_l in Hj by exact Hjl.
        destruct (Hch j c Hj) as (cn0 & m & Hc & Hm & Hmk & Hpar & Hpl).
        destruct (Hkeep c cn0 Hc) as (cn1 & Hc1 & Hb1 & Hp1 & Hpl1).
        exists cn1, m. split; [exact Hc1|]. split; [exact Hm|].
        split; [congruence|]. split; congruence.
      * rewrite lookup_app_r in Hj by lia.
        destruct (j - length (children nd))%nat eqn:Ej;
          [|destruct n; discriminate].
        injection Hj as <-. exists cn, move.
        split.
        { rewrite lookup_app_r by (rewrite length_insert; lia).
          rewrite length_insert, Nat.sub_diag. reflexivity. }
        split.
        { replace (length moves - 1 - j)%nat
            with (length moves - length (children nd) - 1)%nat by lia.
          exact Hmovek. }
        repeat split. exact Hmv.
    + rewrite list_lookup_insert_ne in Hi by auto.
      destruct (Hshape i ndi Hi) as (mi & Hmi & Hli & Hti & Hci).
      exists mi. split; [exact Hmi|]. split; [exact Hli|].
      split; [exact Hti|]. intros j c Hj.
      destruct (Hci j c Hj) as (cn0 & m & Hc & Hm & Hmk & Hpar & Hpl).
      destruct (Hkeep c cn0 Hc) as (cn1 & Hc1 & Hb1 & Hp1 & Hpl1).
      exists cn1, m. split; [exact Hc1|]. split; [exact Hm|].
      split; [congruence|]. split; congruence.
  - rewrite lookup_app_r in Hi by (rewrite length_insert; lia).
    rewrite length_insert in Hi.
    destruct (i - length t)%nat eqn:Ei; [|destruct n; discriminate].
    injection Hi as <-. exists moves'. cbn.
    split; [exact Hm'|]. split; [lia|].
    split; [rewrite Nat.sub_0_r, take_ge by lia; reflexivity|].
    intros j c Hj. discriminate.
Qed.

Lemma counters_ok_expand (t t' : tree) (node child : nat) :
  tree_ok t → counters_ok t → expand_node t node = Ok (child, t') →
  counters_ok t'.
Proof.
  intros Hok Hcnt Hrun.
  assert (∃ nd, t !! node = Some nd) as [nd En].
  { unfold expand_node, get_node in Hrun.
    destruct (t !! node) as [nd|]; [eauto|discriminate]. }
  pose proof (lookup_lt_Some _ _ _ En) as Hlt.
  destruct (Hok node nd En) as (_ & _ & Hwf & _ & Hunt).
  destruct (untried_moves nd) as [|m0 ms] eqn:Eu using rev_ind.
  { unfold expand_node, get_node in Hrun. rewrite En in Hrun.
    cbn [mbind result_bind] in Hrun. rewrite Eu in Hrun. discriminate. }
  clear IHms. rename m0 into move. rename ms into rest.
  rewrite Forall_forall in Hunt.
  destruct (Hunt move) as [Hmove _]; [apply elem_of_app; right; left|].
  destruct (expand_node_run t node nd rest move En Eu Hwf Hmove)
    as (new_board & moves' & Hmv & Hwf' & Hm' & Hrun').
  rewrite Hrun' in Hrun. injection Hrun as <- <-.
  set (nd' := Node (board nd) (current_player nd) (parent nd)
                (children nd ++ [length t]) (wins nd) (visits nd) rest).
  set (cn := Node new_board (get_next_player (current_player nd))
               (Some node) [] 0 0 moves').
  assert (∀ i ndi, (<[node := nd']> t ++ [cn]) !! i = Some ndi →
            (i < length t)%nat →
            ∃ nd0, t !! i = Some nd0 ∧ wins ndi = wins nd0
              ∧ visits ndi = visits nd0 ∧ parent ndi = parent nd0) as Hold.
  { intros i ndi Hi Hil.
    rewrite lookup_app_l in Hi by (rewrite length_insert; exact Hil).
    destruct (decide (i = node)) as [->|Hne].
    - rewrite list_lookup_insert_eq in Hi by exact Hlt. injection Hi as <-.
      exists nd. repeat split. exact En.
    - rewrite list_lookup_insert_ne in Hi by auto. exists ndi. repeat split.
      exact Hi. }
  intros i ndi Hi.
  destruct (decide (i < length t)%nat) as [Hil|Hil].
  - destruct (Hold i ndi Hi Hil) as (nd0 & Hi0 & Hw & Hv & Hp).
    destruct (Hcnt i nd0 Hi0) as [Hwv Hpar]. rewrite Hw, Hv, Hp.
    split; [exact Hwv|]. intros p pn Hp0 Hpn.
    destruct (Hok i nd0 Hi0) as (Hpi & _).
    destruct (Hold p pn Hpn) as (pn0 & Hpn0 & _ & Hvp & _);
      [specialize (Hpi p Hp0); lia|].
    rewrite Hvp. exact (Hpar p pn0 Hp0 Hpn0).
  - rewrite lookup_app_r in Hi by (rewrite length_insert; lia).
    rewrite length_insert in Hi.
    destruct (i - length t)%nat eqn:Ei; [|destruct n; discriminate].
    injection Hi as <-. cbn. split; [lia|]. intros p pn [= <-] Hpn.
    destruct (Hold node pn Hpn Hlt) as (pn0 & Hpn0 & _ & Hvp & _).
    rewrite En in Hpn0. injection Hpn0 as <-.
    destruct (Hcnt node nd En) as [Hwv _]. lia.
Qed.

Lemma tree_shape_backpropagate (fuel : nat) (t t' : tree)
  (node : option nat) (winner : option string) :
  tree_shape t → backpropagate fuel t node winner = Ok t' → tree_shape t'.
Proof.
  intros Hshape Hrun n nd' Hn'.
  pose proof (backpropagate_length _ _ _ _ _ Hrun) as Hlen.
  pose proof (backpropagate_same _ _ _ _ _ Hrun) as Hsame.
  destruct (t !! n) as [nd|] eqn:En;
    [|apply lookup_ge_None in En; apply lookup_lt_Some in Hn'; lia].
  destruct (Hsame n nd En) as (nd1 & Hn1 & Hb & Hp & Hpar & Hc & Hu).
  rewrite Hn' in Hn1. injection Hn1 as <-.
  destruct (Hshape n nd En) as (moves & Hm & Hl & Ht & Hch).
  exists moves. rewrite Hb, Hc, Hu, Hp.
  split; [exact Hm|]. split; [exact Hl|]. split; [exact Ht|].
  intros j c Hj.
  destruct (Hch j c Hj) as (cn & m & Hcn & Hmj & Hmk & Hpc & Hplc).
  destruct (Hsame c cn Hcn) as (cn' & Hcn' & Hb' & Hp' & Hpar' & _).
  exists cn', m. split; [exact Hcn'|]. split; [exact Hmj|].
  split; [congruence|]. split; congruence.
Qed.

Lemma on_path_up (t : tree) (x n p : nat) (nd : MCTSNode) :
  on_path t x n → t !! n = Some nd → parent nd = Some p → on_path t x p.
Proof.
  induction 1 as [n|x ndx px n Hx Hpx Hpath IH]; intros Hn Hp.
  - apply (on_path_parent t n nd p p Hn Hp). constructor.
  - apply (on_path_parent t x ndx px p Hx Hpx). apply IH; assumption.
Qed.

Lemma on_path_dec (t : tree) (n m : nat) :
  wf_tree t → on_path t n m ∨ ¬ on_path t n m.
Proof.
  intros Hwf. induction n as [n IH] using lt_wf_ind.
  destruct (decide (m = n)) as [->|Hne]; [left; constructor|].
  destruct (t !! n) as [nd|] eqn:En.
  - destruct (parent nd) as [p|] eqn:Ep.
    + assert (p < n)%nat as Hp by (apply (Hwf n nd p); assumption).
      destruct (IH p Hp) as [Hon|Hoff].
      * left. apply (on_path_parent t n nd p m); assumption.
      * right. intros Hpath.
        inversion Hpath as [|? nd0 p0 ? Hn0 Hp0 Hrest]; subst; [congruence|].
        rewrite En in Hn0. injection Hn0 as <-.
        rewrite Ep in Hp0. injection Hp0 as <-. contradiction.
    + right. intros Hpath.
      inversion Hpath as [|? nd0 p0 ? Hn0 Hp0 Hrest]; subst; [congruence|].
      rewrite En in Hn0. injection Hn0 as <-. congruence.
  - right. intros Hpath.
    inversion Hpath as [|? nd0 p0 ? Hn0 Hp0 Hrest]; subst; [congruence|].
    rewrite En in Hn0. discriminate.
Qed.

Lemma counters_ok_backpropagated (t t' : tree) (x : nat)
  (winner : option string) :
  wf_tree t → counters_ok t → backpropagated t t' x winner → counters_ok t'.
Proof.
  intros Hwf Hcnt [Hlen Hspec] n nd' Hn'.
  destruct (t !! n) as [nd|] eqn:En;
    [|apply lookup_ge_None in En; apply lookup_lt_Some in Hn'; lia].
  destruct (Hspec n nd En) as (nd1 & Hn1 & Hsame & Hon & Hoff).
  rewrite Hn' in Hn1. injection Hn1 as <-.
  destruct (Hcnt n nd En) as [Hwv Hpar].
  destruct (on_path_dec t x n Hwf) as [Hp|Hp].
  - destruct (Hon Hp) as (Hv & Hw1 & Hw0). split.
    + destruct (decide (winner = Some (get_next_player (current_player nd))))
        as [Hwin|Hwin]; [rewrite (Hw1 Hwin)|rewrite (Hw0 Hwin)]; lia.
    + intros p pn' Hpp Hpn'.
      destruct Hsame as (_ & _ & Hpar' & _). rewrite Hpar' in Hpp.
      destruct (t !! p) as [pn|] eqn:Epn;
        [|apply lookup_ge_None in Epn; apply lookup_lt_Some in Hpn'; lia].
      destruct (Hspec p pn Epn) as (pn1 & Hpn1 & _ & Hpon & _).
      rewrite Hpn' in Hpn1. injection Hpn1 as <-.
      destruct (Hpon (on_path_up t x n p nd Hp En Hpp)) as (Hvp & _).
      specialize (Hpar p pn Hpp Epn). lia.
  - rewrite (Hoff Hp). split; [exact Hwv|]. intros p pn' Hpp Hpn'.
    destruct (t !! p) as [pn|] eqn:Epn;
      [|apply lookup_ge_None in Epn; apply lookup_lt_Some in Hpn'; lia].
    destruct (Hspec p pn Epn) as (pn1 & Hpn1 & _ & Hpon & Hpoff).
    rewrite Hpn' in Hpn1. injection Hpn1 as <-.
    specialize (Hpar p pn Hpp Epn).
    destruct (on_path_dec t x p Hwf) as [Hq|Hq].
    + destruct (Hpon Hq) as (Hvp & _). lia.
    + rewrite (Hpoff Hq). exact Hpar.
Qed.

Lemma rooted_expand (t t' : tree) (node child : nat) :
  tree_ok t → rooted t → expand_node t node = Ok (child, t') → rooted t'.
Proof.
  intros Hok Hroot Hrun.
  assert (∃ nd, t !! node = Some nd) as [nd En].
  { unfold expand_node, get_node in Hrun.
    destruct (t !! node) as [nd|]; [eauto|discriminate]. }
  pose proof (lookup_lt_Some _ _ _ En) as Hlt.
  destruct (Hok node nd En) as (_ & _ & Hwf & _ & Hunt).
  destruct (untried_moves nd) as [|m0 ms] eqn:Eu using rev_ind.
  { unfold expand_node, get_node in Hrun. rewrite En in Hrun.
    cbn [mbind result_bind] in Hrun. rewrite Eu in Hrun. discriminate. }
  clear IHms. rewrite Forall_forall in Hunt.
  destruct (Hunt m0) as [Hmove _]; [apply elem_of_app; right; left|].
  destruct (expand_node_run t node nd ms m0 En Eu Hwf Hmove)
    as (new_board & moves' & Hmv & Hwf' & Hm' & Hrun').
  rewrite Hrun' in Hrun. injection Hrun as <- <-.
  intros i ndi Hi Hne.
  destruct (decide (i < length t)%nat) as [Hil|Hil].
  - rewrite lookup_app_l in Hi by (rewrite length_insert; exact Hil).
    destruct (decide (i = node)) as [->|Hn].
    + rewrite list_lookup_insert_eq in Hi by exact Hlt. injection Hi as <-.
      cbn. exact (Hroot node nd En Hne).
    + rewrite list_lookup_insert_ne in Hi by auto. exact (Hroot i ndi Hi Hne).
  - rewrite lookup_app_r in Hi by (rewrite length_insert; lia).
    rewrite length_insert in Hi.
    destruct (i - length t)%nat eqn:Ei; [|destruct n; discriminate].
    injection Hi as <-. discriminate.
Qed.

Lemma rooted_backpropagate (fuel : nat) (t t' : tree) (node : option nat)
  (winner : option string) :
  rooted t → backpropagate fuel t node winner = Ok t' → rooted t'.
Proof.
  intros Hroot Hrun n nd' Hn' Hne.
  pose proof (backpropagate_length _ _ _ _ _ Hrun) as Hlen.
  destruct (t !! n) as [nd|] eqn:En;
    [|apply lookup_ge_None in En; apply lookup_lt_Some in Hn'; lia].
  destruct (backpropagate_same _ _ _ _ _ Hrun n nd En)
    as (nd1 & Hn1 & _ & _ & Hpar & _).
  rewrite Hn' in Hn1. injection Hn1 as <-. rewrite Hpar.
  exact (Hroot n nd En Hne).
Qed.

Lemma on_path_root (t : tree) (x : nat) :
  tree_ok t → rooted t → (x < length t)%nat → on_path t x 0.
Proof.
  intros Hok Hroot Hx.
  destruct (path_reaches_root t x (tree_ok_wf_tree t Hok) Hx)
    as (root & rnd & Hpath & Hr & Hnone).
  destruct (decide (root = 0%nat)) as [->|Hne]; [exact Hpath|].
  exfalso. exact (Hroot root rnd Hr Hne Hnone).
Qed.

Section SelectionNeverFails.

Context `{FloatOps}.

Hypothesis laws : float_laws.

Lemma uct_value_child (t : tree) (n c : nat) (nd cn : MCTSNode) :
  counters_ok t → t !! n = Some nd → t !! c = Some cn →
  parent cn = Some n →
  ∃ u, uct_value t c = Ok u ∧ float_gt u float_neg_inf = true.
Proof.
  intros Hcnt En Ec Hpar. destruct laws as (Hdef & Hinf & Hgt).
  unfold uct_value, get_node. rewrite Ec. cbn [mbind result_bind].
  destruct (Z.eqb_spec (visits cn) 0) as [Hz|Hnz].
  - exists float_inf. split; [reflexivity|exact Hinf].
  - rewrite Hpar, En. cbn [mbind result_bind].
    destruct (Hcnt c cn Ec) as [Hwv Hle]. specialize (Hle n nd Hpar En).
    destruct (Hdef (wins cn) (visits cn) (visits nd)) as [u Hu]; [lia..|].
    rewrite Hu. exists u. split; [reflexivity|]. eapply Hgt, Hu.
Qed.

Lemma best_child_loop_some (t : tree) (cs : list nat) :
  (∀ c, c ∈ cs → ∃ u, uct_value t c = Ok u
                     ∧ float_gt u float_neg_inf = true) →
  ∀ st,
    ∃ st',
      for_each cs
        (fun child '(best, best_uct) =>
           uct_val ← uct_value t child;
           if float_gt uct_val best_uct then Ok (Some child, uct_val)
           else Ok (best, best_uct)) st = Ok st'
      ∧ (fst st' = fst st ∨ ∃ c, fst st' = Some c ∧ c ∈ cs)
      ∧ (snd st = float_neg_inf → cs ≠ [] → ∃ c, fst st' = Some c ∧ c ∈ cs).
Proof.
  induction cs as [|x cs IH]; intros Hall [best bu].
  - exists (best, bu). split; [reflexivity|]. split; [left; reflexivity|].
    intros _ Hne. contradiction.
  - destruct (Hall x) as (ux & Hux & Hgt); [left|].
    cbn [for_each]. rewrite Hux. cbn [mbind result_bind].
    assert (∀ c, c ∈ cs → ∃ u, uct_value t c = Ok u
                            ∧ float_gt u float_neg_inf = true) as Hall'
      by (intros c Hc; apply Hall; right; exact Hc).
    destruct (float_gt ux bu) eqn:Egt; cbn [mbind result_bind].
    + destruct (IH Hall' (Some x, ux)) as (st' & Hrun & Hfst & _).
      exists st'. split; [exact Hrun|].
      assert (∃ c, fst st' = Some c ∧ c ∈ x :: cs) as Hsome.
      { destruct Hfst as [Hsame|(c & Hc & Hin)].
        - exists x. split; [exact Hsame|left].
        - exists c. split; [exact Hc|right; exact Hin]. }
      split; [right; exact Hsome|]. intros _ _. exact Hsome.
    + destruct (IH Hall' (best, bu)) as (st' & Hrun & Hfst & _).
      exists st'. split; [exact Hrun|]. split.
      * destruct Hfst as [Hsame|(c & Hc & Hin)]; [left; exact Hsame|].
        right. exists c. split; [exact Hc|right; exact Hin].
      * cbn [snd]. intros -> _. congruence.
Qed.

Lemma best_child_some (t : tree) (n : nat) (nd : MCTSNode) :
  tree_shape t → counters_ok t → t !! n = Some nd → children nd ≠ [] →
  ∃ c, best_child t n = Ok (Some c) ∧ c ∈ children nd.
Proof.
  intros Hshape Hcnt En Hne.
  destruct (Hshape n nd En) as (moves & _ & _ & _ & Hch).
  destruct (best_child_loop_some t (children nd)) with
    (st := (@None nat, float_neg_inf)) as (st' & Hrun & _ & Hsome).
  { intros c Hc. apply list_elem_of_lookup in Hc as [j Hj].
    destruct (Hch j c Hj) as (cn & m & Hcn & _ & _ & Hpar & _).
    exact (uct_value_child t n c nd cn Hcnt En Hcn Hpar). }
  destruct (Hsome eq_refl Hne) as (c & Hc & Hin).
  exists c. split; [|exact Hin].
  unfold best_child, get_node. rewrite En. cbn [mbind result_bind].
  rewrite Hrun. cbn [mbind result_bind]. rewrite Hc. reflexivity.
Qed.

Lemma select_node_ok (t : tree) (fuel : nat) :
  tree_ok t → tree_shape t → counters_ok t →
  ∀ n, (n < length t)%nat → (length t - n ≤ fuel)%nat →
    ∃ m nd, select_node fuel t (Some n) = Ok m ∧ t !! m = Some nd
      ∧ (untried_moves nd = [] → children nd = [])
      ∧ (n = 0%nat → m ≠ 0%nat →
         ∃ root, t !! 0%nat = Some root ∧ children root ≠ []).
Proof.
  intros Hok Hshape Hcnt.
  induction fuel as [|fuel IH]; intros n Hn Hfuel; [lia|].
  destruct (t !! n) as [nd|] eqn:En; [|apply lookup_ge_None in En; lia].
  cbn [select_node]. unfold get_node. rewrite En. cbn [mbind result_bind].
  destruct (untried_moves nd) as [|m0 ms] eqn:Eu.
  2:{ exists n, nd. split; [reflexivity|]. split; [exact En|].
      rewrite Eu. split; [discriminate|]. intros; contradiction. }
  destruct (children nd) as [|c0 cs] eqn:Ec.
  { exists n, nd. split; [reflexivity|]. split; [exact En|].
    rewrite Ec. split; [reflexivity|]. intros; contradiction. }
  destruct (best_child_some t n nd Hshape Hcnt En) as (c & Hbest & Hc);
    [rewrite Ec; discriminate|].
  rewrite Hbest. cbn [mbind result_bind].
  destruct (Hok n nd En) as (_ & Hch & _).
  rewrite Forall_forall in Hch. specialize (Hch c Hc).
  destruct (IH c) as (m & ndm & Hsel & Hm & Hleaf & _); [lia..|].
  exists m, ndm. split; [exact Hsel|]. split; [exact Hm|].
  split; [exact Hleaf|]. intros -> _. exists nd. split; [exact En|].
  rewrite Ec. discriminate.
Qed.

End SelectionNeverFails.

Lemma expand_node_keeps (t t' : tree) (node child : nat) :
  expand_node t node = Ok (child, t') →
  child = length t ∧ length t' = S (length t)
  ∧ ∀ i ndi, t !! i = Some ndi →
      ∃ ndi', t' !! i = Some ndi'
        ∧ wins ndi' = wins ndi ∧ visits ndi' = visits ndi
        ∧ board ndi' = board ndi
        ∧ current_player ndi' = current_player ndi
        ∧ (i ≠ node → ndi' = ndi)
        ∧ (i = node → children ndi' = children ndi ++ [child]).
Proof.
  unfold expand_node. intros Hrun.
  apply bind_Ok in Hrun as (nd & Hnd & Hrun).
  apply bind_Ok in Hrun as ([move rest] & Hpop & Hrun).
  cbv zeta in Hrun. unfold set_untried_moves, set_children in Hrun.
  cbn [board current_player children untried_moves parent wins visits]
    in Hrun.
  apply bind_Ok in Hrun as (new_board & Hmv & Hrun).
  apply bind_Ok in Hrun as (cn & Hnew & Hrun).
  injection Hrun as <- <-.
  unfold get_node in Hnd. destruct (t !! node) as [nd0|] eqn:En;
    [|discriminate]. injection Hnd as ->.
  pose proof (lookup_lt_Some _ _ _ En) as Hlt.
  rewrite !length_insert, length_app, length_insert. cbn [length].
  split; [reflexivity|]. split; [lia|].
  intros i ndi Hi. pose proof (lookup_lt_Some _ _ _ Hi) as Hil.
  destruct (decide (i = node)) as [->|Hne].
  - rewrite En in Hi. injection Hi as <-.
    eexists. split.
    { apply list_lookup_insert_eq. rewrite length_app, length_insert. lia. }
    cbn. repeat split. intros Hc. contradiction.
  - exists ndi. split.
    { rewrite list_lookup_insert_ne by auto.
      rewrite lookup_app_l by (rewrite length_insert; exact Hil).
      rewrite list_lookup_insert_ne by auto. exact Hi. }
    repeat split. intros Hc. contradiction.
Qed.

Lemma search_inv_expand (t t' : tree) (node child : nat) :
  search_inv t → expand_node t node = Ok (child, t') → search_inv t'.
Proof.
  intros (Hok & Hshape & Hcnt & Hroot) Hrun. split; [|split; [|split]].
  - eapply tree_ok_expand; eassumption.
  - eapply tree_shape_expand; eassumption.
  - eapply counters_ok_expand; eassumption.
  - eapply rooted_expand; eassumption.
Qed.

Lemma search_inv_backpropagate (t : tree) (x : nat)
  (winner : option string) :
  search_inv t → (x < length t)%nat →
  ∃ t', backpropagate (length t) t (Some x) winner = Ok t'
    ∧ search_inv t' ∧ length t' = length t
    ∧ ∀ r, t !! 0%nat = Some r →
        ∃ r', t' !! 0%nat = Some r' ∧ visits r' = visits r + 1
          ∧ same_node r' r.
Proof.
  intros (Hok & Hshape & Hcnt & Hroot) Hx.
  pose proof (tree_ok_wf_tree t Hok) as Hwf.
  destruct (backpropagate_ok x t (length t) winner Hwf Hx Hx)
    as (t2 & Hbp & Hspec).
  exists t2. split; [exact Hbp|]. split.
  { split; [|split; [|split]].
    - eapply tree_ok_backpropagate; eassumption.
    - eapply tree_shape_backpropagate; eassumption.
    - eapply counters_ok_backpropagated; eassumption.
    - eapply rooted_backpropagate; eassumption. }
  destruct Hspec as [Hlen Hspec]. split; [exact Hlen|].
  intros r Hr. destruct (Hspec 0%nat r Hr) as (r' & Hr' & Hsame & Hon & _).
  exists r'. split; [exact Hr'|]. split; [|exact Hsame].
  apply Hon. apply on_path_root; assumption.
Qed.

Section PassOfSearch.

Context `{FloatOps}.

Hypothesis laws : float_laws.

(** One pass of the loop, from a tree of a search: it ends in a tree of
    a search with at most one node more, it reads no time, it adds 1 to
    the visits of the root, and it leaves the root with a child unless
    the root board has no legal column. *)
Lemma mcts_iteration_inv (t : tree) (w : world) (root : MCTSNode) :
  search_inv t → t !! 0%nat = Some root →
  ∃ t' w' root',
    mcts_iteration t w = Ok (t', w')
    ∧ search_inv t' ∧ t' !! 0%nat = Some root'
    ∧ (length t ≤ length t' ≤ S (length t))%nat
    ∧ ticks w' = ticks w ∧ tick_pos w' = tick_pos w
    ∧ visits root' = visits root + 1
    ∧ board root' = board root
    ∧ current_player root' = current_player root
    ∧ (children root' ≠ [] ∨ get_valid_moves (board root) = Ok []).
Proof.
  intros Hinv Hroot. pose proof Hinv as (Hok & Hshape & Hcnt & Hrooted).
  pose proof (lookup_lt_Some _ _ _ Hroot) as Hlen.
  destruct (select_node_ok laws t (length t) Hok Hshape Hcnt 0%nat Hlen)
    as (node & nd & Hsel & En & Hleaf & Hdeep); [lia|].
  pose proof (lookup_lt_Some _ _ _ En) as Hnl.
  assert (∃ node' t1 nd1 root1,
            (match untried_moves nd with
             | _ :: _ => lift (expand_node t node)
             | [] => mret (node, t)
             end) w = Ok (node', t1, w)
            ∧ search_inv t1 ∧ t1 !! node' = Some nd1
            ∧ (length t ≤ length t1 ≤ S (length t))%nat
            ∧ t1 !! 0%nat = Some root1 ∧ visits root1 = visits root
            ∧ board root1 = board root
            ∧ current_player root1 = current_player root
            ∧ (children root1 ≠ [] ∨ get_valid_moves (board root) = Ok []))
    as (node' & t1 & nd1 & root1 & Hexp & Hinv1 & En1 & Hlen1 & Hroot1 & Hv1
        & Hb1 & Hpl0 & Hch1).
  { destruct (untried_moves nd) as [|m0 ms] eqn:Eu.
    - exists node, t, nd, root. split; [reflexivity|]. split; [exact Hinv|].
      split; [exact En|]. split; [lia|]. split; [exact Hroot|].
      split; [reflexivity|]. split; [reflexivity|]. split; [reflexivity|].
      destruct (decide (node = 0%nat)) as [->|Hne].
      + right. rewrite Hroot in En. injection En as <-.
        destruct (Hshape 0%nat root Hroot) as (moves & Hm & _ & Ht & _).
        rewrite (Hleaf eq_refl), Eu in Ht. cbn [length] in Ht.
        rewrite Nat.sub_0_r, take_ge in Ht by lia. congruence.
      + left. destruct (Hdeep eq_refl Hne) as (r & Hr & Hc).
        rewrite Hroot in Hr. injection Hr as <-. exact Hc.
    - destruct (expand_node_ok t node nd Hok En) as (child & t1 & Hexp);
        [rewrite Eu; discriminate|].
      destruct (expand_node_keeps _ _ _ _ Hexp) as (-> & Hl1 & Hkeep).
      destruct (t1 !! length t) as [nd1|] eqn:Ec;
        [|apply lookup_ge_None in Ec; lia].
      destruct (Hkeep 0%nat root Hroot)
        as (root1 & Hroot1 & _ & Hv1 & Hb1 & Hp1 & Hsame & Hnew).
      exists (length t), t1, nd1, root1. unfold lift. rewrite Hexp.
      split; [reflexivity|].
      split; [eapply search_inv_expand; eassumption|].
      split; [exact Ec|]. split; [lia|]. split; [exact Hroot1|].
      split; [exact Hv1|]. split; [exact Hb1|]. split; [exact Hp1|]. left.
      destruct (decide (node = 0%nat)) as [->|Hne].
      + rewrite (Hnew eq_refl). intros Hnil.
        apply (f_equal length) in Hnil. rewrite length_app in Hnil.
        cbn in Hnil. lia.
      + rewrite (Hsame (not_eq_sym Hne)).
        destruct (Hdeep eq_refl Hne) as (r & Hr & Hc).
        rewrite Hroot in Hr. injection Hr as <-. exact Hc. }
  pose proof Hinv1 as (Hok1 & _).
  destruct (Hok1 node' nd1 En1) as (_ & _ & Hwf1 & Hpl1 & _).
  destruct (simulate_loop_ends rollout_fuel (board nd1) (current_player nd1)
              0 w Hwf1 Hpl1) as (r & w2 & Hsim & _).
  { pose proof (empties_le (board nd1)). unfold rollout_fuel, ROWS, COLS.
    simpl. lia. }
  pose proof (keeps_clock_simulate_game rollout_fuel (board nd1)
                (current_player nd1)) as Hclock.
  assert (simulate_game rollout_fuel (board nd1) (current_player nd1) w
          = Ok (ro_winner r, w2)) as Hgame.
  { unfold simulate_game, simulate_trace, mbind, prog_bind. rewrite Hsim.
    reflexivity. }
  pose proof (lookup_lt_Some _ _ _ En1) as Hlt1.
  destruct (search_inv_backpropagate t1 node' (ro_winner r) Hinv1 Hlt1)
    as (t2 & Hbp & Hinv2 & Hlen2 & Hroot2).
  destruct (Hroot2 root1 Hroot1) as (root2 & Hr2 & Hv2 & Hsame2).
  exists t2, w2, root2. split.
  { unfold mcts_iteration.
    unfold mbind at 1. unfold prog_bind at 1. unfold lift at 1.
    rewrite Hsel.
    unfold mbind at 1. unfold prog_bind at 1. unfold lift at 1.
    unfold get_node at 1. rewrite En.
    unfold mbind at 1. unfold prog_bind at 1. rewrite Hexp.
    unfold mbind at 1. unfold prog_bind at 1. unfold lift at 1.
    unfold get_node at 1. rewrite En1.
    unfold mbind at 1. unfold prog_bind at 1. rewrite Hgame.
    unfold lift. rewrite Hbp. reflexivity. }
  apply Hclock in Hgame as [Ht Hp].
  destruct Hsame2 as (Hb2 & Hp2 & _ & Hc2 & _).
  split; [exact Hinv2|]. split; [exact Hr2|]. split; [lia|].
  split; [exact Ht|]. split; [exact Hp|]. split; [lia|].
  split; [congruence|]. split; [congruence|].
  rewrite Hc2. exact Hch1.
Qed.

End PassOfSearch.

Lemma mcts_loop_zero_passes `{FloatOps} (start limit : Q) (fuel : nat)
  (t : tree) (w : world) (t' : tree) (w' : world) :
  mcts_loop fuel start limit t w = Ok (t', w') →
  Qltb (ticks w (tick_pos w) - start) limit = false →
  t' = t ∧ w' = World (draws w) (draw_pos w) (ticks w) (S (tick_pos w)).
Proof.
  destruct fuel as [|fuel]; [discriminate|].
  cbn [mcts_loop]. unfold mbind at 1. unfold prog_bind at 1.
  unfold time_time at 1. intros Hrun Hstop. rewrite Hstop in Hrun.
  injection Hrun as <- <-. split; reflexivity.
Qed.

Section LoopOfSearch.

Context `{FloatOps}.

Hypothesis laws : float_laws.

Lemma mcts_loop_inv (start limit : Q) (fuel : nat) :
  ∀ (t : tree) (w : world) (root : MCTSNode),
    search_inv t → t !! 0%nat = Some root →
    time_is_up fuel start limit w →
    ∃ t' w' root' passes,
      mcts_loop fuel start limit t w = Ok (t', w')
      ∧ search_inv t' ∧ t' !! 0%nat = Some root'
      ∧ visits root' = visits root + Z.of_nat passes
      ∧ board root' = board root
      ∧ current_player root' = current_player root
      ∧ w' = World (draws w') (draw_pos w') (ticks w)
               (tick_pos w + passes + 1)
      ∧ (length t' ≤ length t + passes)%nat
      ∧ (∀ j, (j < passes)%nat →
           Qltb (ticks w (tick_pos w + j)%nat - start) limit = true)
      ∧ Qltb (ticks w (tick_pos w + passes)%nat - start) limit = false
      ∧ (passes = 0%nat → t' = t)
      ∧ ((0 < passes)%nat →
         children root' ≠ [] ∨ get_valid_moves (board root) = Ok []).
Proof.
  induction fuel as [|fuel IH]; intros t w root Hinv Hroot (k & Hk & Hup);
    [lia|].
  cbn [mcts_loop]. unfold mbind at 1. unfold prog_bind at 1.
  unfold time_time at 1.
  destruct (Qltb (ticks w (tick_pos w) - start) limit) eqn:Enow.
  - assert (k ≠ 0)%nat as Hk0.
    { intros ->. rewrite Nat.add_0_r in Hup. congruence. }
    set (w1 := World (draws w) (draw_pos w) (ticks w) (S (tick_pos w))).
    destruct (mcts_iteration_inv laws t w1 root Hinv Hroot)
      as (t1 & w2 & root1 & Hit & Hinv1 & Hroot1 & Hlen1 & Ht & Hp & Hv1 & Hb1
          & Hpl1 & Hch1).
    unfold mbind at 1. unfold prog_bind at 1. rewrite Hit.
    destruct (IH t1 w2 root1 Hinv1 Hroot1)
      as (t' & w' & root' & passes & Hrun & Hinv' & Hroot' & Hv' & Hb' & Hpl'
          & Hw' & Hlen' & Hbelow & Hstop & _ & Hch').
    { exists (k - 1)%nat. split; [lia|]. rewrite Ht, Hp. cbn.
      replace (S (tick_pos w + (k - 1)))%nat with (tick_pos w + k)%nat by lia.
      exact Hup. }
    exists t', w', root', (S passes). split; [exact Hrun|].
    split; [exact Hinv'|]. split; [exact Hroot'|]. split; [lia|].
    split; [congruence|]. split; [congruence|]. split.
    { rewrite Hw'. cbn. rewrite Ht, Hp. cbn. f_equal. lia. }
    split; [lia|]. split.
    { intros j Hj. destruct j as [|j].
      - rewrite Nat.add_0_r. exact Enow.
      - specialize (Hbelow j). rewrite Ht, Hp in Hbelow. cbn in Hbelow.
        replace (tick_pos w + S j)%nat with (S (tick_pos w + j)) by lia.
        apply Hbelow. lia. }
    split.
    { rewrite Ht, Hp in Hstop. cbn in Hstop.
      replace (tick_pos w + S passes)%nat with (S (tick_pos w + passes))
        by lia. exact Hstop. }
    split; [intros; lia|]. intros _.
    destruct passes as [|passes].
    + destruct (mcts_loop_zero_passes start limit fuel t1 w2 t' w' Hrun)
        as [-> _]; [rewrite Nat.add_0_r in Hstop; exact Hstop|].
      rewrite Hroot1 in Hroot'. injection Hroot' as <-. exact Hch1.
    + rewrite Hb1 in Hch'. apply Hch'. lia.
  - exists t, (World (draws w) (draw_pos w) (ticks w) (S (tick_pos w))),
      root, 0%nat.
    split; [reflexivity|]. split; [exact Hinv|]. split; [exact Hroot|].
    split; [lia|]. split; [reflexivity|]. split; [reflexivity|].
    split; [cbn; f_equal; lia|]. split; [lia|]. split; [intros; lia|].
    split; [rewrite Nat.add_0_r; exact Enow|]. split; [reflexivity|].
    intros; lia.
Qed.

End LoopOfSearch.

Lemma search_inv_root (b : Board) (p : string) :
  wf_board b → is_player p →
  search_inv
    [Node b p None [] 0 0 (filter (fun c => cell b 0 c = ".") (range COLS))].
Proof.
  intros Hwf Hp. split; [|split; [|split]].
  - intros n nd Hn. destruct n; [|discriminate]. injection Hn as <-. cbn.
    split; [discriminate|]. split; [constructor|]. split; [exact Hwf|].
    split; [exact Hp|]. apply Forall_forall. intros m Hm.
    apply elem_of_valid_moves, Hm.
  - intros n nd Hn. destruct n; [|discriminate]. injection Hn as <-.
    exists (filter (fun c => cell b 0 c = ".") (range COLS)). cbn.
    split; [apply get_valid_moves_wf, Hwf|]. split; [lia|].
    split; [rewrite Nat.sub_0_r, take_ge by lia; reflexivity|].
    intros j c Hj. discriminate.
  - intros n nd Hn. destruct n; [|discriminate]. injection Hn as <-. cbn.
    split; [lia|]. intros; discriminate.
  - intros n nd Hn Hne. destruct n; [contradiction|discriminate].
Qed.

Section TreeOfSearch.

Context `{FloatOps}.

Hypothesis laws : float_laws.

(** The search, up to the end of its loop: with fuel for the clock to
    reach the limit it returns a tree of a search, whose root was visited
    once per pass. *)
Lemma mcts_tree_inv (fuel : nat) (root_board : Board) (player : string)
  (time_limit : Q) (w : world) :
  wf_board root_board → is_player player →
  time_is_up fuel (ticks w (tick_pos w)) time_limit
    (World (draws w) (draw_pos w) (ticks w) (S (tick_pos w))) →
  ∃ t w1 root passes,
    mcts_tree fuel root_board player time_limit w = Ok (t, w1)
    ∧ search_inv t ∧ t !! 0%nat = Some root
    ∧ board root = root_board ∧ current_player root = player
    ∧ visits root = Z.of_nat passes
    ∧ ticks w1 = ticks w ∧ tick_pos w1 = (tick_pos w + passes + 2)%nat
    ∧ (length t ≤ passes + 1)%nat
    ∧ (∀ j, (j < passes)%nat →
         Qltb (ticks w (S (tick_pos w + j)) - ticks w (tick_pos w))
           time_limit = true)
    ∧ Qltb (ticks w (S (tick_pos w + passes)) - ticks w (tick_pos w))
        time_limit = false
    ∧ ((0 < passes)%nat →
       children root ≠ [] ∨ get_valid_moves root_board = Ok []).
Proof.
  intros Hwf Hp Hup.
  destruct (mcts_loop_inv laws (ticks w (tick_pos w)) time_limit fuel _ _ _
              (search_inv_root root_board player Hwf Hp) eq_refl Hup)
    as (t & w1 & root & passes & Hrun & Hinv & Hroot & Hv & Hb & Hpl & Hw
        & Hlen & Hbelow & Hstop & _ & Hch).
  exists t, w1, root, passes. split.
  { unfold mcts_tree.
    unfold mbind at 1. unfold prog_bind at 1. unfold time_time at 1.
    unfold mbind at 1. unfold prog_bind at 1. unfold lift at 1.
    unfold new_node. rewrite get_valid_moves_wf by exact Hwf.
    cbn [mbind result_bind]. exact Hrun. }
  cbn in *. split; [exact Hinv|]. split; [exact Hroot|].
  split; [exact Hb|]. split; [exact Hpl|]. split; [lia|].
  split; [rewrite Hw; reflexivity|].
  split; [rewrite Hw; cbn; lia|]. split; [lia|].
  split; [exact Hbelow|]. split; [exact Hstop|exact Hch].
Qed.

(** X8: with fuel for the clock to reach the limit, the loop of [mcts]
    ends in a tree in which, at every node, the untried moves and the
    children share out the legal columns of the node's board: the
    untried moves are the first of them in ascending order, and the
    [j]-th child holds the board after the [j]-th legal column from the
    right, played by the node's player, with the other player to move.
    So no column is expanded twice, and a node without untried move has
    one child for each legal column. *)
Theorem mcts_tree_shape (fuel : nat) (root_board : Board) (player : string)
  (time_limit : Q) (w : world) :
  wf_board root_board → is_player player →
  time_is_up fuel (ticks w (tick_pos w)) time_limit
    (World (draws w) (draw_pos w) (ticks w) (S (tick_pos w))) →
  ∃ t w1 root,
    mcts_tree fuel root_board player time_limit w = Ok (t, w1)
    ∧ t !! 0%nat = Some root ∧ board root = root_board
    ∧ current_player root = player ∧ parent root = None
    ∧ tree_shape t
    ∧ ∀ n nd moves,
        t !! n = Some nd → get_valid_moves (board nd) = Ok moves →
        wf_board (board nd) ∧ is_player (current_player nd)
        ∧ (untried_moves nd = [] → length (children nd) = length moves)
        ∧ (∀ j j' c, children nd !! j = Some c → children nd !! j' = Some c →
             j = j').
Proof.
  intros Hwf Hp Hup.
  destruct (mcts_tree_inv fuel root_board player time_limit w Hwf Hp Hup)
    as (t & w1 & root & passes & Hrun & (Hok & Hshape & Hcnt & Hrooted)
        & Hroot & Hb & Hpl & _).
  exists t, w1, root. split; [exact Hrun|]. split; [exact Hroot|].
  split; [exact Hb|]. split; [exact Hpl|]. split.
  { destruct (parent root) as [q|] eqn:Eq; [|reflexivity].
    destruct (Hok 0%nat root Hroot) as (Hpar & _). specialize (Hpar q Eq).
    lia. }
  split; [exact Hshape|]. intros n nd moves Hn Hmoves.
  destruct (Hok n nd Hn) as (_ & _ & Hwfn & Hpn & _).
  destruct (Hshape n nd Hn) as (moves' & Hm' & Hlen & Htake & Hch).
  rewrite Hmoves in Hm'. injection Hm' as <-.
  split; [exact Hwfn|]. split; [exact Hpn|]. split.
  - intros Hnil. rewrite Hnil in Htake. symmetry in Htake.
    apply (f_equal length) in Htake. rewrite length_take in Htake.
    cbn in Htake. lia.
  - intros j j' c Hj Hj'.
    destruct (Hch j c Hj) as (cn & m & Hcn & Hm & Hmk & _).
    destruct (Hch j' c Hj') as (cn' & m' & Hcn' & Hmj' & Hmk' & _).
    rewrite Hcn in Hcn'. injection Hcn' as <-.
    rewrite get_valid_moves_wf in Hmoves by exact Hwfn.
    injection Hmoves as <-.
    assert (m = m') as <-.
    { pose proof (list_elem_of_lookup_2 _ _ _ Hm) as Hin.
      pose proof (list_elem_of_lookup_2 _ _ _ Hmj') as Hin'.
      apply elem_of_valid_moves in Hin as [Hc Ht].
      apply elem_of_valid_moves in Hin' as [Hc' Ht'].
      apply (leads_to_unique (board nd) (current_player nd) (board cn));
        try assumption.
      destruct Hpn as [-> | ->]; discriminate. }
    assert (NoDup (filter (fun c => cell (board nd) 0 c = ".") (range COLS)))
      as Hnd by (apply NoDup_filter, NoDup_seqZ).
    pose proof (NoDup_lookup _ _ _ _ Hnd Hm Hmj') as Heq.
    apply lookup_lt_Some in Hj, Hj', Hm, Hmj'. lia.
Qed.

(** X9: in that tree the wins of every node are between 0 and its
    visits, no node was visited more often than its parent, and the
    visits of the root are the number of passes of the loop, which is
    the number of readings of the clock below the limit; the clock was
    read twice more than that, the random generator alone was used
    besides, and each pass made at most one node. *)
Theorem mcts_tree_counters (fuel : nat) (root_board : Board)
  (player : string) (time_limit : Q) (w : world) :
  wf_board root_board → is_player player →
  time_is_up fuel (ticks w (tick_pos w)) time_limit
    (World (draws w) (draw_pos w) (ticks w) (S (tick_pos w))) →
  ∃ t w1 root passes,
    mcts_tree fuel root_board player time_limit w = Ok (t, w1)
    ∧ counters_ok t
    ∧ t !! 0%nat = Some root ∧ visits root = Z.of_nat passes
    ∧ (∀ j, (j < passes)%nat →
         Qltb (ticks w (S (tick_pos w + j)) - ticks w (tick_pos w))
           time_limit = true)
    ∧ Qltb (ticks w (S (tick_pos w + passes)) - ticks w (tick_pos w))
        time_limit = false
    ∧ ticks w1 = ticks w ∧ tick_pos w1 = (tick_pos w + passes + 2)%nat
    ∧ (1 ≤ length t ≤ passes + 1)%nat.
Proof.
  intros Hwf Hp Hup.
  destruct (mcts_tree_inv fuel root_board player time_limit w Hwf Hp Hup)
    as (t & w1 & root & passes & Hrun & (Hok & Hshape & Hcnt & Hrooted)
        & Hroot & Hb & Hpl & Hv & Ht & Htp & Hlen & Hbelow & Hstop & _).
  exists t, w1, root, passes. split; [exact Hrun|]. split; [exact Hcnt|].
  split; [exact Hroot|]. split; [exact Hv|]. split; [exact Hbelow|].
  split; [exact Hstop|]. split; [exact Ht|]. split; [exact Htp|].
  apply lookup_lt_Some in Hroot. lia.
Qed.

(** [mcts] on a grid with a legal column. *)
Lemma mcts_legal (fuel : nat) (root_board : Board)
  (player : string) (simulations : Z) (time_limit : Q) (w : world)
  (moves : list Z) :
  wf_board root_board → is_player player →
  get_valid_moves root_board = Ok moves → moves ≠ [] →
  time_is_up fuel (ticks w (tick_pos w)) time_limit
    (World (draws w) (draw_pos w) (ticks w) (S (tick_pos w))) →
  ∃ col w',
    mcts fuel root_board player simulations time_limit w = Ok (col, w')
    ∧ col ∈ moves.
Proof.
  intros Hwf Hp Hmoves Hne Hup.
  destruct (mcts_tree_inv fuel root_board player time_limit w Hwf Hp Hup)
    as (t & w1 & root & passes & Hrun & _ & Hroot & _).
  destruct (root_inv_mcts_tree _ _ _ _ _ _ _ Hrun) as (moves' & Hm' & Hinv).
  rewrite Hmoves in Hm'. injection Hm' as <-.
  assert (mcts fuel root_board player simulations time_limit w
          = mcts_finish t root_board player w1) as ->.
  { unfold mcts, mbind, prog_bind. rewrite Hrun. reflexivity. }
  destruct (children root) as [|c cs] eqn:Ec.
  - rewrite (mcts_finish_no_children t root) by assumption.
    destruct (random_choice_elem moves w1 Hne) as (col & w2 & Hch & Hin).
    exists col, w2. split; [|exact Hin].
    unfold mbind, prog_bind, lift. rewrite Hmoves. exact Hch.
  - destruct (mcts_finish_children t root root_board player moves w1
                Hwf Hmoves Hinv Hroot)
      as (col & best & bn & Hfin & _ & _ & Hcol & _);
      [rewrite Ec; discriminate|].
    exists col, w1. split; assumption.
Qed.

(** X10: on a grid with a legal column, for either player, [mcts]
    returns a legal column as soon as the fuel covers the readings of
    the clock up to the time limit: it raises nothing. *)
Theorem mcts_returns_legal_column (fuel : nat) (root_board : Board)
  (player : string) (simulations : Z) (time_limit : Q) (w : world)
  (moves : list Z) :
  wf_board root_board → is_player player →
  get_valid_moves root_board = Ok moves → moves ≠ [] →
  time_is_up fuel (ticks w (tick_pos w)) time_limit
    (World (draws w) (draw_pos w) (ticks w) (S (tick_pos w))) →
  ∃ col w',
    mcts fuel root_board player simulations time_limit w = Ok (col, w')
    ∧ col ∈ moves.
Proof. apply mcts_legal. Qed.

End TreeOfSearch.

Section PolicyIsLegal.

Context `{FloatOps}.

Hypothesis laws : float_laws.

(** X11: on a grid with a legal column, for either player and any
    difficulty, [ai_move] returns a legal column as soon as the fuel
    covers the readings of the clock over one second: neither the random
    override, nor the tactical test, nor the search raises. *)
Theorem ai_move_returns_legal_column (fuel : nat) (board : Board)
  (player : string) (difficulty : Z) (w : world) (moves : list Z) :
  wf_board board → is_player player →
  get_valid_moves board = Ok moves → moves ≠ [] →
  time_is_up fuel (ticks w (tick_pos w)) 1%Q
    (World (draws w) (draw_pos w) (ticks w) (S (tick_pos w))) →
  ∃ col w', ai_move fuel board player difficulty w = Ok (col, w')
    ∧ col ∈ moves.
Proof.
  intros Hwf Hp Hmoves Hne Hup.
  assert (∃ col w', mcts fuel board player 300 1%Q (after_draw w)
                    = Ok (col, w') ∧ col ∈ moves) as Hsearch.
  { apply (mcts_legal laws fuel board player 300 1%Q (after_draw w) moves
             Hwf Hp Hmoves Hne).
    destruct Hup as (k & Hk & Hq). exists k. split; [exact Hk|exact Hq]. }
  unfold ai_move, ai_move_with. unfold mbind at 1. unfold prog_bind at 1.
  rewrite random_random_run.
  destruct (_ || _).
  - unfold mbind, prog_bind, lift. rewrite Hmoves.
    apply random_choice_elem, Hne.
  - unfold mbind at 1. unfold prog_bind at 1.
    destruct (difficulty =? 5); [|exact Hsearch].
    unfold lift. rewrite (find_immediate_win_or_block_wf board player Hwf).
    cbv zeta. rewrite (get_valid_moves_wf board Hwf) in Hmoves.
    injection Hmoves as <-.
    destruct (find (wins_after board player) _) as [col|] eqn:E1.
    { exists col, (after_draw w). split; [reflexivity|].
      apply find_some in E1 as [Hin _]. apply list_elem_of_In, Hin. }
    destruct (find (wins_after board (get_next_player player)) _)
      as [col|] eqn:E2; [|exact Hsearch].
    exists col, (after_draw w). split; [reflexivity|].
    apply find_some in E2 as [Hin _]. apply list_elem_of_In, Hin.
Qed.

End PolicyIsLegal.

Lemma xrat_float_laws : float_laws (H := xrat_ops).
Proof.
  split; [|split].
  - intros w v pv Hv Hpv. cbn. destruct (pv <=? 0) eqn:E; [lia|eauto].
  - reflexivity.
  - intros w v pv x. cbn. destruct (pv <=? 0); [discriminate|].
    intros [= <-]. reflexivity.
Qed.

Lemma sample_world_time_is_up (pos : nat) :
  time_is_up 100 (ticks sample_world pos) 1%Q
    (World (draws sample_world) (draw_pos sample_world) (ticks sample_world)
       (S pos)).
Proof.
  exists 3%nat. split; [lia|]. unfold Qltb. cbn.
  apply Z.ltb_ge. lia.
Qed.

Lemma mcts_tree_shape_witness :
  ∃ t w1 root,
    mcts_tree (H := xrat_ops) 100 empty_board "R" 1%Q sample_world
    = Ok (t, w1)
    ∧ t !! 0%nat = Some root ∧ tree_shape t.
Proof.
  destruct (mcts_tree_shape (H := xrat_ops) xrat_float_laws 100 empty_board
              "R" 1%Q sample_world wf_empty_board (or_introl eq_refl)
              (sample_world_time_is_up 0))
    as (t & w1 & root & Hrun & Hroot & _ & _ & _ & Hshape & _).
  exists t, w1, root. split; [exact Hrun|]. split; [exact Hroot|exact Hshape].
Defined.

Lemma mcts_tree_counters_witness :
  ∃ t w1 root passes,
    mcts_tree (H := xrat_ops) 100 empty_board "Y" 1%Q sample_world
    = Ok (t, w1)
    ∧ counters_ok t ∧ t !! 0%nat = Some root
    ∧ visits root = Z.of_nat passes.
Proof.
  destruct (mcts_tree_counters (H := xrat_ops) xrat_float_laws 100
              empty_board "Y" 1%Q sample_world wf_empty_board
              (or_intror eq_refl) (sample_world_time_is_up 0))
    as (t & w1 & root & passes & Hrun & Hcnt & Hroot & Hv & _).
  exists t, w1, root, passes.
  split; [exact Hrun|]. split; [exact Hcnt|]. split; [exact Hroot|exact Hv].
Defined.

Lemma mcts_returns_legal_column_witness :
  ∃ col w',
    mcts (H := xrat_ops) 100 midgame_board "R" 500 1%Q sample_world
    = Ok (col, w')
    ∧ col ∈ [0; 1; 2; 3; 4; 5; 6].
Proof.
  apply (mcts_returns_legal_column (H := xrat_ops) xrat_float_laws 100
           midgame_board "R" 500 1%Q sample_world [0; 1; 2; 3; 4; 5; 6]
           wf_midgame_board (or_introl eq_refl) eq_refl);
    [discriminate|apply (sample_world_time_is_up 0)].
Defined.

Lemma ai_move_returns_legal_column_witness :
  ∃ col w',
    ai_move (H := xrat_ops) 100 midgame_board "Y" 3 sample_world
    = Ok (col, w')
    ∧ col ∈ [0; 1; 2; 3; 4; 5; 6].
Proof.
  apply (ai_move_returns_legal_column (H := xrat_ops) xrat_float_laws 100
           midgame_board "Y" 3 sample_world [0; 1; 2; 3; 4; 5; 6]
           wf_midgame_board (or_intror eq_refl) eq_refl);
    [discriminate|apply (sample_world_time_is_up 0)].
Defined.

(** ** The copies of [main.py] *)

Lemma main_backpropagate_eq (fuel : nat) :
  ∀ (t : tree) (node : option nat) (winner : option string),
    Main.backpropagate fuel t node winner = backpropagate fuel t node winner.
Proof.
  induction fuel as [|fuel IH]; intros t [n|] winner; try reflexivity.
  cbn [Main.backpropagate backpropagate].
  destruct (get_node t n) as [nd| |]; [|reflexivity..].
  cbn [mbind result_bind]. cbv zeta.
  destruct winner as [s|]; cbn [Main.winner_eq]; apply IH.
Qed.

(** X12: [backpropagate] of [main.py], which compares the winner with
    the other player of the node without testing [winner is not None]
    first, computes what [backpropagate] of [mcts.py] computes, for every
    tree, node and winner, [None] included: the test is redundant. *)
Theorem backpropagate_none_test_redundant (fuel : nat) (t : tree)
  (node : option nat) (winner : option string) :
  Main.backpropagate fuel t node winner = backpropagate fuel t node winner
  ∧ (winner = None →
     ∀ t', backpropagate fuel t node winner = Ok t' →
       Forall2 (fun nd nd' => wins nd' = wins nd) t t').
Proof.
  split; [apply main_backpropagate_eq|].
  intros ->. revert t node.
  assert (∀ l : tree, Forall2 (fun nd nd' => wins nd' = wins nd) l l) as Hrefl.
  { intros l. apply Forall2_same_length_lookup_2; [reflexivity|].
    intros i x y Hx Hy. congruence. }
  induction fuel as [|fuel IH]; intros t [n|] t'; cbn [backpropagate];
    intros Hrun; try discriminate Hrun;
    try (injection Hrun as Hrun; subst t'; apply Hrefl).
  revert Hrun.
  - destruct (t !! n) as [nd|] eqn:En; unfold get_node; rewrite En;
      [|discriminate].
    cbn [mbind result_bind]. cbv zeta. intros Hrun.
    apply IH in Hrun.
    apply Forall2_same_length_lookup_2.
    { apply Forall2_length in Hrun. rewrite length_insert in Hrun.
      exact Hrun. }
    intros i x y Hx Hy.
    destruct (decide (i = n)) as [->|Hne].
    + rewrite En in Hx. injection Hx as <-.
      assert (<[n := set_visits nd (visits nd + 1)]> t !! n
              = Some (set_visits nd (visits nd + 1))) as Hl
        by (apply list_lookup_insert_eq; eapply lookup_lt_Some, En).
      rewrite (Forall2_lookup_lr _ _ _ n _ y Hrun Hl Hy).
      destruct nd; reflexivity.
    + assert (<[n := set_visits nd (visits nd + 1)]> t !! i = Some x) as Hl
        by (rewrite list_lookup_insert_ne by congruence; exact Hx).
      exact (Forall2_lookup_lr _ _ _ i x y Hrun Hl Hy).
Qed.

Lemma main_max_by_visits_some (t : tree) (cs : list nat) :
  cs ≠ [] →
  max_by_visits t cs = (b ← Main.max_by_visits t cs; Ok (Some b)).
Proof.
  intros Hne. destruct cs as [|c cs]; [contradiction|].
  unfold max_by_visits, Main.max_by_visits.
  destruct (get_node t c) as [v| |]; [|reflexivity..].
  cbn [mbind result_bind].
  destruct (for_each cs _ _) as [r| |]; reflexivity.
Qed.

Lemma prog_bind_ext {A B} (m : prog A) (f g : A → prog B) (w : world) :
  (∀ a w', f a w' = g a w') → (m ≫= f) w = (m ≫= g) w.
Proof.
  intros Hfg. unfold mbind, prog_bind.
  destruct (m w) as [[a w']| |]; [apply Hfg|reflexivity..].
Qed.

Lemma prog_bind_lift_Ok {A B} (a : A) (f : A → prog B) (w : world) :
  (lift (Ok a) ≫= f) w = f a w.
Proof. reflexivity. Qed.

Section MainSearch.

Context `{FloatOps}.

Lemma main_mcts_iteration_eq (t : tree) (w : world) :
  Main.mcts_iteration t w = mcts_iteration t w.
Proof.
  unfold Main.mcts_iteration, mcts_iteration.
  apply prog_bind_ext. intros node w1.
  apply prog_bind_ext. intros nd w2.
  apply prog_bind_ext. intros [node' t1] w3.
  apply prog_bind_ext. intros nd' w4.
  apply prog_bind_ext. intros winner w5.
  unfold lift. rewrite main_backpropagate_eq. reflexivity.
Qed.

Lemma main_mcts_loop_eq (start limit : Q) (fuel : nat) :
  ∀ (t : tree) (w : world),
    Main.mcts_loop fuel start limit t w = mcts_loop fuel start limit t w.
Proof.
  induction fuel as [|fuel IH]; intros t w; [reflexivity|].
  cbn [Main.mcts_loop mcts_loop].
  unfold mbind at 1 3. unfold prog_bind at 1 3. unfold time_time.
  destruct (Qltb _ _); [|reflexivity].
  unfold mbind, prog_bind. rewrite main_mcts_iteration_eq.
  destruct (mcts_iteration t _) as [[t1 w1]| |]; [|reflexivity..].
  apply IH.
Qed.

Lemma main_mcts_tree_eq (fuel : nat) (b : Board) (p : string) (limit : Q)
  (w : world) :
  Main.mcts_tree fuel b p limit w = mcts_tree fuel b p limit w.
Proof.
  unfold Main.mcts_tree, mcts_tree.
  unfold mbind at 1 3. unfold prog_bind at 1 3. unfold time_time.
  unfold mbind, prog_bind.
  destruct (lift (new_node b p None) _) as [[root w1]| |]; [|reflexivity..].
  apply main_mcts_loop_eq.
Qed.

Lemma main_mcts_finish_children (t : tree) (root : MCTSNode) (b : Board)
  (p : string) (w : world) :
  t !! 0%nat = Some root → children root ≠ [] →
  Main.mcts_finish t b p w = mcts_finish t b p w.
Proof.
  intros Hroot Hne. unfold Main.mcts_finish, mcts_finish, get_node.
  rewrite Hroot, !prog_bind_lift_Ok. cbv beta.
  rewrite (main_max_by_visits_some t (children root) Hne).
  unfold mbind, prog_bind, lift.
  destruct (Main.max_by_visits t (children root)) as [best| |];
    reflexivity.
Qed.

Lemma main_mcts_finish_no_children (t : tree) (root : MCTSNode) (b : Board)
  (p : string) (w : world) :
  t !! 0%nat = Some root → children root = [] →
  Main.mcts_finish t b p w = Raise ValueError.
Proof.
  intros Hroot Hnil. unfold Main.mcts_finish, get_node. rewrite Hroot.
  unfold mbind at 1. unfold prog_bind at 1. unfold lift at 1.
  rewrite Hnil. reflexivity.
Qed.

Hypothesis laws : float_laws.

(** X13: [mcts] of [main.py] against [mcts] of [mcts.py], with fuel for
    the clock to reach the limit.  When the first reading of the clock
    in the loop is below the limit and the grid has a legal column, the
    two return the same column, a legal one.  Otherwise the root has no
    child when the loop ends, and [mcts] of [main.py] raises
    [ValueError], from [max] on an empty list; there [mcts] of [mcts.py]
    raises [IndexError] if the grid has no legal column, and returns a
    legal column if it has one. *)
Theorem main_mcts_unguarded_max (fuel : nat) (root_board : Board)
  (player : string) (simulations simulations' : Z) (time_limit : Q)
  (w : world) (moves : list Z) :
  wf_board root_board → is_player player →
  get_valid_moves root_board = Ok moves →
  time_is_up fuel (ticks w (tick_pos w)) time_limit
    (World (draws w) (draw_pos w) (ticks w) (S (tick_pos w))) →
  let first_pass :=
    Qltb (ticks w (S (tick_pos w)) - ticks w (tick_pos w)) time_limit in
  (moves = [] ∨ first_pass = false →
   Main.mcts fuel root_board player simulations time_limit w
   = Raise ValueError)
  ∧ (moves = [] →
     mcts fuel root_board player simulations' time_limit w
     = Raise IndexError)
  ∧ (moves ≠ [] →
     ∃ col w',
       mcts fuel root_board player simulations' time_limit w = Ok (col, w')
       ∧ col ∈ moves
       ∧ (first_pass = true →
          Main.mcts fuel root_board player simulations time_limit w
          = Ok (col, w'))).
Proof.
  intros Hwf Hp Hmoves Hup first_pass.
  destruct (mcts_tree_inv laws fuel root_board player time_limit w Hwf Hp Hup)
    as (t & w1 & root & passes & Hrun & (Hok & Hshape & Hcnt & Hrooted)
        & Hroot & Hb & Hpl & Hv & Ht & Htp & Hlen & Hbelow & Hstop & Hch).
  assert (Main.mcts fuel root_board player simulations time_limit w
          = Main.mcts_finish t root_board player w1) as Hmain.
  { unfold Main.mcts, mbind, prog_bind. rewrite main_mcts_tree_eq, Hrun.
    reflexivity. }
  assert (mcts fuel root_board player simulations' time_limit w
          = mcts_finish t root_board player w1) as Hmcts.
  { unfold mcts, mbind, prog_bind. rewrite Hrun. reflexivity. }
  assert (moves = [] → children root = []) as Hfull.
  { intros ->. destruct (Hshape 0%nat root Hroot) as (moves' & Hm' & Hl & _).
    rewrite Hb, Hmoves in Hm'. injection Hm' as <-.
    destruct (children root); [reflexivity|cbn in Hl; lia]. }
  assert (first_pass = false → children root = []) as Hnone.
  { intros Hfirst. unfold mcts_tree in Hrun.
    unfold mbind at 1 in Hrun. unfold prog_bind at 1 in Hrun.
    unfold time_time at 1 in Hrun.
    unfold mbind at 1 in Hrun. unfold prog_bind at 1 in Hrun.
    unfold lift at 1 in Hrun. unfold new_node in Hrun.
    rewrite Hmoves in Hrun. cbn [mbind result_bind] in Hrun.
    apply mcts_loop_zero_passes in Hrun as [-> _]; [|exact Hfirst].
    injection Hroot as <-. reflexivity. }
  split; [|split].
  - intros Hcase. rewrite Hmain.
    apply (main_mcts_finish_no_children t root); [exact Hroot|].
    destruct Hcase as [Hm|Hf]; [apply Hfull, Hm|apply Hnone, Hf].
  - intros ->. rewrite Hmcts.
    rewrite (mcts_finish_no_children t root) by auto.
    unfold mbind, prog_bind, lift. rewrite Hmoves. reflexivity.
  - intros Hne.
    destruct (mcts_legal laws fuel root_board player simulations' time_limit
                w moves Hwf Hp Hmoves Hne Hup) as (col & w' & Hcol & Hin).
    exists col, w'. split; [exact Hcol|]. split; [exact Hin|].
    intros Hfirst. rewrite Hmain. rewrite Hmcts in Hcol.
    rewrite (main_mcts_finish_children t root); [exact Hcol|exact Hroot|].
    destruct passes as [|passes].
    { rewrite Nat.add_0_r in Hstop. unfold first_pass in Hfirst. congruence. }
    destruct Hch as [Hc|Hc]; [lia|exact Hc|].
    rewrite Hmoves in Hc. injection Hc as ->. contradiction.
Qed.


End MainSearch.

Lemma main_mcts_unguarded_max_witness :
  Main.mcts (H := xrat_ops) 100 empty_board "R" 1000 0%Q sample_world
  = Raise ValueError.
Proof.
  apply (main_mcts_unguarded_max (H := xrat_ops) xrat_float_laws 100
           empty_board "R" 1000 500 0%Q sample_world [0; 1; 2; 3; 4; 5; 6]
           wf_empty_board (or_introl eq_refl) eq_refl).
  - exists 0%nat. split; [lia|reflexivity].
  - right. reflexivity.
Defined.


(** X15: [get_next_player] returns a player whatever it is given: "R"
    for "Y" and "Y" for every other string.  On the two players it
    exchanges them, so it has no fixed point and applying it twice gives
    the player back; and it never returns the mark of an empty cell. *)
Theorem get_next_player_swaps (p : string) :
  is_player (get_next_player p)
  ∧ get_next_player p ≠ "."
  ∧ (p ≠ "Y" → get_next_player p = "Y")
  ∧ (is_player p →
     get_next_player p ≠ p ∧ get_next_player (get_next_player p) = p).
Proof.
  assert (get_next_player "Y" = "R") as HY by reflexivity.
  assert (p ≠ "Y" → get_next_player p = "Y") as HN.
  { intros Hne. unfold get_next_player.
    apply String.eqb_neq in Hne. rewrite Hne. reflexivity. }
  split; [|split; [|split; [exact HN|]]].
  - destruct (decide (p = "Y")) as [->|Hne]; [left; exact HY|].
    right. apply HN, Hne.
  - destruct (decide (p = "Y")) as [->|Hne]; [rewrite HY; discriminate|].
    rewrite (HN Hne). discriminate.
  - intros [Hp|Hp]; subst p; split; try reflexivity; discriminate.
Qed.

Lemma get_next_player_swaps_witness :
  get_next_player "R" ≠ "R" ∧ get_next_player (get_next_player "R") = "R".
Proof.
  apply (get_next_player_swaps "R"). left. reflexivity.
Defined.

Lemma backpropagate_none_test_redundant_witness :
  ∃ t', Main.backpropagate 3 chain_tree (Some 1%nat) None = Ok t'
    ∧ Forall2 (fun nd nd' => wins nd' = wins nd) chain_tree t'.
Proof.
  destruct (backpropagate 3 chain_tree (Some 1%nat) None) as [t'| |] eqn:E;
    [|vm_compute in E; discriminate..].
  destruct (backpropagate_none_test_redundant 3 chain_tree (Some 1%nat) None)
    as [Heq Hwins].
  exists t'. split; [rewrite Heq; exact E|].
  apply (Hwins eq_refl t' E).
Defined.

(** ** Boards as objects, from the first board on *)

Lemma init_rows_spec (rows : list Z) :
  ∀ h : list (list string),
    Streamlit.init_rows rows h
    = (seq (length h) (length rows),
       h ++ map (fun _ => map (fun _ => ".") (range COLS)) rows).
Proof.
  induction rows as [|r rows IH]; intros h; cbn [Streamlit.init_rows].
  - rewrite app_nil_r. reflexivity.
  - rewrite IH, length_app. cbn [length map seq].
    rewrite Nat.add_1_r, <- app_assoc. reflexivity.
Qed.

Lemma denote_fresh (h : list (list string)) (b : Board) :
  Heap.denote (h ++ b) (seq (length h) (length b)) = Some b.
Proof.
  apply denote_Forall2, Forall2_same_length_lookup. split.
  - apply length_seq.
  - intros i a r Ha Hr. apply lookup_seq in Ha as [-> Hi].
    rewrite lookup_app_r by lia.
    replace (length h + i - length h)%nat with i by lia. exact Hr.
Qed.

(** X16: the rows of the boards of this program are distinct objects.
    [init_board] gives the empty grid as six new row objects; and
    [make_move] on a grid whose rows are distinct objects returns a grid
    whose rows are again distinct objects, none of them a row of its
    argument or of any board that existed before the call. *)
Theorem boards_rows_distinct (h : list (list string)) :
  (∃ ref h',
     Streamlit.init_board_objects h = (ref, h')
     ∧ NoDup ref ∧ length ref = 6%nat
     ∧ Heap.denote h' ref = Some Streamlit.init_board
     ∧ Streamlit.init_board = empty_board
     ∧ (∀ a row, h !! a = Some row → h' !! a = Some row)
     ∧ Forall (fun a => (length h ≤ a)%nat) ref)
  ∧ ∀ (ref : list nat) (b : Board) (col : Z) (p : string),
      wf_board b → 0 ≤ col < COLS → NoDup ref →
      Heap.denote h ref = Some b →
      ∃ ref' h' b',
        Heap.make_move h ref col p = Ok (ref', h')
        ∧ make_move b col p = Ok b'
        ∧ Heap.denote h' ref' = Some b'
        ∧ NoDup ref' ∧ Forall (fun a => a ∉ ref) ref'
        ∧ Forall (fun a => (length h ≤ a)%nat) ref'.
Proof.
  split.
  - unfold Streamlit.init_board_objects. rewrite init_rows_spec.
    eexists _, _. split; [reflexivity|].
    split; [apply NoDup_seq|]. split; [reflexivity|].
    split.
    { pose proof (denote_fresh h Streamlit.init_board) as Hd.
      unfold Streamlit.init_board in Hd at 2. rewrite length_map in Hd.
      exact Hd. }
    split; [reflexivity|]. split.
    + intros a row Ha. apply lookup_app_l_Some, Ha.
    + apply Forall_forall. intros a Ha. apply elem_of_seq in Ha. lia.
  - intros ref b col p Hwf Hc Hnd Hden.
    pose proof (make_move_wf b col p Hwf Hc) as Hmv.
    destruct (heap_make_move_refines h ref b _ col p Hwf Hc Hnd Hden Hmv)
      as (ref' & h' & Hhmv & Hden').
    destruct (heap_make_move_frame _ _ _ _ _ _ Hhmv) as [_ Hfresh].
    eexists ref', h', _. split; [exact Hhmv|]. split; [exact Hmv|].
    split; [exact Hden'|]. split; [|split; [|exact Hfresh]].
    + unfold Heap.make_move, Heap.deepcopy in Hhmv.
      apply denote_Forall2 in Hden.
      rewrite (deepcopy_rows_fresh ref b) in Hhmv
        by (try assumption; reflexivity).
      cbn [mbind result_bind] in Hhmv.
      apply bind_Ok in Hhmv. destruct Hhmv as (h2 & _ & Hhmv).
      injection Hhmv as <- _. apply NoDup_seq.
    + rewrite Forall_forall in Hfresh. apply Forall_forall.
      intros a Ha Hin. apply Hfresh in Ha.
      apply denote_Forall2 in Hden.
      apply list_elem_of_lookup in Hin as [i Hi].
      destruct (Forall2_lookup_l _ _ _ _ _ Hden Hi) as (r & _ & Hr).
      apply lookup_lt_Some in Hr. lia.
Qed.

Lemma boards_rows_distinct_witness :
  ∃ ref' h' b',
    Heap.make_move empty_board [0; 1; 2; 3; 4; 5]%nat 3 "R" = Ok (ref', h')
    ∧ Heap.denote h' ref' = Some b' ∧ NoDup ref'.
Proof.
  destruct (boards_rows_distinct empty_board) as [_ Hmove].
  destruct (Hmove [0; 1; 2; 3; 4; 5]%nat empty_board 3 "R" wf_empty_board)
    as (ref' & h' & b' & Hmv & _ & Hden & Hnd & _).
  - unfold COLS. lia.
  - apply (NoDup_seq 0 6).
  - reflexivity.
  - exists ref', h', b'. split; [exact Hmv|]. split; [exact Hden|exact Hnd].
Defined.

(** ** The visits add up *)

Lemma expand_node_shape (t t' : tree) (node child : nat) :
  tree_ok t → expand_node t node = Ok (child, t') →
  ∃ nd rest move new_board moves,
    t !! node = Some nd ∧ untried_moves nd = rest ++ [move]
    ∧ child = length t
    ∧ t' = <[node := Node (board nd) (current_player nd) (parent nd)
                       (children nd ++ [length t]) (wins nd) (visits nd)
                       rest]> t
           ++ [Node new_board (get_next_player (current_player nd))
                 (Some node) [] 0 0 moves].
Proof.
  intros Hok Hrun.
  assert (∃ nd, t !! node = Some nd) as [nd En].
  { unfold expand_node, get_node in Hrun.
    destruct (t !! node) as [nd|]; [eauto|discriminate]. }
  destruct (Hok node nd En) as (_ & _ & Hwf & _ & Hunt).
  destruct (untried_moves nd) as [|m0 ms] eqn:Eu using rev_ind.
  { unfold expand_node, get_node in Hrun. rewrite En in Hrun.
    cbn [mbind result_bind] in Hrun. rewrite Eu in Hrun. discriminate. }
  clear IHms. rewrite Forall_forall in Hunt.
  destruct (Hunt m0) as [Hmove _]; [apply elem_of_app; right; left|].
  destruct (expand_node_run t node nd ms m0 En Eu Hwf Hmove)
    as (new_board & moves' & Hmv & Hwf' & Hm' & Hrun').
  rewrite Hrun' in Hrun. injection Hrun as <- <-.
  exists nd, ms, m0, new_board, moves'. repeat split; assumption.
Qed.

Lemma sum_visits_cons (t : tree) (c : nat) (cs : list nat) :
  sum_visits t (c :: cs)
  = match t !! c with
    | Some cn => visits cn + sum_visits t cs
    | None => sum_visits t cs
    end.
Proof. reflexivity. Qed.

Lemma sum_visits_app (t : tree) (cs ds : list nat) :
  sum_visits t (cs ++ ds) = sum_visits t cs + sum_visits t ds.
Proof.
  induction cs as [|c cs IH]; [reflexivity|].
  cbn [app]. rewrite !sum_visits_cons, IH. destruct (t !! c); lia.
Qed.

Lemma sum_visits_ext (t t' : tree) (cs : list nat) :
  (∀ c, c ∈ cs → visits <$> t' !! c = visits <$> t !! c) →
  sum_visits t' cs = sum_visits t cs.
Proof.
  induction cs as [|c cs IH]; intros Hext; [reflexivity|].
  rewrite !sum_visits_cons.
  rewrite IH by (intros c' Hc'; apply Hext; right; exact Hc').
  specialize (Hext c ltac:(left)).
  destruct (t' !! c), (t !! c); cbn in Hext; congruence.
Qed.

Lemma sum_visits_one (t t' : tree) (cs : list nat) (c0 : nat)
  (cn cn' : MCTSNode) :
  NoDup cs → c0 ∈ cs → t !! c0 = Some cn → t' !! c0 = Some cn' →
  visits cn' = visits cn + 1 →
  (∀ c, c ∈ cs → c ≠ c0 → visits <$> t' !! c = visits <$> t !! c) →
  sum_visits t' cs = sum_visits t cs + 1.
Proof.
  intros Hnd Hin Hc Hc' Hv. induction cs as [|c cs IH]; intros Hext.
  { inversion Hin. }
  apply NoDup_cons in Hnd as [Hnotin Hnd].
  rewrite !sum_visits_cons.
  destruct (decide (c = c0)) as [->|Hne].
  - rewrite Hc, Hc', Hv.
    rewrite (sum_visits_ext t t' cs); [lia|].
    intros c Hcin. apply Hext; [right; exact Hcin|].
    intros ->. contradiction.
  - apply elem_of_cons in Hin as [->|Hin]; [contradiction|].
    rewrite IH; [|exact Hnd|exact Hin|].
    + specialize (Hext c ltac:(left) Hne).
      destruct (t' !! c), (t !! c); cbn in Hext; try congruence; try lia.
      injection Hext as ->. lia.
    + intros c' Hc'in. apply Hext. right. exact Hc'in.
Qed.

Lemma children_NoDup (t : tree) (n : nat) (nd : MCTSNode) :
  tree_ok t → tree_shape t → t !! n = Some nd → NoDup (children nd).
Proof.
  intros Hok Hshape Hn. apply NoDup_alt. intros j j' c Hj Hj'.
  destruct (Hok n nd Hn) as (_ & _ & Hwfn & Hpn & _).
  destruct (Hshape n nd Hn) as (moves & Hmoves & Hlen & Htake & Hch).
  destruct (Hch j c Hj) as (cn & m & Hcn & Hm & Hmk & _).
  destruct (Hch j' c Hj') as (cn' & m' & Hcn' & Hmj' & Hmk' & _).
  rewrite Hcn in Hcn'. injection Hcn' as <-.
  rewrite get_valid_moves_wf in Hmoves by exact Hwfn.
  injection Hmoves as <-.
  assert (m = m') as <-.
  { pose proof (list_elem_of_lookup_2 _ _ _ Hm) as Hin.
    pose proof (list_elem_of_lookup_2 _ _ _ Hmj') as Hin'.
    apply elem_of_valid_moves in Hin as [Hc Ht].
    apply elem_of_valid_moves in Hin' as [Hc' Ht'].
    apply (leads_to_unique (board nd) (current_player nd) (board cn));
      try assumption.
    destruct Hpn as [-> | ->]; discriminate. }
  assert (NoDup (filter (fun c => cell (board nd) 0 c = ".") (range COLS)))
    as Hnd by (apply NoDup_filter, NoDup_seqZ).
  pose proof (NoDup_lookup _ _ _ _ Hnd Hm Hmj') as Heq.
  apply lookup_lt_Some in Hj, Hj', Hm, Hmj'. lia.
Qed.

Lemma on_path_linear (t : tree) (s a b : nat) :
  on_path t s a → on_path t s b → on_path t a b ∨ on_path t b a.
Proof.
  induction 1 as [s|s nd p a Hs Hp Hpath IH]; intros Hb; [left; exact Hb|].
  inversion Hb as [|? nd0 p0 ? Hs0 Hp0 Hrest]; subst.
  - right. apply (on_path_parent t b nd p a); assumption.
  - rewrite Hs in Hs0. injection Hs0 as <-.
    rewrite Hp in Hp0. injection Hp0 as <-. apply IH, Hrest.
Qed.

Lemma on_path_via_child (t : tree) (s n : nat) :
  on_path t s n → n ≠ s →
  ∃ c cn, t !! c = Some cn ∧ parent cn = Some n ∧ on_path t s c.
Proof.
  induction 1 as [s|s nd p n Hs Hp Hpath IH]; intros Hne; [contradiction|].
  destruct (decide (n = p)) as [->|Hnp].
  - exists s, nd. split; [exact Hs|]. split; [exact Hp|]. constructor.
  - destruct (IH Hnp) as (c & cn & Hc & Hpar & Hon).
    exists c, cn. split; [exact Hc|]. split; [exact Hpar|].
    apply (on_path_parent t s nd p c); assumption.
Qed.

Lemma on_path_child_unique (t : tree) (s n c c0 : nat) (cn cn0 : MCTSNode) :
  wf_tree t →
  t !! c = Some cn → parent cn = Some n →
  t !! c0 = Some cn0 → parent cn0 = Some n →
  on_path t s c → on_path t s c0 → c = c0.
Proof.
  intros Hwf Hc Hp Hc0 Hp0 Hon Hon0.
  assert (∀ a b na nb, t !! a = Some na → parent na = Some n →
            t !! b = Some nb → parent nb = Some n → on_path t a b → a = b)
    as Hcase.
  { intros a b na nb Ha Hpa Hb Hpb Hab.
    inversion Hab as [|? nd0 p0 ? Ha0 Hpa0 Hrest]; subst; [reflexivity|].
    rewrite Ha in Ha0. injection Ha0 as <-.
    rewrite Hpa in Hpa0. injection Hpa0 as <-.
    pose proof (on_path_le t n b Hwf Hrest).
    pose proof (Hwf b nb n Hb Hpb). lia. }
  destruct (on_path_linear t s c c0 Hon Hon0) as [H1|H1].
  - exact (Hcase c c0 cn cn0 Hc Hp Hc0 Hp0 H1).
  - symmetry. exact (Hcase c0 c cn0 cn Hc0 Hp0 Hc Hp H1).
Qed.

Lemma lookup_expanded (t : tree) (node i : nat) (nd2 cnew : MCTSNode) :
  (node < length t)%nat →
  (<[node := nd2]> t ++ [cnew]) !! i
  = if decide (i = length t) then Some cnew
    else if decide (i = node) then Some nd2 else t !! i.
Proof.
  intros Hlt. destruct (decide (i = length t)) as [->|Hi].
  - rewrite lookup_app_r by (rewrite length_insert; lia).
    rewrite length_insert, Nat.sub_diag. reflexivity.
  - destruct (decide (i < length t)%nat) as [Hil|Hil].
    + rewrite lookup_app_l by (rewrite length_insert; exact Hil).
      destruct (decide (i = node)) as [->|Hne].
      * apply list_lookup_insert_eq, Hlt.
      * apply list_lookup_insert_ne. auto.
    + rewrite (lookup_ge_None_2 t i) by lia.
      destruct (decide (i = node)) as [->|Hne]; [lia|].
      apply lookup_ge_None_2. rewrite length_app, length_insert. cbn. lia.
Qed.

Lemma linked_expand (t t' : tree) (node child : nat) :
  tree_ok t → linked t → expand_node t node = Ok (child, t') → linked t'.
Proof.
  intros Hok Hlink Hrun.
  destruct (expand_node_shape t t' node child Hok Hrun)
    as (nd & rest & move & new_board & moves & En & Hunt & -> & ->).
  pose proof (lookup_lt_Some _ _ _ En) as Hlt.
  assert (∀ p pn x, t !! p = Some pn → x ∈ children pn →
            ∃ pn', (<[node := Node (board nd) (current_player nd) (parent nd)
                                (children nd ++ [length t]) (wins nd)
                                (visits nd) rest]> t
                    ++ [Node new_board (get_next_player (current_player nd))
                          (Some node) [] 0 0 moves]) !! p = Some pn'
                   ∧ x ∈ children pn') as Hold.
  { intros p pn x Hp Hx. rewrite lookup_expanded by exact Hlt.
    pose proof (lookup_lt_Some _ _ _ Hp).
    destruct (decide (p = length t)) as [->|_]; [lia|].
    destruct (decide (p = node)) as [->|_].
    - rewrite En in Hp. injection Hp as <-. eexists. split; [reflexivity|].
      cbn. apply elem_of_app. left. exact Hx.
    - exists pn. split; assumption. }
  intros c cn p Hc Hp. rewrite lookup_expanded in Hc by exact Hlt.
  destruct (decide (c = length t)) as [->|Hcl].
  - injection Hc as <-. cbn in Hp. injection Hp as <-.
    rewrite lookup_expanded by exact Hlt.
    destruct (decide (node = length t)) as [Heq|_]; [lia|].
    destruct (decide (node = node)) as [_|Hne]; [|contradiction].
    eexists. split; [reflexivity|]. cbn. apply elem_of_app. right. left.
  - destruct (decide (c = node)) as [->|Hcn].
    + injection Hc as <-. cbn in Hp.
      destruct (Hlink node nd p En Hp) as (pn & Hpn & Hin).
      exact (Hold p pn node Hpn Hin).
    + destruct (Hlink c cn p Hc Hp) as (pn & Hpn & Hin).
      exact (Hold p pn c Hpn Hin).
Qed.

Lemma linked_backpropagate (fuel : nat) (t t' : tree) (node : option nat)
  (winner : option string) :
  linked t → backpropagate fuel t node winner = Ok t' → linked t'.
Proof.
  intros Hlink Hrun c cn' p Hc' Hp.
  pose proof (backpropagate_length _ _ _ _ _ Hrun) as Hlen.
  pose proof (backpropagate_same _ _ _ _ _ Hrun) as Hsame.
  destruct (t !! c) as [cn|] eqn:Ec;
    [|apply lookup_ge_None in Ec; apply lookup_lt_Some in Hc'; lia].
  destruct (Hsame c cn Ec) as (cn1 & Hc1 & _ & _ & Hpar & _).
  rewrite Hc' in Hc1. injection Hc1 as <-.
  destruct (Hlink c cn p Ec) as (pn & Hpn & Hin); [congruence|].
  destruct (Hsame p pn Hpn) as (pn' & Hpn' & _ & _ & _ & Hch & _).
  exists pn'. split; [exact Hpn'|]. rewrite Hch. exact Hin.
Qed.

Lemma conserved_expand (t t' : tree) (node child : nat) :
  tree_ok t → conserved t → expand_node t node = Ok (child, t') →
  conserved_but (Some child) t'
  ∧ ∃ cn, t' !! child = Some cn ∧ visits cn = 0 ∧ children cn = []
      ∧ child ≠ 0%nat.
Proof.
  intros Hok Hcons Hrun.
  destruct (expand_node_shape t t' node child Hok Hrun)
    as (nd & rest & move & new_board & moves & En & Hunt & -> & ->).
  pose proof (lookup_lt_Some _ _ _ En) as Hlt.
  set (nd2 := Node (board nd) (current_player nd) (parent nd)
                (children nd ++ [length t]) (wins nd) (visits nd) rest).
  set (cnew := Node new_board (get_next_player (current_player nd))
                 (Some node) [] 0 0 moves).
  assert (∀ c, (c < length t)%nat →
            visits <$> (<[node := nd2]> t ++ [cnew]) !! c
            = visits <$> t !! c) as Hvis.
  { intros c Hc. rewrite lookup_expanded by exact Hlt.
    destruct (decide (c = length t)) as [->|_]; [lia|].
    destruct (decide (c = node)) as [->|_]; [|reflexivity].
    rewrite En. reflexivity. }
  split.
  - intros n nd' Hn Hns Hmoves. rewrite lookup_expanded in Hn by exact Hlt.
    destruct (decide (n = length t)) as [->|Hnl]; [congruence|].
    unfold visits_add_up.
    destruct (decide (n = node)) as [->|Hnn].
    + injection Hn as <-. cbn [visits children nd2].
      rewrite sum_visits_app, sum_visits_cons.
      rewrite lookup_expanded by exact Hlt.
      destruct (decide (length t = length t)) as [_|Hne]; [|contradiction].
      cbn [visits cnew sum_visits foldr].
      rewrite (sum_visits_ext t).
      * pose proof (Hcons node nd En ltac:(discriminate)) as Hadd.
        unfold visits_add_up in Hadd. rewrite Hadd; [lia|].
        left. rewrite Hunt. intros Hnil. apply (f_equal length) in Hnil.
        rewrite length_app in Hnil. cbn in Hnil. lia.
      * intros c Hc. apply Hvis.
        destruct (Hok node nd En) as (_ & Hch & _).
        rewrite Forall_forall in Hch. apply Hch in Hc. lia.
    + rewrite (sum_visits_ext t).
      * apply (Hcons n nd' Hn); [discriminate|exact Hmoves].
      * intros c Hc. apply Hvis.
        destruct (Hok n nd' Hn) as (_ & Hch & _).
        rewrite Forall_forall in Hch. apply Hch in Hc. lia.
  - exists cnew. rewrite lookup_expanded by exact Hlt.
    destruct (decide (length t = length t)) as [_|Hne]; [|contradiction].
    repeat split. lia.
Qed.

Lemma conserved_backpropagated (t t' : tree) (s : nat)
  (winner : option string) :
  tree_ok t → tree_shape t → linked t →
  conserved_but (Some s) t →
  (∀ nd, t !! s = Some nd →
     untried_moves nd ≠ [] ∨ children nd ≠ [] →
     visits nd + 1
     = (if decide (s = 0%nat) then 0 else 1) + sum_visits t (children nd)) →
  backpropagated t t' s winner →
  conserved t'.
Proof.
  intros Hok Hshape Hlink Hcons Hstart [Hlen Hspec] n nd' Hn' _ Hmoves.
  pose proof (tree_ok_wf_tree t Hok) as Hwf.
  destruct (t !! n) as [nd|] eqn:En;
    [|apply lookup_ge_None in En; apply lookup_lt_Some in Hn'; lia].
  destruct (Hspec n nd En) as (nd1 & Hn1 & Hsame & Hon & Hoff).
  rewrite Hn' in Hn1. injection Hn1 as <-.
  destruct Hsame as (_ & _ & _ & Hch & Hunt).
  rewrite Hch, Hunt in Hmoves. unfold visits_add_up. rewrite Hch.
  destruct (Hok n nd En) as (_ & Hkids & _). rewrite Forall_forall in Hkids.
  assert (∀ c, c ∈ children nd → ¬ on_path t s c →
            visits <$> t' !! c = visits <$> t !! c) as Hstay.
  { intros c Hc Hnot. apply Hkids in Hc.
    destruct (t !! c) as [cn|] eqn:Ec; [|apply lookup_ge_None in Ec; lia].
    destruct (Hspec c cn Ec) as (cn' & Hc' & _ & _ & Hsame).
    rewrite Hc', (Hsame Hnot). reflexivity. }
  assert (∀ c, c ∈ children nd →
            ∃ cn, t !! c = Some cn ∧ parent cn = Some n) as Hkid.
  { intros c Hc. apply list_elem_of_lookup in Hc as [j Hj].
    destruct (Hshape n nd En) as (moves & _ & _ & _ & Hsh).
    destruct (Hsh j c Hj) as (cn & m & Hcn & _ & _ & Hpar & _). eauto. }
  destruct (on_path_dec t s n Hwf) as [Hp|Hp].
  - destruct (Hon Hp) as (Hv & _). rewrite Hv.
    destruct (decide (n = s)) as [->|Hns].
    + rewrite (sum_visits_ext t).
      * apply Hstart; assumption.
      * intros c Hc. apply Hstay; [exact Hc|]. intros Hpath.
        apply (on_path_le t s c Hwf) in Hpath. apply Hkids in Hc. lia.
    + destruct (on_path_via_child t s n Hp Hns)
        as (c0 & cn0 & Hc0 & Hpar0 & Hon0).
      destruct (Hlink c0 cn0 n Hc0 Hpar0) as (pn & Hpn & Hin).
      rewrite En in Hpn. injection Hpn as <-.
      destruct (Hspec c0 cn0 Hc0) as (cn0' & Hc0' & _ & Hon0' & _).
      destruct (Hon0' Hon0) as (Hv0 & _).
      rewrite (sum_visits_one t t' (children nd) c0 cn0 cn0').
      * pose proof (Hcons n nd En ltac:(congruence) Hmoves) as Hadd.
        unfold visits_add_up in Hadd. lia.
      * eapply children_NoDup; eassumption.
      * exact Hin.
      * exact Hc0.
      * exact Hc0'.
      * exact Hv0.
      * intros c Hc Hne. apply Hstay; [exact Hc|]. intros Hpath.
        destruct (Hkid c Hc) as (cn & Hcn & Hparc). apply Hne.
        exact (on_path_child_unique t s n c c0 cn cn0 Hwf Hcn Hparc Hc0 Hpar0
                 Hpath Hon0).
  - rewrite (Hoff Hp). rewrite (sum_visits_ext t).
    + apply (Hcons n nd En); [|exact Hmoves].
      intros [= ->]. apply Hp. constructor.
    + intros c Hc. apply Hstay; [exact Hc|]. intros Hpath.
      destruct (Hkid c Hc) as (cn & Hcn & Hparc). apply Hp.
      exact (on_path_up t s c n cn Hpath Hcn Hparc).
Qed.

Section VisitsOfSearch.

Context `{FloatOps}.

Lemma select_node_stops (t : tree) (fuel : nat) :
  ∀ (node : option nat) (m : nat),
    select_node fuel t node = Ok m →
    ∃ nd, t !! m = Some nd ∧ (untried_moves nd = [] → children nd = []).
Proof.
  induction fuel as [|fuel IH]; intros [n|] m Hsel; try discriminate;
    cbn [select_node] in Hsel;
    apply bind_Ok in Hsel as (nd & Hnd & Hsel);
    unfold get_node in Hnd;
    (destruct (t !! n) as [nd0|] eqn:En; [|discriminate]);
    injection Hnd as ->;
    (destruct (untried_moves nd) as [|u us] eqn:Eu;
     [destruct (children nd) as [|c cs] eqn:Ec|]);
    try (injection Hsel as <-; exists nd; split; [exact En|];
         rewrite ?Eu, ?Ec; intros; try reflexivity; discriminate);
    try discriminate.
  apply bind_Ok in Hsel as (c' & _ & Hsel). exact (IH c' m Hsel).
Qed.

(** One pass of the loop keeps the invariants of the search, the links
    from parents to children, and the sums of the visits. *)
Lemma visits_iteration (t t' : tree) (w w' : world) :
  search_inv t ∧ linked t ∧ conserved t →
  mcts_iteration t w = Ok (t', w') →
  search_inv t' ∧ linked t' ∧ conserved t'.
Proof.
  intros (Hinv & Hlink & Hcons) Hrun. unfold mcts_iteration in Hrun.
  apply prog_bind_Ok in Hrun as (node & w1 & Hsel & Hrun).
  apply lift_Ok in Hsel as [Hsel _].
  apply prog_bind_Ok in Hrun as (nd & w2 & Hnd & Hrun).
  apply lift_Ok in Hnd as [Hnd _]. unfold get_node in Hnd.
  destruct (t !! node) as [nd0|] eqn:En; [|discriminate].
  injection Hnd as ->.
  apply prog_bind_Ok in Hrun as ([s t1] & w3 & Hexp & Hrun).
  apply prog_bind_Ok in Hrun as (nd' & w4 & Hnd' & Hrun).
  apply lift_Ok in Hnd' as [Hnd' _]. unfold get_node in Hnd'.
  destruct (t1 !! s) as [nds|] eqn:Es; [|discriminate].
  apply prog_bind_Ok in Hrun as (winner & w5 & _ & Hrun).
  apply lift_Ok in Hrun as [Hbp _].
  destruct (select_node_stops t _ _ _ Hsel) as (nd1 & En1 & Hleaf).
  rewrite En in En1. injection En1 as <-.
  assert (search_inv t1 ∧ linked t1 ∧ conserved_but (Some s) t1
          ∧ ∀ nd, t1 !! s = Some nd →
              untried_moves nd ≠ [] ∨ children nd ≠ [] →
              visits nd + 1
              = (if decide (s = 0%nat) then 0 else 1)
                + sum_visits t1 (children nd))
    as (Hinv1 & Hlink1 & Hcons1 & Hstart).
  { pose proof Hinv as (Hok & _).
    destruct (untried_moves nd) as [|u us] eqn:Eu.
    - injection Hexp as <- <- <-.
      split; [exact Hinv|]. split; [exact Hlink|]. split.
      + intros n ndn Hn _ Hm. apply (Hcons n ndn Hn); [discriminate|exact Hm].
      + intros nd2 Hn2 Hm. rewrite En in Hn2. injection Hn2 as <-.
        rewrite Eu, (Hleaf eq_refl) in Hm. destruct Hm; contradiction.
    - apply lift_Ok in Hexp as [Hexp _].
      split; [eapply search_inv_expand; eassumption|].
      split; [eapply linked_expand; eassumption|].
      destruct (conserved_expand t t1 node s Hok Hcons Hexp)
        as (Hc1 & cn & Hcn & Hv & Hch & Hs0).
      split; [exact Hc1|].
      intros nd2 Hn2 _. rewrite Hcn in Hn2. injection Hn2 as <-.
      rewrite Hv, Hch. destruct (decide (s = 0%nat)); [contradiction|].
      reflexivity. }
  pose proof (lookup_lt_Some _ _ _ Es) as Hlt.
  destruct (search_inv_backpropagate t1 s winner Hinv1 Hlt)
    as (t2 & Hbp2 & Hinv2 & _).
  rewrite Hbp in Hbp2. injection Hbp2 as <-.
  split; [exact Hinv2|].
  split; [eapply linked_backpropagate; eassumption|].
  destruct Hinv1 as (Hok1 & Hshape1 & _).
  destruct (backpropagate_ok s t1 (length t1) winner
              (tree_ok_wf_tree t1 Hok1) Hlt Hlt) as (t2 & Hbp2 & Hspec).
  rewrite Hbp in Hbp2. injection Hbp2 as <-.
  exact (conserved_backpropagated t1 t' s winner Hok1 Hshape1 Hlink1 Hcons1
           Hstart Hspec).
Qed.

Lemma visits_loop (start limit : Q) (fuel : nat) :
  ∀ (t t' : tree) (w w' : world),
    search_inv t ∧ linked t ∧ conserved t →
    mcts_loop fuel start limit t w = Ok (t', w') →
    search_inv t' ∧ linked t' ∧ conserved t'.
Proof.
  induction fuel as [|fuel IH]; intros t t' w w' Hinv Hrun; [discriminate|].
  cbn [mcts_loop] in Hrun.
  apply prog_bind_Ok in Hrun as (now & w1 & _ & Hrun).
  destruct (Qltb _ _).
  - apply prog_bind_Ok in Hrun as (t1 & w2 & Hit & Hrun).
    apply (IH t1 t' w2 w'); [|exact Hrun].
    eapply visits_iteration; eassumption.
  - injection Hrun as <- <-. exact Hinv.
Qed.

Hypothesis laws : float_laws.

(** X17: the visits add up in the tree in which the loop of [mcts]
    ends.  At every node whose board has a legal column the visits are
    the sum of the visits of its children, plus one, for the pass that
    made the node, unless it is the root; so the visits of the root of a
    board with a legal column are shared out among its children.  A
    node whose board has no legal column has no child.  And every node
    but the root is among the children of its parent. *)
Theorem mcts_visits_add_up (fuel : nat) (root_board : Board)
  (player : string) (time_limit : Q) (w : world) :
  wf_board root_board → is_player player →
  time_is_up fuel (ticks w (tick_pos w)) time_limit
    (World (draws w) (draw_pos w) (ticks w) (S (tick_pos w))) →
  ∃ t w1 root,
    mcts_tree fuel root_board player time_limit w = Ok (t, w1)
    ∧ t !! 0%nat = Some root
    ∧ (∀ n nd moves,
         t !! n = Some nd → get_valid_moves (board nd) = Ok moves →
         (moves ≠ [] →
          visits nd
          = (if decide (n = 0%nat) then 0 else 1)
            + sum_visits t (children nd))
         ∧ (moves = [] → children nd = []))
    ∧ (get_valid_moves root_board ≠ Ok [] →
       visits root = sum_visits t (children root))
    ∧ ∀ c cn, t !! c = Some cn → c ≠ 0%nat →
        ∃ p pn, parent cn = Some p ∧ t !! p = Some pn ∧ c ∈ children pn.
Proof.
  intros Hwf Hp Hup.
  destruct (mcts_tree_inv laws fuel root_board player time_limit w Hwf Hp Hup)
    as (t & w1 & root & passes & Hrun & _ & Hroot & Hb & _).
  assert (search_inv t ∧ linked t ∧ conserved t)
    as ((Hok & Hshape & Hcnt & Hrooted) & Hlink & Hcons).
  { pose proof Hrun as Hrun'. unfold mcts_tree in Hrun'.
    apply prog_bind_Ok in Hrun' as (start & w0 & _ & Hrun').
    apply prog_bind_Ok in Hrun' as (r0 & w0' & Hnew & Hrun').
    apply lift_Ok in Hnew as [Hnew _]. unfold new_node in Hnew.
    rewrite get_valid_moves_wf in Hnew by exact Hwf.
    injection Hnew as <-.
    apply (visits_loop _ _ _ _ _ _ _) in Hrun'; [exact Hrun'|].
    split; [apply search_inv_root; assumption|]. split.
    - intros c cn p Hc Hpar. destruct c; [|discriminate].
      injection Hc as <-. discriminate.
    - intros n nd Hn _ _. destruct n; [|discriminate].
      injection Hn as <-. reflexivity. }
  assert (∀ n nd moves,
            t !! n = Some nd → get_valid_moves (board nd) = Ok moves →
            (moves ≠ [] →
             visits nd
             = (if decide (n = 0%nat) then 0 else 1)
               + sum_visits t (children nd))
            ∧ (moves = [] → children nd = [])) as Hall.
  { intros n nd moves Hn Hmoves.
    destruct (Hshape n nd Hn) as (moves' & Hm' & Hlen & Htake & _).
    rewrite Hmoves in Hm'. injection Hm' as <-. split.
    - intros Hne. apply (Hcons n nd Hn); [discriminate|].
      destruct (children nd) as [|c cs]; [left|right; discriminate].
      rewrite Htake. cbn [length]. rewrite Nat.sub_0_r, take_ge by lia.
      exact Hne.
    - intros ->. destruct (children nd); [reflexivity|cbn in Hlen; lia]. }
  exists t, w1, root. split; [exact Hrun|]. split; [exact Hroot|].
  split; [exact Hall|]. split.
  - intros Hne.
    destruct (Hall 0%nat root
                (filter (fun c => cell root_board 0 c = ".") (range COLS))
                Hroot) as [Hsum _].
    { rewrite Hb. apply get_valid_moves_wf, Hwf. }
    apply Hsum. intros Hnil. apply Hne.
    rewrite get_valid_moves_wf by exact Hwf. rewrite Hnil. reflexivity.
  - intros c cn Hc Hne.
    destruct (parent cn) as [p|] eqn:Epar;
      [|exfalso; exact (Hrooted c cn Hc Hne Epar)].
    destruct (Hlink c cn p Hc Epar) as (pn & Hpn & Hin).
    exists p, pn. split; [reflexivity|]. split; assumption.
Qed.

End VisitsOfSearch.

Lemma mcts_visits_add_up_witness :
  ∃ t w1 root,
    mcts_tree (H := xrat_ops) 100 empty_board "R" 1%Q sample_world
    = Ok (t, w1)
    ∧ t !! 0%nat = Some root
    ∧ (get_valid_moves empty_board ≠ Ok [] →
       visits root = sum_visits t (children root)).
Proof.
  destruct (mcts_visits_add_up (H := xrat_ops) xrat_float_laws 100
              empty_board "R" 1%Q sample_world wf_empty_board
              (or_introl eq_refl) (sample_world_time_is_up 0))
    as (t & w1 & root & Hrun & Hroot & _ & Hsum & _).
  exists t, w1, root. split; [exact Hrun|]. split; [exact Hroot|exact Hsum].
Defined.
